(** * PatchMind: patch codec, masking policy and masked loss

    A shallow embedding of the four functions of the notebook
    [PatchMind_MAE_CIFAR10.ipynb] that carry its algorithmic content:
    [patchify], [unpatchify], [random_masking] and [compute_loss].

    - The codec ([patchify], [unpatchify]) is built from [reshape] and
      [permute], which act on the row-major layout of a tensor.  There a
      tensor is a shape together with its elements in row-major order.
    - The masking policy and the loss index their arguments as
      [patches[b][n]] and [mask[b][n]]; there a [B,N,D] tensor is a list of
      [B] rows of [N] patch vectors of length [D].
    - Tensor elements are IEEE binary32 numbers and Python floats are IEEE
      binary64 numbers, both through the executable specification of
      [SpecFloat] (round to nearest, ties to even).
    - The order in which torch adds the elements of a sum is left to its
      kernels.  [compute_loss] adds them from left to right in row-major
      order and takes a mean as the sum divided by the count, as a
      sequential loop does; [compute_loss_with] takes the two reductions
      as arguments, and [sums_to] and [means_to] say which results a
      reduction may give.
    - The noise of [torch.rand] is an input of the body of
      [random_masking]; the call itself threads the state of the default
      generator.
    - A call of [random_masking] with its arguments is
      [random_masking_call]; the signature has no parameter for a
      generator.
    - A Python exception is a value of type [error]; a function that may
      raise returns a [result].
    - The functions around them follow: [imshow], the masked panel of
      [reconstruct_and_visualize], one step of the training loop and the
      loss it records for an epoch. *)

From Stdlib Require Import List Arith ZArith Lia Bool Permutation Sorted.
From Stdlib Require Import QArith Qround Qpower.
From Stdlib Require Import Floats.SpecFloat.
Import ListNotations.
Close Scope Q_scope.

(** ** Exceptions *)

Inductive error : Type :=
| AssertionError      (* a failed [assert] *)
| ZeroDivisionError   (* integer [%] or [//] by zero *)
| ValueError          (* unpacking a shape of the wrong rank; [int(nan)] *)
| OverflowError       (* [int(inf)] *)
| RuntimeError        (* raised by torch: invalid [reshape] or [permute] *)
| TypeError.          (* a call with an argument the signature does not take *)

Inductive result (A : Type) : Type :=
| Ok (a : A)
| Raise (e : error).

Arguments Ok {A} a.
Arguments Raise {A} e.

Definition bind {A B : Type} (r : result A) (k : A -> result B) : result B :=
  match r with
  | Ok a => k a
  | Raise e => Raise e
  end.

Notation "x <- r ;; k" := (bind r (fun x => k))
  (at level 61, r at next level, right associativity).

(** ** Tensors in row-major layout *)

Record tensor (A : Type) : Type := mkTensor {
  shape : list nat;
  data  : list A
}.

Arguments mkTensor {A} shape data.
Arguments shape {A} t.
Arguments data {A} t.

(** Number of elements of a shape. *)
Definition numel (s : list nat) : nat := fold_right Nat.mul 1 s.

(** Every torch tensor holds as many elements as its shape says. *)
Definition wf_tensor {A : Type} (t : tensor A) : Prop :=
  length (data t) = numel (shape t).

(** [t.reshape(s)]: the elements keep their row-major order; torch raises
    when the element counts differ. *)
Definition reshape {A : Type} (t : tensor A) (s : list nat) : result (tensor A) :=
  if numel s =? length (data t) then Ok (mkTensor s (data t))
  else Raise RuntimeError.

(** All multi-indices of a shape, in row-major order. *)
Fixpoint indices (s : list nat) : list (list nat) :=
  match s with
  | [] => [[]]
  | d :: s' => flat_map (fun i => map (cons i) (indices s')) (seq 0 d)
  end.

(** Row-major offset of a multi-index. *)
Fixpoint ravel (s idx : list nat) : nat :=
  match s, idx with
  | _ :: s', i :: idx' => i * numel s' + ravel s' idx'
  | _, _ => 0
  end.

(** Position of axis [a] in the list [dims]. *)
Fixpoint index_of (a : nat) (dims : list nat) : nat :=
  match dims with
  | [] => 0
  | x :: dims' => if x =? a then 0 else S (index_of a dims')
  end.

(** [dims] names every axis [0 .. n-1] exactly once. *)
Definition is_perm (dims : list nat) (n : nat) : bool :=
  (length dims =? n) &&
  forallb (fun a => existsb (Nat.eqb a) dims) (seq 0 n).

(** Shape of [t.permute(dims)]: axis [k] of the result is axis [dims[k]]
    of [t]. *)
Definition permute_shape (dims s : list nat) : list nat :=
  map (fun k => nth k s 0) dims.

(** The index into [t] that [t.permute(dims)] reads at index [j]:
    component [dims[k]] of the source index is [j[k]]. *)
Definition source_index (dims j : list nat) : list nat :=
  map (fun a => nth (index_of a dims) j 0) (seq 0 (length dims)).

(** Elements of [l] at the positions [idxs]. *)
Definition take_at {A : Type} (l : list A) (idxs : list nat) : list A :=
  match l with
  | [] => []
  | d :: _ => map (fun i => nth i l d) idxs
  end.

(** [t.permute(dims)], laid out contiguously. *)
Definition permute {A : Type} (t : tensor A) (dims : list nat) : result (tensor A) :=
  if is_perm dims (length (shape t)) then
    let s' := permute_shape dims (shape t) in
    Ok (mkTensor s'
          (take_at (data t)
             (map (fun j => ravel (shape t) (source_index dims j)) (indices s'))))
  else Raise RuntimeError.

(** The elements of [t.permute(dims)] for [t] of shape [s]. *)
Definition permute_data {A : Type} (s dims : list nat) (l : list A) : list A :=
  take_at l (map (fun j => ravel s (source_index dims j))
                 (indices (permute_shape dims s))).

(** ** Patch codec *)

(** [patchify(imgs, patch_size)].  [H % patch_size] is evaluated first, so
    a zero patch size raises [ZeroDivisionError] before the [assert]. *)
Definition patchify {A : Type} (imgs : tensor A) (patch_size : nat)
  : result (tensor A) :=
  match shape imgs with
  | [B; C; H; W] =>
      if patch_size =? 0 then Raise ZeroDivisionError
      else if (H mod patch_size =? 0) && (W mod patch_size =? 0) then
        let h := H / patch_size in
        let w := W / patch_size in
        patches <- reshape imgs [B; C; h; patch_size; w; patch_size] ;;
        patches <- permute patches [0; 2; 4; 3; 5; 1] ;;
        reshape patches [B; h * w; patch_size * patch_size * C]
      else Raise AssertionError
  | _ => Raise ValueError
  end.

(** [unpatchify(patches, patch_size)].  [int(N**0.5)] is the integer
    square root of [N]: the float square root is exact on perfect
    squares and stays below the next integer for every patch count a
    tensor can hold.  [.contiguous()] does not change the layout used
    here. *)
Definition unpatchify {A : Type} (patches : tensor A) (patch_size : nat)
  : result (tensor A) :=
  match shape patches with
  | [B; N; D] =>
      let h := Nat.sqrt N in
      let w := h in
      if patch_size * patch_size =? 0 then Raise ZeroDivisionError
      else
        let C := D / (patch_size * patch_size) in
        patches <- reshape patches [B; h; w; patch_size; patch_size; C] ;;
        patches <- permute patches [0; 5; 1; 3; 2; 4] ;;
        reshape patches [B; C; h * patch_size; w * patch_size]
  | _ => Raise ValueError
  end.

(** ** IEEE arithmetic *)

(** Elements of a float32 tensor. *)
Definition f32 : Type := spec_float.

(** A Python float. *)
Definition f64 : Type := spec_float.

Module F32.
Definition prec : Z := 24.
Definition emax : Z := 128.
Definition zero : f32 := S754_zero false.
Definition one : f32 := S754_finite false 8388608 (-23).
Definition of_nat (n : nat) : f32 := binary_normalize prec emax (Z.of_nat n) 0 false.
Definition add : f32 -> f32 -> f32 := SFadd prec emax.
Definition sub : f32 -> f32 -> f32 := SFsub prec emax.
Definition mul : f32 -> f32 -> f32 := SFmul prec emax.
Definition div : f32 -> f32 -> f32 := SFdiv prec emax.
Definition eqb : f32 -> f32 -> bool := SFeqb.
Definition leb : f32 -> f32 -> bool := SFleb.
End F32.

Module F64.
Definition prec : Z := 53.
Definition emax : Z := 1024.
Definition zero : f64 := S754_zero false.
Definition one : f64 := S754_finite false 4503599627370496 (-52).
Definition of_Z (z : Z) : f64 := binary_normalize prec emax z 0 false.
Definition sub : f64 -> f64 -> f64 := SFsub prec emax.
Definition mul : f64 -> f64 -> f64 := SFmul prec emax.
Definition div : f64 -> f64 -> f64 := SFdiv prec emax.
End F64.

(** [x] is a number: neither NaN nor an infinity. *)
Definition is_finite (x : spec_float) : bool :=
  match x with
  | S754_zero _ | S754_finite _ _ _ => true
  | S754_infinity _ | S754_nan => false
  end.

(** [x] is [+0.0] or [-0.0]. *)
Definition is_zero (x : spec_float) : bool :=
  match x with
  | S754_zero _ => true
  | _ => false
  end.

(** [x] is NaN. *)
Definition is_nan (x : spec_float) : bool :=
  match x with
  | S754_nan => true
  | _ => false
  end.

(** [float(n)] for a Python int, as done by [n * x] with a float [x]. *)
Definition py_float_of_int (n : Z) : result f64 :=
  match F64.of_Z n with
  | S754_infinity _ => Raise OverflowError
  | x => Ok x
  end.

(** [int(x)] for a Python float: truncation toward zero. *)
Definition py_int (x : f64) : result Z :=
  match x with
  | S754_nan => Raise ValueError
  | S754_infinity _ => Raise OverflowError
  | S754_zero _ => Ok 0%Z
  | S754_finite s m e => Ok (cond_Zopp s (Z.shiftl (Zpos m) e))
  end.

(** Number of elements of [l[:k]] when [l] has [n] elements. *)
Definition slice_stop (k : Z) (n : nat) : nat :=
  if (k <? 0)%Z then Z.to_nat (Z.max 0 (Z.of_nat n + k))
  else Nat.min (Z.to_nat k) n.

(** ** Masking policy *)

(** [x.argsort()] along a row: the positions of the keys in ascending
    order of key.  Keys are sorted by insertion, equal keys keeping
    their order. *)
Section Argsort.
Variable K : Type.
Variable leb : K -> K -> bool.

Fixpoint insert_key (x : K * nat) (l : list (K * nat)) : list (K * nat) :=
  match l with
  | [] => [x]
  | y :: l' => if leb (fst x) (fst y) then x :: l else y :: insert_key x l'
  end.

Definition sort_keys (l : list (K * nat)) : list (K * nat) :=
  fold_right insert_key [] l.

Definition argsort (keys : list K) : list nat :=
  map snd (sort_keys (combine keys (seq 0 (length keys)))).
End Argsort.

Arguments insert_key {K} leb x l.
Arguments sort_keys {K} leb l.
Arguments argsort {K} leb keys.

(** [l] with position [j] set to [x]. *)
Fixpoint update {A : Type} (j : nat) (x : A) (l : list A) : list A :=
  match l, j with
  | [], _ => []
  | _ :: l', 0 => x :: l'
  | y :: l', S j' => y :: update j' x l'
  end.

(** [dst[ids] = src[ids]] on one row.  The positions come from
    [argsort], so they are positions of the row. *)
Definition index_put {A : Type} (dst src : list A) (ids : list nat) : list A :=
  fold_left
    (fun m j => match nth_error src j with
                | Some x => update j x m
                | None => m
                end)
    ids dst.

(** One row of [torch.gather(mask, dim=1, index=ids_restore)]. *)
Definition gather_row (row : list f32) (index : list nat) : list f32 :=
  map (fun i => nth i row F32.one) index.

(** A row of [torch.ones(B, N)] after [mask[:, :len_keep] = 0]. *)
Definition mask_row (N : nat) (len_keep : Z) : list f32 :=
  repeat F32.zero (slice_stop len_keep N)
  ++ repeat F32.one (N - slice_stop len_keep N).

(** [torch.zeros_like(patches)]. *)
Definition zeros_like (patches : list (list (list f32))) : list (list (list f32)) :=
  map (map (map (fun _ => F32.zero))) patches.

(** The [N] of [B, N, D = patches.shape], read off the first image.  An
    empty batch has no image to read it from; its results are empty
    whatever [N] is. *)
Definition num_patches {A : Type} (patches : list (list A)) : nat :=
  match patches with
  | [] => 0
  | row :: _ => length row
  end.

(** [len_keep = int(N * (1 - mask_ratio))]. *)
Definition len_keep (N : nat) (mask_ratio : f64) : result Z :=
  n <- py_float_of_int (Z.of_nat N) ;;
  py_int (F64.mul n (F64.sub F64.one mask_ratio)).





(** The body of [random_masking] once [noise = torch.rand(B, N)] has
    been drawn. *)
Definition random_masking_with (noise : list (list f32))
    (patches : list (list (list f32))) (mask_ratio : f64)
  : result (list (list (list f32)) * list (list f32)) :=
  let N := num_patches patches in
  k <- len_keep N mask_ratio ;;
  let ids_shuffle := map (argsort F32.leb) noise in
  let ids_restore := map (argsort Nat.leb) ids_shuffle in
  let ids_keep := map (firstn (slice_stop k N)) ids_shuffle in
  let mask := map (gather_row (mask_row N k)) ids_restore in
  let masked :=
    map (fun '(row, ids, zeros) => index_put zeros row ids)
        (combine (combine patches ids_keep) (zeros_like patches)) in
  Ok (masked, mask).

(** The default [mask_ratio=0.75] of the signature. *)
Definition mask_ratio_default : f64 := F64.div (F64.of_Z 3) (F64.of_Z 4).

(** [random_masking(patches, mask_ratio)]: the noise is drawn from the
    default generator of the process, the one [seed_everything] seeds
    with [torch.manual_seed]. *)
Section DefaultGenerator.
Variable generator : Type.
(** [torch.rand(B, N)]: a [B] by [N] tensor and the advanced state. *)
Variable torch_rand : nat -> nat -> generator -> list (list f32) * generator.
(** [torch.manual_seed(seed)]. *)
Variable manual_seed : Z -> generator.

Definition seed_everything (seed : Z) (_ : generator) : generator :=
  manual_seed seed.

Definition random_masking (patches : list (list (list f32))) (mask_ratio : f64)
    (g : generator)
  : result (list (list (list f32)) * list (list f32)) * generator :=
  match len_keep (num_patches patches) mask_ratio with
  | Raise e => (Raise e, g)
  | Ok _ =>
      let '(noise, g') := torch_rand (length patches) (num_patches patches) g in
      (random_masking_with noise patches mask_ratio, g')
  end.

(** A call of [random_masking].  The signature is
    [def random_masking(patches, mask_ratio=0.75)]: a call may leave
    [mask_ratio] out, and for any further argument, such as
    [generator=...], Python raises [TypeError] before the body runs. *)
Definition random_masking_call (patches : list (list (list f32)))
    (mask_ratio : option f64) (generator_arg : option generator)
    (g : generator)
  : result (list (list (list f32)) * list (list f32)) * generator :=
  match generator_arg with
  | Some _ => (Raise TypeError, g)
  | None =>
      random_masking patches
        (match mask_ratio with
         | Some r => r
         | None => mask_ratio_default
         end) g
  end.
End DefaultGenerator.

Arguments seed_everything {generator} manual_seed seed _.
Arguments random_masking {generator} torch_rand patches mask_ratio g.
Arguments random_masking_call {generator} torch_rand patches mask_ratio
  generator_arg g.

(** A small counter-based generator, used to run [random_masking]. *)
Definition counter_rand (B N : nat) (g : nat) : list (list f32) * nat :=
  (map (fun b => map (fun n => F32.div (F32.of_nat (((g + b * N + n) * 5) mod 8))
                                       (F32.of_nat 8))
                     (seq 0 N))
       (seq 0 B),
   g + B * N).

(** ** Masked loss *)

(** [x.sum()] with the elements added from left to right in row-major
    order, starting from [0.0]. *)
Definition fsum (l : list f32) : f32 := fold_left F32.add l F32.zero.

(** [((o - r) ** 2).mean(dim=-1)] for one patch. *)
Definition patch_error (o r : list f32) : f32 :=
  F32.div
    (fsum (map (fun '(x, y) => F32.mul (F32.sub x y) (F32.sub x y)) (combine o r)))
    (F32.of_nat (length o)).

(** Two tensors have the same [B, N, D] shape. *)
Definition same_shape3 {A : Type} (a b : list (list (list A))) : bool :=
  (length a =? length b) &&
  forallb (fun '(x, y) =>
             (length x =? length y) &&
             forallb (fun '(u, v) => length u =? length v) (combine x y))
          (combine a b).

(** A [B, N] tensor goes with a [B, N, D] tensor. *)
Definition same_shape2 {A C : Type} (a : list (list A)) (m : list (list C)) : bool :=
  (length a =? length m) &&
  forallb (fun '(x, y) => length x =? length y) (combine a m).

(** [compute_loss(original, reconstructed, mask)] on arguments of the
    shapes of its docstring; torch raises on shapes that do not go
    together (broadcasting of unequal shapes is not part of the model).
    The sums are taken from left to right. *)
Definition compute_loss (original reconstructed : list (list (list f32)))
    (mask : list (list f32)) : result f32 :=
  if same_shape3 original reconstructed && same_shape2 original mask then
    let loss :=
      map (fun '(o, r) => map (fun '(x, y) => patch_error x y) (combine o r))
          (combine original reconstructed) in
    let weighted :=
      map (fun '(l, m) => map (fun '(e, w) => F32.mul e w) (combine l m))
          (combine loss mask) in
    Ok (F32.div (fsum (concat weighted)) (fsum (concat mask)))
  else Raise RuntimeError.

(** ** The masked loss with the reductions of torch *)

(** [sums_to l s]: [s] is a binary32 sum of the elements of [l] as a
    reduction kernel may compute it.  The elements are taken in any
    order and in any grouping, accumulators start from [0.0], and every
    addition is rounded. *)
Inductive sums_to : list f32 -> f32 -> Prop :=
| sums_nil : sums_to [] F32.zero
| sums_one (x : f32) : sums_to [x] x
| sums_app (l1 l2 : list f32) (s1 s2 : f32) :
    sums_to l1 s1 -> sums_to l2 s2 -> sums_to (l1 ++ l2) (F32.add s1 s2)
| sums_perm (l l' : list f32) (s : f32) :
    Permutation l l' -> sums_to l s -> sums_to l' s.

(** [means_to l m]: [m] is a mean of [l], a sum of [l] divided by the
    count. *)
Definition means_to (l : list f32) (m : f32) : Prop :=
  exists s, sums_to l s /\ m = F32.div s (F32.of_nat (length l)).

(** The mean that goes with [fsum]. *)
Definition fmean (l : list f32) : f32 :=
  F32.div (fsum l) (F32.of_nat (length l)).

(** The right-to-left sum, another order. *)
Definition fsum_right (l : list f32) : f32 := fold_right F32.add F32.zero l.

Definition fmean_right (l : list f32) : f32 :=
  F32.div (fsum_right l) (F32.of_nat (length l)).

Section Reductions.
(** [x.mean(dim=-1)] on one patch and [x.sum()] on a [B, N] tensor. *)
Variable row_mean : list f32 -> f32.
Variable total : list f32 -> f32.

(** [((o - r) ** 2).mean(dim=-1)] for one patch. *)
Definition patch_error_with (o r : list f32) : f32 :=
  row_mean
    (map (fun '(x, y) => F32.mul (F32.sub x y) (F32.sub x y)) (combine o r)).

(** [compute_loss(original, reconstructed, mask)] with these
    reductions, on arguments of the shapes of its docstring. *)
Definition compute_loss_with (original reconstructed : list (list (list f32)))
    (mask : list (list f32)) : result f32 :=
  if same_shape3 original reconstructed && same_shape2 original mask then
    let loss :=
      map (fun '(o, r) =>
             map (fun '(x, y) => patch_error_with x y) (combine o r))
          (combine original reconstructed) in
    let weighted :=
      map (fun '(l, m) => map (fun '(e, w) => F32.mul e w) (combine l m))
          (combine loss mask) in
    Ok (F32.div (total (concat weighted)) (total (concat mask)))
  else Raise RuntimeError.
End Reductions.

(** ** Shapes and per-row views used in the statements *)

(** [patches] is a [B, N, D] tensor with [B = length patches] and
    [N = num_patches patches]. *)
Definition wf_patches (D : nat) (patches : list (list (list f32))) : Prop :=
  Forall (fun row => length row = num_patches patches /\
                     Forall (fun p => length p = D) row) patches.

(** [noise] is the [B, N] tensor [torch.rand(B, N)] drawn for [patches]. *)
Definition wf_noise (patches : list (list (list f32))) (noise : list (list f32))
  : Prop :=
  length noise = length patches /\
  Forall (fun row => length row = num_patches patches) noise.

(** Number of hidden patches of a mask row: entries equal to [1]. *)
Definition count_hidden (row : list f32) : nat :=
  length (filter (fun x => F32.eqb x F32.one) row).

(** The mask row computed from one row of noise. *)
Definition row_mask (N : nat) (k : Z) (noise_row : list f32) : list f32 :=
  gather_row (mask_row N k) (argsort Nat.leb (argsort F32.leb noise_row)).

(** The masked row computed from one row of noise and of patches. *)
Definition row_masked (N : nat) (k : Z) (noise_row : list f32)
    (patch_row : list (list f32)) : list (list f32) :=
  index_put (map (map (fun _ => F32.zero)) patch_row) patch_row
            (firstn (slice_stop k N) (argsort F32.leb noise_row)).

(** [x] is NaN or carries the sign bit [s]. *)
Definition sign_is (s : bool) (x : spec_float) : Prop :=
  match x with
  | S754_nan => True
  | S754_zero s' | S754_infinity s' | S754_finite s' _ _ => s' = s
  end.

(** [x] is a zero or NaN: what a product with a zero mask entry can be. *)
Definition zero_or_nan (x : spec_float) : Prop :=
  is_zero x = true \/ x = S754_nan.

(** The [B, N] surface [loss * mask] of [compute_loss]. *)
Definition weighted_errors (original reconstructed : list (list (list f32)))
    (mask : list (list f32)) : list (list f32) :=
  map (fun '(l, m) => map (fun '(e, w) => F32.mul e w) (combine l m))
      (combine
         (map (fun '(o, r) => map (fun '(x, y) => patch_error x y) (combine o r))
              (combine original reconstructed))
         mask).

(** [t] has shape [B, N, D]. *)
Definition has_shape3 {A : Type} (B N D : nat) (t : list (list (list A))) : Prop :=
  length t = B /\
  Forall (fun row => length row = N /\ Forall (fun p => length p = D) row) t.

(** [m] has shape [B, N]. *)
Definition has_shape2 {A : Type} (B N : nat) (m : list (list A)) : Prop :=
  length m = B /\ Forall (fun row => length row = N) m.

(** ** The masked loss as the specification words it *)

(** Step 1: the squared error of patch [n] of image [b], mean-reduced
    over the patch dimension [D]. *)
Definition error_surface (D : nat) (original reconstructed : list (list (list f32)))
    (b n : nat) : f32 :=
  F32.div
    (fsum (map (fun d =>
                  let x := nth d (nth n (nth b original []) []) F32.zero in
                  let y := nth d (nth n (nth b reconstructed []) []) F32.zero in
                  F32.mul (F32.sub x y) (F32.sub x y))
               (seq 0 D)))
    (F32.of_nat D).

(** Steps 2 and 3: the surface times the mask, summed over all [b, n],
    divided by the sum of the mask. *)
Definition masked_loss_spec (B N D : nat)
    (original reconstructed : list (list (list f32))) (mask : list (list f32))
  : f32 :=
  F32.div
    (fsum (flat_map
             (fun b => map (fun n =>
                              F32.mul (error_surface D original reconstructed b n)
                                      (nth n (nth b mask []) F32.zero))
                           (seq 0 N))
             (seq 0 B)))
    (fsum (flat_map
             (fun b => map (fun n => nth n (nth b mask []) F32.zero) (seq 0 N))
             (seq 0 B))).

(** The same two steps with the reductions as arguments. *)
Section WordedReductions.
Variable row_mean : list f32 -> f32.
Variable total : list f32 -> f32.

Definition error_surface_with (D : nat)
    (original reconstructed : list (list (list f32))) (b n : nat) : f32 :=
  row_mean
    (map (fun d =>
            let x := nth d (nth n (nth b original []) []) F32.zero in
            let y := nth d (nth n (nth b reconstructed []) []) F32.zero in
            F32.mul (F32.sub x y) (F32.sub x y))
         (seq 0 D)).

Definition masked_loss_spec_with (B N D : nat)
    (original reconstructed : list (list (list f32))) (mask : list (list f32))
  : f32 :=
  F32.div
    (total (flat_map
              (fun b =>
                 map (fun n =>
                        F32.mul (error_surface_with D original reconstructed b n)
                                (nth n (nth b mask []) F32.zero))
                     (seq 0 N))
              (seq 0 B)))
    (total (flat_map
              (fun b => map (fun n => nth n (nth b mask []) F32.zero) (seq 0 N))
              (seq 0 B))).
End WordedReductions.

(** The mask component of what [random_masking] returns. *)
Definition mask_of (out : result (list (list (list f32)) * list (list f32)))
  : result (list (list f32)) :=
  match out with
  | Ok (_, mask) => Ok mask
  | Raise e => Raise e
  end.

(** ** Sample inputs *)

(** The ratios [0.5], [0.75], [0.9] and [0.1 + 0.2] as Python computes them. *)
Definition ratio_half : f64 := F64.div (F64.of_Z 1) (F64.of_Z 2).
Definition ratio_notebook : f64 := F64.div (F64.of_Z 3) (F64.of_Z 4).
Definition ratio_nine_tenths : f64 := F64.div (F64.of_Z 9) (F64.of_Z 10).
Definition ratio_three_tenths : f64 :=
  SFadd F64.prec F64.emax (F64.div (F64.of_Z 1) (F64.of_Z 10))
                          (F64.div (F64.of_Z 2) (F64.of_Z 10)).

(** One image of four patches of one value each. *)
Definition sample_patches : list (list (list f32)) :=
  [[[F32.of_nat 1]; [F32.of_nat 2]; [F32.of_nat 3]; [F32.of_nat 4]]].

(** Two reconstructions that agree on patches 1 and 3 only. *)
Definition sample_rec1 : list (list (list f32)) :=
  [[[F32.of_nat 7]; [F32.of_nat 2]; [F32.of_nat 9]; [F32.of_nat 5]]].
Definition sample_rec2 : list (list (list f32)) :=
  [[[F32.of_nat 1]; [F32.of_nat 2]; [F32.of_nat 3]; [F32.of_nat 5]]].

(** A mask hiding patches 1 and 3. *)
Definition sample_mask : list (list f32) :=
  [[F32.zero; F32.one; F32.zero; F32.one]].

(** The noise the counter generator draws for one image of four patches. *)
Definition sample_noise : list (list f32) := fst (counter_rand 1 4 0).

(** [2 ** 65], a binary32 number whose square overflows. *)
Definition f32_big : f32 := S754_finite false 8388608 42.


(** One patch of five values against zeros: the square of 4096 is
    [2 ** 24], where binary32 numbers are two apart. *)
Definition five_values : list (list (list f32)) :=
  [[[F32.of_nat 1; F32.of_nat 4096; F32.of_nat 1; F32.of_nat 1; F32.of_nat 1]]].
Definition five_zeros : list (list (list f32)) :=
  [[[F32.zero; F32.zero; F32.zero; F32.zero; F32.zero]]].

(** ** Views used in the further properties *)

(** [x] is [+inf] or a positive number whose exponent field is at least
    [e0]. *)
Definition pos_from (e0 : Z) (x : spec_float) : Prop :=
  match x with
  | S754_finite false _ e => (e0 <= e)%Z
  | S754_infinity false => True
  | _ => False
  end.

(** ** The two views of a patch sequence *)

(** [l] cut into [count] consecutive pieces of [n] elements. *)
Fixpoint chunks {A : Type} (n count : nat) (l : list A) : list (list A) :=
  match count with
  | 0 => []
  | S c => firstn n l :: chunks n c (skipn n l)
  end.

(** A [B, N, D] tensor in row-major layout, indexed as [t[b][n][d]]. *)
Definition rows_of {A : Type} (t : tensor A) : list (list (list A)) :=
  match shape t with
  | [B; N; D] => map (chunks D N) (chunks (N * D) B (data t))
  | _ => []
  end.

(** The row-major layout of a tensor given by its entries [t[b][n][d]]. *)
Definition tensor_of_rows {A : Type} (s : list nat) (rows : list (list (list A)))
  : tensor A :=
  mkTensor s (concat (map (@concat A) rows)).

(** ** The masked panel of [reconstruct_and_visualize] *)

(** [patchify] and [unpatchify] are called with their default
    [patch_size=4] there. *)
Definition patch_size_default : nat := 4.

(** [unpatchify(masked_patches)] for [patches = patchify(imgs)] and
    [masked_patches, patch_mask = random_masking(patches, mask_ratio)],
    together with [patch_mask]; the noise drawn is an input. *)
Definition masked_images (noise : list (list f32)) (imgs : tensor f32)
    (mask_ratio : f64) : result (tensor f32 * list (list f32)) :=
  patches <- patchify imgs patch_size_default ;;
  out <- random_masking_with noise (rows_of patches) mask_ratio ;;
  shown <- unpatchify (tensor_of_rows (shape patches) (fst out))
                      patch_size_default ;;
  Ok (shown, snd out).

(** ** Showing an image *)

(** A float32 value as a float64 (numpy's promotion, [loss.item()]): the
    same number in the wider format. *)
Definition f64_of_f32 (x : f32) : f64 :=
  match x with
  | S754_finite s m e => binary_round F64.prec F64.emax s m e
  | _ => x
  end.

(** The Python float written as the decimal [n / 10000]: both are the
    double nearest to that number. *)
Definition decimal4 (n : Z) : f64 := F64.div (F64.of_Z n) (F64.of_Z 10000).

(** [mean] and [std] of [imshow]. *)
Definition mean : list f64 := [decimal4 4914; decimal4 4822; decimal4 4465].
Definition std : list f64 := [decimal4 2023; decimal4 1994; decimal4 2010].

(** [a.transpose(axes)] of numpy: [permute], with numpy's exception. *)
Definition transpose {A : Type} (a : tensor A) (axes : list nat)
  : result (tensor A) :=
  match permute a axes with
  | Ok r => Ok r
  | Raise _ => Raise ValueError
  end.

(** [std * x + mean] on channel [c]. *)
Definition unnormalize_value (c : nat) (x : f64) : f64 :=
  SFadd F64.prec F64.emax
    (F64.mul (nth c std S754_nan) x) (nth c mean S754_nan).

(** [std * img + mean] for [img] of shape [H, W, C] and [std], [mean] of
    shape [(3,)]: numpy broadcasts along the last axis, which has to hold
    three channels, or one that is then repeated. *)
Definition unnormalize (img : tensor f64) : result (tensor f64) :=
  match shape img with
  | [H; W; 3] =>
      Ok (mkTensor [H; W; 3]
            (map (fun '(i, x) => unnormalize_value (i mod 3) x)
                 (combine (seq 0 (length (data img))) (data img))))
  | [H; W; 1] =>
      Ok (mkTensor [H; W; 3]
            (flat_map (fun x => map (fun c => unnormalize_value c x) [0; 1; 2])
                      (data img)))
  | _ => Raise ValueError
  end.

(** [np.clip(x, lo, hi)]: [min(max(x, lo), hi)], a NaN [x] staying NaN. *)
Definition np_clip (x lo hi : f64) : f64 :=
  let t := if is_nan x then x else if SFltb lo x then x else lo in
  if is_nan t then t else if SFltb t hi then t else hi.

(** [imshow(img)]: the array handed to [plt.imshow]. *)
Definition imshow (img : tensor f32) : result (tensor f64) :=
  t <- transpose img [1; 2; 0] ;;
  u <- unnormalize (mkTensor (shape t) (map f64_of_f32 (data t))) ;;
  Ok (mkTensor (shape u)
        (map (fun x => np_clip x (F64.of_Z 0) (F64.of_Z 1)) (data u))).

(** ** The loss of an epoch *)

(** [avg_loss] of the training loop from the batch losses [loss.item()]
    of the epoch, in order: [total_loss] starts at [0], every batch adds
    its loss, and the total is divided by [len(train_loader)], the number
    of batches. *)
Definition avg_loss (losses : list f32) : result f64 :=
  let total_loss :=
    fold_left (fun t l => SFadd F64.prec F64.emax t (f64_of_f32 l))
              losses F64.zero in
  match losses with
  | [] => Raise ZeroDivisionError
  | _ => n <- py_float_of_int (Z.of_nat (length losses)) ;;
         Ok (F64.div total_loss n)
  end.

(** ** Comparing floats *)

(** A key that orders the floats as [<=] does (NaN apart): the class,
    then the exponent field, then the mantissa, the last two negated for
    negative numbers. *)
Definition float_key (x : spec_float) : Z * Z * Z :=
  match x with
  | S754_infinity true => (-2, 0, 0)%Z
  | S754_finite true m e => (-1, - e, - Z.pos m)%Z
  | S754_zero _ => (0, 0, 0)%Z
  | S754_finite false m e => (1, e, Z.pos m)%Z
  | S754_infinity false => (2, 0, 0)%Z
  | S754_nan => (3, 0, 0)%Z
  end.

(** The lexicographic order on keys. *)
Definition key_le (a b : Z * Z * Z) : Prop :=
  let '(a1, a2, a3) := a in
  let '(b1, b2, b3) := b in
  (a1 < b1 \/ (a1 = b1 /\ (a2 < b2 \/ (a2 = b2 /\ a3 <= b3))))%Z.

(** ** One step of the training loop *)

(** The loss of one batch, steps 1 to 4 of the loop body: [patchify],
    [random_masking] with [mask_ratio=0.75], the forward pass and
    [compute_loss].  The forward pass of the network is a function
    [model]; the noise drawn is an input. *)
Definition train_step_loss
    (model : list (list (list f32)) -> list (list (list f32)))
    (noise : list (list f32)) (imgs : tensor f32) : result f32 :=
  patches <- patchify imgs patch_size_default ;;
  out <- random_masking_with noise (rows_of patches) ratio_notebook ;;
  compute_loss (rows_of patches) (model (fst out)) (snd out).

(** ** Further sample inputs *)

(** The ratio [1.5]. *)
Definition ratio_above_one : f64 := F64.div (F64.of_Z 3) (F64.of_Z 2).

(** One 8 by 8 image of one channel, with pixel values 0 to 63. *)
Definition sample_image : tensor f32 :=
  mkTensor [1; 1; 8; 8] (map F32.of_nat (seq 0 64)).

(** A 1 by 2 image of three channels: [0, 1], [-2, 3] and [+inf, 0]. *)
Definition sample_rgb : tensor f32 :=
  mkTensor [3; 1; 2]
    [F32.zero; F32.one; F32.sub F32.zero (F32.of_nat 2); F32.of_nat 3;
     S754_infinity false; F32.zero].

(** A reconstruction of [sample_patches] that is exact on the patches
    [sample_mask] hides (1 and 3) and wrong on the other two. *)
Definition sample_rec_hidden : list (list (list f32)) :=
  [[[F32.of_nat 7]; [F32.of_nat 2]; [F32.of_nat 9]; [F32.of_nat 4]]].

(** A reconstruction with a NaN in patch 0, which [sample_mask] leaves
    visible. *)
Definition sample_rec_nan : list (list (list f32)) :=
  [[[S754_nan]; [F32.of_nat 2]; [F32.of_nat 3]; [F32.of_nat 4]]].


(** * Proofs *)


(** ** Row-major indexing *)

Lemma map_add_seq (a m s : nat) :
  map (fun r => a + r) (seq s m) = seq (a + s) m.
Proof.
  revert s; induction m as [|m IH]; intros s; simpl; [reflexivity|].
  rewrite IH. f_equal. f_equal. lia.
Qed.

Lemma flat_map_seq_blocks (m d a : nat) :
  flat_map (fun i => seq (i * m) m) (seq a d) = seq (a * m) (d * m).
Proof.
  revert a; induction d as [|d IH]; intros a; simpl; [reflexivity|].
  rewrite IH, seq_app. f_equal. f_equal. lia.
Qed.

Lemma map_ravel_indices (s : list nat) :
  map (ravel s) (indices s) = seq 0 (numel s).
Proof.
  induction s as [|d s IH]; simpl; [reflexivity|].
  rewrite flat_map_concat_map, concat_map, map_map, <- flat_map_concat_map.
  erewrite flat_map_ext.
  - apply (flat_map_seq_blocks (numel s) d 0).
  - intros i. rewrite map_map. simpl.
    rewrite <- (map_map (ravel s) (fun r => i * numel s + r)), IH.
    rewrite map_add_seq. f_equal. lia.
Qed.

Lemma length_indices (s : list nat) : length (indices s) = numel s.
Proof.
  rewrite <- (length_map (ravel s)), map_ravel_indices. apply length_seq.
Qed.

Lemma in_indices (s j : list nat) :
  In j (indices s) <-> Forall2 lt j s.
Proof.
  revert j; induction s as [|d s IH]; intros j; simpl.
  - split.
    + intros [<-|[]]. constructor.
    + intros H; inversion H. now left.
  - rewrite in_flat_map. split.
    + intros (i & Hi & Hj). apply in_seq in Hi. apply in_map_iff in Hj.
      destruct Hj as (j' & <- & Hj'). constructor; [lia | now apply IH].
    + intros H; inversion H as [|i d' j' s' Hi Hj']; subst.
      exists i. split; [apply in_seq; lia|]. apply in_map. now apply IH.
Qed.

Lemma ravel_lt [s j : list nat] :
  Forall2 lt j s -> ravel s j < numel s.
Proof.
  intros H; induction H as [|i d j s Hi Hj IH]; simpl; [lia|]. nia.
Qed.

(** Reading the list of all indices at the offset of [j] gives [j]. *)
Lemma nth_ravel_indices (s j d : list nat) :
  Forall2 lt j s -> nth (ravel s j) (indices s) d = j.
Proof.
  intros H.
  assert (Hlt := ravel_lt H).
  assert (In (nth (ravel s j) (indices s) d) (indices s)) as Hin
    by (apply nth_In; now rewrite length_indices).
  apply in_indices in Hin.
  assert (ravel s (nth (ravel s j) (indices s) d) = ravel s j) as Heq.
  { rewrite <- (map_nth (ravel s)), map_ravel_indices.
    rewrite nth_indep with (d' := 0) by (now rewrite length_seq).
    now rewrite seq_nth. }
  clear Hlt. revert Hin Heq. generalize (nth (ravel s j) (indices s) d) as j'.
  induction H as [|i d' j s Hi Hj IH]; intros j' Hj' Heq.
  - now inversion Hj'.
  - inversion Hj' as [|i' d'' j'' s'' Hi' Hj'']; subst. simpl in Heq.
    assert (Hr := ravel_lt Hj). assert (Hr' := ravel_lt Hj'').
    assert (i' = i) as -> by nia.
    f_equal. apply IH; [assumption | lia].
Qed.

Lemma nth_ravel_map {A : Type} (f : list nat -> A) (s j : list nat) (d : A) :
  Forall2 lt j s -> nth (ravel s j) (map f (indices s)) d = f j.
Proof.
  intros H.
  rewrite nth_indep with (d' := f []) by
    (rewrite length_map, length_indices; now apply ravel_lt).
  rewrite map_nth. f_equal. now apply nth_ravel_indices.
Qed.

Lemma take_at_seq {A : Type} (l : list A) :
  take_at l (seq 0 (length l)) = l.
Proof.
  destruct l as [|d l]; [reflexivity|]. unfold take_at.
  apply nth_ext with (d := d) (d' := d).
  - now rewrite length_map, length_seq.
  - intros n Hn. rewrite length_map, length_seq in Hn.
    rewrite nth_indep with (d' := nth 0 (d :: l) d) by
      (now rewrite length_map, length_seq).
    rewrite (map_nth (fun i => nth i (d :: l) d)).
    now rewrite seq_nth.
Qed.

Lemma length_take_at {A : Type} (l : list A) (idxs : list nat) :
  l <> [] -> length (take_at l idxs) = length idxs.
Proof.
  destruct l; [congruence|]. intros _. apply length_map.
Qed.

Lemma nth_take_at {A : Type} (l : list A) (idxs : list nat) (n : nat) (d : A) :
  n < length idxs -> nth n idxs 0 < length l ->
  nth n (take_at l idxs) d = nth (nth n idxs 0) l d.
Proof.
  intros Hn Hl. destruct l as [|x l]; [simpl in Hl; lia|]. unfold take_at.
  rewrite nth_indep with (d' := nth 0 (x :: l) x) by (now rewrite length_map).
  rewrite (map_nth (fun i => nth i (x :: l) x)).
  apply nth_indep. assumption.
Qed.

(** ** [permute] and its inverse *)

Lemma permute_Ok {A : Type} (t : tensor A) (dims : list nat) :
  is_perm dims (length (shape t)) = true ->
  permute t dims
  = Ok (mkTensor (permute_shape dims (shape t))
                 (permute_data (shape t) dims (data t))).
Proof. intros H. unfold permute. now rewrite H. Qed.

Lemma length_permute_data {A : Type} (s dims : list nat) (l : list A) :
  length l = numel s -> numel (permute_shape dims s) = numel s ->
  length (permute_data s dims l) = length l.
Proof.
  intros Hl Hn. unfold permute_data. destruct l as [|x l]; [reflexivity|].
  rewrite length_take_at by discriminate.
  now rewrite length_map, length_indices, Hn.
Qed.

(** Permuting by [d1] and then by [d2] is the identity when [d2] sends
    every index back where [d1] took it from. *)
Lemma permute_data_inverse {A : Type} (s d1 d2 : list nat) (l : list A) :
  length l = numel s ->
  permute_shape d2 (permute_shape d1 s) = s ->
  numel (permute_shape d1 s) = numel s ->
  (forall j, Forall2 lt j s ->
     Forall2 lt (source_index d2 j) (permute_shape d1 s) /\
     source_index d1 (source_index d2 j) = j) ->
  permute_data (permute_shape d1 s) d2 (permute_data s d1 l) = l.
Proof.
  intros Hl Hs Hn Hinv.
  assert (Hl1 := length_permute_data s d1 l Hl Hn).
  destruct l as [|x l]; [reflexivity|].
  set (l0 := x :: l) in *. set (l1 := permute_data s d1 l0) in *.
  assert (l1 <> []) as Hne by (intros E; rewrite E in Hl1; discriminate).
  unfold permute_data at 1. rewrite Hs.
  apply nth_ext with (d := x) (d' := x).
  - rewrite length_take_at by assumption.
    now rewrite length_map, length_indices.
  - intros n Hn'. rewrite length_take_at in Hn' by assumption.
    rewrite length_map, length_indices in Hn'.
    set (j := nth n (indices s) []).
    assert (Forall2 lt j s) as Hj
      by (apply in_indices, nth_In; now rewrite length_indices).
    assert (ravel s j = n) as Hrj.
    { unfold j. rewrite <- (map_nth (ravel s)), map_ravel_indices.
      rewrite nth_indep with (d' := 0) by (now rewrite length_seq).
      now rewrite seq_nth. }
    destruct (Hinv j Hj) as [Hj1 Hback].
    pose proof (nth_ravel_map
                  (fun j => ravel (permute_shape d1 s) (source_index d2 j))
                  s j 0 Hj) as Hp2.
    cbv beta in Hp2. rewrite Hrj in Hp2.
    rewrite nth_take_at; rewrite ?Hp2.
    + unfold l1, permute_data. rewrite nth_take_at.
      * rewrite nth_ravel_map by assumption. now rewrite Hback, Hrj.
      * rewrite length_map, length_indices. now apply ravel_lt.
      * rewrite nth_ravel_map by assumption. rewrite Hback, Hrj.
        now rewrite Hl.
    + now rewrite length_map, length_indices.
    + rewrite Hl1, Hl, <- Hn. now apply ravel_lt.
Qed.

(** The two axis orders of the codec undo each other. *)
Lemma codec_permute_inverse {A : Type} (B C h p w q : nat) (l : list A) :
  length l = numel [B; C; h; p; w; q] ->
  permute_data [B; h; w; p; q; C] [0; 5; 1; 3; 2; 4]
    (permute_data [B; C; h; p; w; q] [0; 2; 4; 3; 5; 1] l) = l.
Proof.
  intros Hl.
  apply (permute_data_inverse [B; C; h; p; w; q] [0; 2; 4; 3; 5; 1]
           [0; 5; 1; 3; 2; 4] l Hl); try reflexivity.
  - simpl. lia.
  - intros j Hj.
    repeat match goal with
           | H : Forall2 lt _ (_ :: _) |- _ => inversion H; subst; clear H
           | H : Forall2 lt _ [] |- _ => inversion H; subst; clear H
           end.
    simpl. split; [|reflexivity].
    repeat constructor; assumption.
Qed.

(** ** [patchify] and [unpatchify] *)

Lemma reshape_Ok {A : Type} (t : tensor A) (s : list nat) :
  numel s = length (data t) -> reshape t s = Ok (mkTensor s (data t)).
Proof. intros H. unfold reshape. now rewrite (proj2 (Nat.eqb_eq _ _) H). Qed.

Lemma reshape_Raise {A : Type} (t : tensor A) (s : list nat) :
  numel s <> length (data t) -> reshape t s = Raise RuntimeError.
Proof. intros H. unfold reshape. now rewrite (proj2 (Nat.eqb_neq _ _) H). Qed.

(** What [patchify] returns on a divisible image batch. *)
Lemma patchify_Ok {A : Type} (imgs : tensor A) (B C H W P : nat) :
  0 < P -> wf_tensor imgs -> shape imgs = [B; C; H; W] ->
  H mod P = 0 -> W mod P = 0 ->
  patchify imgs P
  = Ok (mkTensor [B; (H / P) * (W / P); P * P * C]
          (permute_data [B; C; H / P; P; W / P; P] [0; 2; 4; 3; 5; 1]
             (data imgs))).
Proof.
  intros HP Hwf Hs HH HW. unfold wf_tensor in Hwf. rewrite Hs in Hwf.
  assert (H = P * (H / P)) as EH by (now apply Nat.Div0.div_exact).
  assert (W = P * (W / P)) as EW by (now apply Nat.Div0.div_exact).
  set (h := H / P) in *. set (w := W / P) in *.
  assert (numel [B; C; h; P; w; P] = length (data imgs)) as Hn.
  { rewrite Hwf. simpl. rewrite EH, EW. nia. }
  unfold patchify. rewrite Hs.
  destruct (Nat.eqb_spec P 0) as [|_]; [lia|].
  rewrite HH, HW. cbn [Nat.eqb andb]. fold h w.
  rewrite (reshape_Ok _ _ Hn). cbn [bind].
  rewrite permute_Ok by reflexivity. cbn [bind shape data].
  apply reshape_Ok. cbn [data].
  rewrite length_permute_data; [| now rewrite Hn | simpl; lia].
  rewrite <- Hn. simpl. nia.
Qed.

(** What [unpatchify] returns on a square grid of whole patches. *)
Lemma unpatchify_Ok {A : Type} (patches : tensor A) (B C h P : nat) :
  0 < P -> wf_tensor patches -> shape patches = [B; h * h; P * P * C] ->
  unpatchify patches P
  = Ok (mkTensor [B; C; h * P; h * P]
          (permute_data [B; h; h; P; P; C] [0; 5; 1; 3; 2; 4] (data patches))).
Proof.
  intros HP Hwf Hs. unfold wf_tensor in Hwf. rewrite Hs in Hwf.
  assert (numel [B; h; h; P; P; C] = length (data patches)) as Hn.
  { rewrite Hwf. simpl. nia. }
  unfold unpatchify. rewrite Hs.
  destruct (Nat.eqb_spec (P * P) 0) as [|_]; [nia|].
  rewrite Nat.sqrt_square.
  replace (P * P * C / (P * P)) with C
    by (rewrite Nat.mul_comm, Nat.div_mul; [reflexivity | nia]).
  rewrite (reshape_Ok _ _ Hn). cbn [bind].
  rewrite permute_Ok by reflexivity. cbn [bind shape data].
  apply reshape_Ok. cbn [data].
  rewrite length_permute_data; [| now rewrite Hn | simpl; lia].
  rewrite <- Hn. simpl. nia.
Qed.

(** C1 (amended): for every image batch whose height and width are equal
    and a multiple of the patch size [P >= 1], decoding the encoding
    gives back the batch exactly, for any batch size and channel count. *)
Theorem patchify_unpatchify_square {A : Type} (imgs : tensor A) (B C H P : nat) :
  0 < P -> wf_tensor imgs -> shape imgs = [B; C; H; H] -> H mod P = 0 ->
  exists patches,
    patchify imgs P = Ok patches /\ unpatchify patches P = Ok imgs.
Proof.
  intros HP Hwf Hs HH.
  rewrite (patchify_Ok imgs B C H H P HP Hwf Hs HH HH).
  eexists; split; [reflexivity|].
  assert (H = P * (H / P)) as EH by (now apply Nat.Div0.div_exact).
  set (h := H / P) in *.
  assert (length (data imgs) = numel [B; C; h; P; h; P]) as Hl.
  { unfold wf_tensor in Hwf. rewrite Hwf, Hs. simpl. rewrite EH. nia. }
  rewrite (unpatchify_Ok _ B C h P); trivial.
  - cbn [data]. rewrite codec_permute_inverse by assumption.
    destruct imgs as [s d]. simpl in Hs |- *. subst s.
    do 2 f_equal. rewrite (Nat.mul_comm h P), <- EH. reflexivity.
  - unfold wf_tensor. cbn [data shape].
    rewrite length_permute_data; [| assumption | simpl; lia].
    rewrite Hl. simpl. nia.
Qed.

Lemma wf_permute_data {A : Type} (s dims s' : list nat) (l : list A) :
  length l = numel s -> numel (permute_shape dims s) = numel s ->
  numel s' = numel s ->
  wf_tensor (mkTensor s' (permute_data s dims l)).
Proof.
  intros Hl Hn Hs'. unfold wf_tensor. cbn [data shape].
  rewrite length_permute_data by assumption. congruence.
Qed.

(** C6: for a patch size [P >= 1], [patchify] raises (the failed [assert])
    at the call whenever the height or the width is not divisible by [P];
    when both are, it returns a [B, (H/P)*(W/P), P*P*C] patch sequence. *)
Theorem patchify_shape_check {A : Type} (imgs : tensor A) (B C H W P : nat) :
  0 < P -> wf_tensor imgs -> shape imgs = [B; C; H; W] ->
  (H mod P <> 0 \/ W mod P <> 0 -> patchify imgs P = Raise AssertionError) /\
  (H mod P = 0 /\ W mod P = 0 ->
   exists patches,
     patchify imgs P = Ok patches /\
     shape patches = [B; (H / P) * (W / P); P * P * C] /\
     wf_tensor patches).
Proof.
  intros HP Hwf Hs. split.
  - intros Hbad. unfold patchify. rewrite Hs.
    destruct (Nat.eqb_spec P 0) as [|_]; [lia|].
    destruct (Nat.eqb_spec (H mod P) 0) as [E1|_];
      destruct (Nat.eqb_spec (W mod P) 0) as [E2|_]; try reflexivity.
    destruct Hbad; contradiction.
  - intros [HH HW]. rewrite (patchify_Ok imgs B C H W P HP Hwf Hs HH HW).
    eexists; split; [reflexivity|]. split; [reflexivity|].
    assert (H = P * (H / P)) as EH by (now apply Nat.Div0.div_exact).
    assert (W = P * (W / P)) as EW by (now apply Nat.Div0.div_exact).
    unfold wf_tensor in Hwf. rewrite Hs in Hwf.
    apply wf_permute_data.
    + rewrite Hwf. simpl. rewrite EH at 1. rewrite EW at 1. nia.
    + simpl. lia.
    + simpl. nia.
Qed.

(** C8 (amended): for a patch size [P >= 1] and a patch sequence that is
    not empty ([B >= 1], [D >= 1]), [unpatchify] raises whenever the patch
    count [N] is not a perfect square; for [N = h*h] and [D = P*P*C] it
    returns a [B, C, h*P, h*P] image batch. *)
Theorem unpatchify_shape_check {A : Type} (patches : tensor A) (B N D P : nat) :
  0 < P -> wf_tensor patches -> shape patches = [B; N; D] ->
  (0 < B -> 0 < D -> (forall h, N <> h * h) ->
   unpatchify patches P = Raise RuntimeError) /\
  (forall h C, N = h * h -> D = P * P * C ->
   exists imgs,
     unpatchify patches P = Ok imgs /\
     shape imgs = [B; C; h * P; h * P] /\
     wf_tensor imgs).
Proof.
  intros HP Hwf Hs. split.
  - intros HB HD Hsq. unfold unpatchify. rewrite Hs.
    destruct (Nat.eqb_spec (P * P) 0) as [|_]; [nia|].
    rewrite reshape_Raise; [reflexivity|].
    unfold wf_tensor in Hwf. rewrite Hwf, Hs.
    pose proof (Nat.sqrt_spec N (Nat.le_0_l N)) as [Hlo _].
    pose proof (Hsq (Nat.sqrt N)) as Hne.
    pose proof (Nat.Div0.mul_div_le D (P * P)) as Hdiv.
    set (h := Nat.sqrt N) in *. set (C := D / (P * P)) in *.
    assert (h * h < N) as Hlt by lia.
    assert (h * h * (P * P * C) <= h * h * D) as H1
      by (apply Nat.mul_le_mono_l; assumption).
    assert (h * h * D < N * D) as H2
      by (apply Nat.mul_lt_mono_pos_r; assumption).
    assert (B * (h * h * (P * P * C)) < B * (N * D)) as H3
      by (apply Nat.mul_lt_mono_pos_l; lia).
    simpl. rewrite !Nat.mul_1_r.
    replace (B * (h * (h * (P * (P * C))))) with (B * (h * h * (P * P * C)))
      by (f_equal; rewrite !Nat.mul_assoc; reflexivity).
    lia.
  - intros h C -> ->. rewrite (unpatchify_Ok patches B C h P HP Hwf Hs).
    eexists; split; [reflexivity|]. split; [reflexivity|].
    unfold wf_tensor in Hwf. rewrite Hs in Hwf.
    apply wf_permute_data.
    + rewrite Hwf. simpl. nia.
    + simpl. lia.
    + simpl. nia.
Qed.

(** On a 4 by 8 image with 4 by 4 patches, [patchify] succeeds and
    [unpatchify] raises: two patches are not a square grid. *)
Lemma roundtrip_fails_non_square :
  let imgs := mkTensor [1; 1; 4; 8] (seq 0 32) in
  wf_tensor imgs /\ 4 mod 4 = 0 /\ 8 mod 4 = 0 /\
  exists patches,
    patchify imgs 4 = Ok patches /\
    shape patches = [1; 2; 16] /\
    unpatchify patches 4 = Raise RuntimeError.
Proof.
  cbv zeta. split; [reflexivity|]. split; [reflexivity|]. split; [reflexivity|].
  eexists. split; [vm_compute; reflexivity|]. split; reflexivity.
Qed.

(** On an empty batch, two patches per image are accepted although two
    is not a perfect square: both element counts are zero. *)
Lemma unpatchify_empty_batch_non_square :
  let patches := mkTensor [0; 2; 48] (@nil nat) in
  wf_tensor patches /\ (forall h, 2 <> h * h) /\
  unpatchify patches 4 = Ok (mkTensor [0; 3; 4; 4] []).
Proof.
  cbv zeta. split; [reflexivity|]. split; [|reflexivity].
  intros [|[|h]]; simpl; lia.
Qed.

(** ** Shapes of the codec results *)

Lemma bind_Ok {A B : Type} (r : result A) (k : A -> result B) (b : B) :
  bind r k = Ok b -> exists a, r = Ok a /\ k a = Ok b.
Proof. destruct r as [a|e]; simpl; [eauto | discriminate]. Qed.

Lemma reshape_shape {A : Type} (t r : tensor A) (s : list nat) :
  reshape t s = Ok r -> shape r = s.
Proof.
  unfold reshape. destruct (numel s =? length (data t)); [|discriminate].
  intros H. inversion H. reflexivity.
Qed.

Lemma patchify_shape {A : Type} (imgs patches : tensor A) (B C H W P : nat) :
  shape imgs = [B; C; H; W] -> patchify imgs P = Ok patches ->
  shape patches = [B; (H / P) * (W / P); P * P * C].
Proof.
  intros Hs. unfold patchify. rewrite Hs.
  destruct (P =? 0); [discriminate|].
  destruct ((H mod P =? 0) && (W mod P =? 0)); [|discriminate].
  intros Hp. apply bind_Ok in Hp. destruct Hp as (t1 & _ & Hp).
  apply bind_Ok in Hp. destruct Hp as (t2 & _ & Hp).
  now apply reshape_shape in Hp.
Qed.

Lemma unpatchify_shape {A : Type} (patches imgs : tensor A) (B N D P : nat) :
  shape patches = [B; N; D] -> unpatchify patches P = Ok imgs ->
  shape imgs = [B; D / (P * P); Nat.sqrt N * P; Nat.sqrt N * P].
Proof.
  intros Hs. unfold unpatchify. rewrite Hs.
  destruct (P * P =? 0); [discriminate|].
  intros Hp. apply bind_Ok in Hp. destruct Hp as (t1 & _ & Hp).
  apply bind_Ok in Hp. destruct Hp as (t2 & _ & Hp).
  now apply reshape_shape in Hp.
Qed.

(** The round trip can only succeed on square images. *)
Lemma roundtrip_only_square {A : Type} (imgs patches : tensor A)
    (B C H W P : nat) :
  shape imgs = [B; C; H; W] ->
  patchify imgs P = Ok patches -> unpatchify patches P = Ok imgs ->
  H = W.
Proof.
  intros Hs Hp Hu.
  pose proof (patchify_shape imgs patches B C H W P Hs Hp) as Hps.
  pose proof (unpatchify_shape patches imgs _ _ _ P Hps Hu) as Hus.
  rewrite Hs in Hus. inversion Hus. congruence.
Qed.

(** ** [argsort] *)

Section ArgsortFacts.
Variable K : Type.
Variable leb : K -> K -> bool.

Lemma insert_key_perm (x : K * nat) (l : list (K * nat)) :
  Permutation (insert_key leb x l) (x :: l).
Proof.
  induction l as [|y l IH]; simpl; [reflexivity|].
  destruct (leb (fst x) (fst y)); [reflexivity|].
  rewrite IH. apply perm_swap.
Qed.

Lemma sort_keys_perm (l : list (K * nat)) :
  Permutation (sort_keys leb l) l.
Proof.
  induction l as [|x l IH]; simpl; [reflexivity|].
  rewrite insert_key_perm. now constructor.
Qed.

Lemma map_snd_combine (keys : list K) (l : list nat) :
  length keys = length l -> map snd (combine keys l) = l.
Proof.
  revert l; induction keys as [|k keys IH]; intros [|i l] H; simpl in *;
    try discriminate; [reflexivity|].
  f_equal. apply IH. lia.
Qed.

(** Whatever the order on the keys, [argsort] lists every position once. *)
Lemma argsort_perm (keys : list K) :
  Permutation (argsort leb keys) (seq 0 (length keys)).
Proof.
  unfold argsort. rewrite sort_keys_perm.
  rewrite map_snd_combine; [reflexivity | now rewrite length_seq].
Qed.

Lemma length_argsort (keys : list K) :
  length (argsort leb keys) = length keys.
Proof.
  rewrite (Permutation_length (argsort_perm keys)). apply length_seq.
Qed.

Lemma argsort_lt (keys : list K) (i : nat) :
  In i (argsort leb keys) -> i < length keys.
Proof.
  intros H. apply (Permutation_in _ (argsort_perm keys)) in H.
  apply in_seq in H. lia.
Qed.

Lemma argsort_NoDup (keys : list K) : NoDup (argsort leb keys).
Proof.
  apply (Permutation_NoDup (Permutation_sym (argsort_perm keys))).
  apply seq_NoDup.
Qed.
End ArgsortFacts.

Arguments argsort_perm {K} leb keys.
Arguments length_argsort {K} leb keys.
Arguments argsort_lt {K} leb keys i _.
Arguments argsort_NoDup {K} leb keys.

(** *** Sorting a permutation of [0 .. n-1] inverts it *)

Lemma insert_key_sorted (x : nat * nat) (l : list (nat * nat)) :
  Sorted (fun a b => fst a <= fst b) l ->
  Sorted (fun a b => fst a <= fst b) (insert_key Nat.leb x l).
Proof.
  induction 1 as [|y l Hl IH Hy]; simpl.
  - repeat constructor.
  - destruct (Nat.leb_spec (fst x) (fst y)) as [Hle|Hgt].
    + constructor; [now constructor|]. now constructor.
    + constructor; [assumption|].
      destruct l as [|z l]; simpl in *.
      * constructor. lia.
      * destruct (Nat.leb_spec (fst x) (fst z)); constructor; try lia.
        now inversion Hy.
Qed.

Lemma sort_keys_sorted (l : list (nat * nat)) :
  Sorted (fun a b => fst a <= fst b) (sort_keys Nat.leb l).
Proof.
  induction l as [|x l IH]; simpl; [constructor|].
  now apply insert_key_sorted.
Qed.

Lemma sorted_map_fst (l : list (nat * nat)) :
  Sorted (fun a b => fst a <= fst b) l -> Sorted le (map fst l).
Proof.
  induction 1 as [|y l Hl IH Hy]; simpl; constructor; [assumption|].
  destruct Hy; simpl; now constructor.
Qed.

(** A sorted list without repetition that holds exactly [a .. a+n-1]. *)
Lemma sorted_perm_seq (l : list nat) (a n : nat) :
  Sorted le l -> Permutation l (seq a n) -> l = seq a n.
Proof.
  revert l a; induction n as [|n IH]; intros l a Hs Hp.
  - now apply Permutation_sym, Permutation_nil in Hp.
  - destruct l as [|x l];
      [apply Permutation_nil in Hp; discriminate|].
    apply Sorted_StronglySorted in Hs; [| intros u v w; lia].
    inversion Hs as [|x' l' Hs' Hall]; subst.
    assert (x = a) as ->.
    { assert (In x (seq a (S n))) as Hx
        by (apply (Permutation_in _ Hp); now left).
      assert (In a (x :: l)) as Ha
        by (apply (Permutation_in _ (Permutation_sym Hp)); now left).
      apply in_seq in Hx. destruct Ha as [|Ha]; [lia|].
      rewrite Forall_forall in Hall. specialize (Hall _ Ha). lia. }
    simpl in Hp. apply Permutation_cons_inv in Hp. simpl. f_equal.
    apply IH; [|assumption]. now apply StronglySorted_Sorted.
Qed.

Lemma in_combine_seq (p : list nat) (a m k j : nat) :
  In (k, j) (combine p (seq a m)) -> a <= j /\ nth (j - a) p 0 = k.
Proof.
  revert a m; induction p as [|x p IH]; intros a [|m] H; simpl in H;
    try contradiction.
  destruct H as [H|H].
  - inversion H; subst. rewrite Nat.sub_diag. split; [lia | reflexivity].
  - apply IH in H. destruct H as [Hle Hn]. split; [lia|].
    replace (j - a) with (S (j - S a)) by lia. exact Hn.
Qed.

Lemma map_fst_combine {A B : Type} (l : list A) (l' : list B) :
  length l = length l' -> map fst (combine l l') = l.
Proof.
  revert l'; induction l as [|x l IH]; intros [|y l'] H; simpl in *;
    try discriminate; [reflexivity|].
  f_equal. apply IH. lia.
Qed.

(** [ids_shuffle[ids_restore[i]] = i]. *)
Lemma argsort_inverse (p : list nat) (n i : nat) :
  Permutation p (seq 0 n) -> i < n ->
  nth (nth i (argsort Nat.leb p) 0) p 0 = i.
Proof.
  intros Hp Hi.
  assert (length p = n) as Hlen
    by (rewrite (Permutation_length Hp); apply length_seq).
  unfold argsort. rewrite Hlen.
  set (S := sort_keys Nat.leb (combine p (seq 0 n))).
  assert (Permutation S (combine p (seq 0 n))) as HS by apply sort_keys_perm.
  assert (map fst S = seq 0 n) as Hfst.
  { apply sorted_perm_seq.
    - apply sorted_map_fst, sort_keys_sorted.
    - rewrite HS, map_fst_combine by (now rewrite length_seq). exact Hp. }
  assert (length S = n) as HlS
    by (rewrite <- (length_map fst), Hfst; apply length_seq).
  assert (In (nth i S (0, 0)) S) as Hin by (apply nth_In; lia).
  apply (Permutation_in _ HS) in Hin.
  destruct (nth i S (0, 0)) as [k j] eqn:E.
  apply in_combine_seq in Hin. destruct Hin as [_ Hn].
  rewrite Nat.sub_0_r in Hn.
  change 0 with (snd (0, 0)) at 1. rewrite map_nth, E. simpl.
  rewrite Hn.
  assert (nth i (map fst S) 0 = k) as Hk
    by (change 0 with (fst (0, 0)); now rewrite map_nth, E).
  rewrite Hfst, seq_nth in Hk by assumption. lia.
Qed.

(** [ids_restore[ids_shuffle[j]] = j]. *)
Lemma argsort_inverse_left (p : list nat) (n j : nat) :
  Permutation p (seq 0 n) -> j < n ->
  nth (nth j p 0) (argsort Nat.leb p) 0 = j.
Proof.
  intros Hp Hj.
  assert (length p = n) as Hlen
    by (rewrite (Permutation_length Hp); apply length_seq).
  assert (NoDup p) as Hnd
    by (apply (Permutation_NoDup (Permutation_sym Hp)), seq_NoDup).
  assert (nth j p 0 < n) as Hpj.
  { assert (In (nth j p 0) (seq 0 n)) as H
      by (apply (Permutation_in _ Hp), nth_In; lia).
    apply in_seq in H. lia. }
  assert (nth (nth j p 0) (argsort Nat.leb p) 0 < n) as Hr.
  { rewrite <- Hlen. apply (argsort_lt Nat.leb).
    apply nth_In. rewrite length_argsort. lia. }
  rewrite NoDup_nth with (d := 0) in Hnd.
  apply Hnd; try lia.
  now apply argsort_inverse with (n := n).
Qed.

(** ** Writing rows by position *)

Lemma length_update {A : Type} (j : nat) (x : A) (l : list A) :
  length (update j x l) = length l.
Proof.
  revert j; induction l as [|y l IH]; intros [|j]; simpl; auto.
Qed.

Lemma nth_update_same {A : Type} (j : nat) (x d : A) (l : list A) :
  j < length l -> nth j (update j x l) d = x.
Proof.
  revert j; induction l as [|y l IH]; intros [|j] H; simpl in *; try lia.
  - reflexivity.
  - apply IH. lia.
Qed.

Lemma nth_update_other {A : Type} (j n : nat) (x d : A) (l : list A) :
  n <> j -> nth n (update j x l) d = nth n l d.
Proof.
  revert j n; induction l as [|y l IH]; intros [|j] [|n] H; simpl;
    try reflexivity; try congruence.
  apply IH. congruence.
Qed.

Lemma length_index_put {A : Type} (dst src : list A) (ids : list nat) :
  length (index_put dst src ids) = length dst.
Proof.
  unfold index_put. revert dst; induction ids as [|j ids IH]; intros dst;
    simpl; [reflexivity|].
  rewrite IH. destruct (nth_error src j); [apply length_update | reflexivity].
Qed.

Lemma index_put_written {A : Type} (dst src : list A) (ids : list nat)
    (n : nat) (d : A) :
  length dst = length src -> n < length src ->
  In n ids \/ nth n dst d = nth n src d ->
  nth n (index_put dst src ids) d = nth n src d.
Proof.
  unfold index_put. revert dst; induction ids as [|j ids IH];
    intros dst Hlen Hn H; simpl.
  - destruct H as [[]|H]. exact H.
  - destruct (nth_error src j) as [x|] eqn:E.
    + apply IH; [now rewrite length_update | assumption |].
      destruct (Nat.eq_dec n j) as [->|Hne].
      * right. rewrite nth_update_same by lia.
        symmetry. now apply nth_error_nth.
      * rewrite nth_update_other by assumption.
        destruct H as [[H|H]|H]; [congruence | now left | now right].
    + apply IH; try assumption.
      destruct H as [[H|H]|H]; [|now left | now right].
      subst j. apply nth_error_None in E. lia.
Qed.

Lemma index_put_untouched {A : Type} (dst src : list A) (ids : list nat)
    (n : nat) (d : A) :
  ~ In n ids -> nth n (index_put dst src ids) d = nth n dst d.
Proof.
  unfold index_put. revert dst; induction ids as [|j ids IH];
    intros dst H; simpl; [reflexivity|].
  simpl in H. rewrite IH by tauto.
  destruct (nth_error src j); [|reflexivity].
  apply nth_update_other. intros ->. tauto.
Qed.

(** ** [random_masking] row by row *)

Lemma map_combine3 {P Q I R : Type} (f : Q -> I) (z : P -> P)
    (h : P -> P -> I -> R) (ps : list P) (ns : list Q) :
  map (fun '(row, ids, zeros) => h zeros row ids)
      (combine (combine ps (map f ns)) (map z ps))
  = map (fun '(row, nz) => h (z row) row (f nz)) (combine ps ns).
Proof.
  revert ns; induction ps as [|p ps IH]; intros [|n ns]; simpl;
    try reflexivity.
  f_equal. apply IH.
Qed.

Lemma random_masking_with_rows (noise : list (list f32))
    (patches : list (list (list f32))) (mask_ratio : f64) (k : Z) :
  len_keep (num_patches patches) mask_ratio = Ok k ->
  random_masking_with noise patches mask_ratio
  = Ok (map (fun '(row, nz) => row_masked (num_patches patches) k nz row)
            (combine patches noise),
        map (row_mask (num_patches patches) k) noise).
Proof.
  intros Hk. unfold random_masking_with. rewrite Hk. cbn [bind].
  do 2 f_equal.
  - unfold zeros_like. rewrite map_map.
    apply (map_combine3
             (fun nz => firstn (slice_stop k (num_patches patches))
                               (argsort F32.leb nz))
             (map (map (fun _ => F32.zero)))
             (fun zeros row ids => index_put zeros row ids)).
  - rewrite !map_map. reflexivity.
Qed.

Lemma slice_stop_le (k : Z) (N : nat) : slice_stop k N <= N.
Proof. unfold slice_stop. destruct (Z.ltb_spec k 0); lia. Qed.

Lemma length_mask_row (N : nat) (k : Z) : length (mask_row N k) = N.
Proof.
  unfold mask_row. rewrite length_app, !repeat_length.
  pose proof (slice_stop_le k N). lia.
Qed.

Lemma nth_repeat_lt {A : Type} (x d : A) (m j : nat) :
  j < m -> nth j (repeat x m) d = x.
Proof.
  revert j; induction m as [|m IH]; intros [|j] H; simpl; try lia;
    [reflexivity | apply IH; lia].
Qed.

Lemma nth_mask_row (N : nat) (k : Z) (j : nat) :
  nth j (mask_row N k) F32.one
  = if j <? slice_stop k N then F32.zero else F32.one.
Proof.
  unfold mask_row.
  destruct (Nat.ltb_spec j (slice_stop k N)) as [H|H].
  - rewrite app_nth1 by (now rewrite repeat_length).
    now apply nth_repeat_lt.
  - rewrite app_nth2 by (now rewrite repeat_length). apply nth_repeat.
Qed.

Lemma length_row_mask (N : nat) (k : Z) (nz : list f32) :
  length (row_mask N k nz) = length nz.
Proof.
  unfold row_mask, gather_row. now rewrite length_map, !length_argsort.
Qed.

Lemma nth_row_mask (N : nat) (k : Z) (nz : list f32) (n : nat) :
  n < length nz ->
  nth n (row_mask N k nz) F32.one
  = if nth n (argsort Nat.leb (argsort F32.leb nz)) 0 <? slice_stop k N
    then F32.zero else F32.one.
Proof.
  intros Hn. unfold row_mask, gather_row.
  rewrite nth_indep with (d' := nth 0 (mask_row N k) F32.one)
    by (now rewrite length_map, !length_argsort).
  rewrite (map_nth (fun i => nth i (mask_row N k) F32.one)).
  apply nth_mask_row.
Qed.

(** The mask row is a rearrangement of [0 .. 0 1 .. 1]. *)
Lemma row_mask_perm (N : nat) (k : Z) (nz : list f32) :
  length nz = N -> Permutation (row_mask N k nz) (mask_row N k).
Proof.
  intros Hl. unfold row_mask, gather_row.
  assert (forall (l : list f32) d,
             map (fun i => nth i l d) (seq 0 (length l)) = l) as Hself.
  { intros l d. apply nth_ext with (d := d) (d' := d).
    - now rewrite length_map, length_seq.
    - intros n Hn. rewrite length_map, length_seq in Hn.
      rewrite nth_indep with (d' := nth 0 l d)
        by (now rewrite length_map, length_seq).
      rewrite (map_nth (fun i => nth i l d)). now rewrite seq_nth. }
  pose proof (Hself (mask_row N k) F32.one) as E.
  rewrite length_mask_row in E.
  apply Permutation_trans
    with (l' := map (fun i => nth i (mask_row N k) F32.one) (seq 0 N));
    [| rewrite E; reflexivity].
  apply Permutation_map.
  rewrite <- Hl, <- (length_argsort F32.leb nz). apply argsort_perm.
Qed.

(** A patch is kept exactly when its rank in the shuffle is below the
    keep count.  Of the shuffle this uses only that it lists every
    position once, whatever the order given to equal noise values. *)
Lemma kept_iff_rank_perm (p : list nat) (N m n : nat) :
  Permutation p (seq 0 N) -> n < N -> m <= N ->
  In n (firstn m p) <-> nth n (argsort Nat.leb p) 0 < m.
Proof.
  intros Hp Hn Hm.
  assert (length p = N) as Hlp
    by (rewrite (Permutation_length Hp); apply length_seq).
  split.
  - intros Hin. apply In_nth with (d := 0) in Hin.
    destruct Hin as (j & Hj & Hnj). rewrite length_firstn in Hj.
    rewrite nth_firstn in Hnj.
    destruct (Nat.ltb_spec j m); [|lia].
    rewrite <- Hnj. rewrite argsort_inverse_left with (n := N);
      [assumption | assumption | lia].
  - intros Hr. set (j := nth n (argsort Nat.leb p) 0) in *.
    assert (nth j p 0 = n) as Hj
      by (apply argsort_inverse with (n := N); assumption).
    rewrite <- Hj.
    replace (nth j p 0) with (nth j (firstn m p) 0).
    + apply nth_In. rewrite length_firstn. lia.
    + rewrite nth_firstn. destruct (Nat.ltb_spec j m); [reflexivity | lia].
Qed.

Lemma kept_iff_rank (nz : list f32) (m n : nat) :
  n < length nz -> m <= length nz ->
  In n (firstn m (argsort F32.leb nz))
  <-> nth n (argsort Nat.leb (argsort F32.leb nz)) 0 < m.
Proof.
  intros Hn Hm. apply kept_iff_rank_perm with (N := length nz);
    [apply argsort_perm | assumption | assumption].
Qed.

Lemma nth_row_masked (N : nat) (k : Z) (nz : list f32)
    (row : list (list f32)) (n : nat) :
  length nz = N -> length row = N -> n < N ->
  nth n (row_masked N k nz row) []
  = if nth n (argsort Nat.leb (argsort F32.leb nz)) 0 <? slice_stop k N
    then nth n row []
    else map (fun _ => F32.zero) (nth n row []).
Proof.
  intros Hnz Hrow Hn. unfold row_masked.
  pose proof (slice_stop_le k N) as Hle.
  pose proof (kept_iff_rank nz (slice_stop k N) n) as Hiff.
  rewrite Hnz in Hiff. specialize (Hiff Hn Hle).
  destruct (Nat.ltb_spec (nth n (argsort Nat.leb (argsort F32.leb nz)) 0)
                         (slice_stop k N)) as [Hlt|Hge].
  - apply index_put_written.
    + now rewrite length_map.
    + lia.
    + left. now apply Hiff.
  - rewrite index_put_untouched by (rewrite Hiff; lia).
    apply (map_nth (map (fun _ => F32.zero)) row []).
Qed.

Lemma length_row_masked (N : nat) (k : Z) (nz : list f32)
    (row : list (list f32)) :
  length (row_masked N k nz row) = length row.
Proof. unfold row_masked. now rewrite length_index_put, length_map. Qed.

Lemma nth_map_combine {P Q R : Type} (f : P * Q -> R) (ps : list P)
    (qs : list Q) (b : nat) (dp : P) (dq : Q) (d : R) :
  length qs = length ps -> b < length ps ->
  nth b (map f (combine ps qs)) d = f (nth b ps dp, nth b qs dq).
Proof.
  intros Hl Hb.
  rewrite nth_indep with (d' := f (dp, dq))
    by (rewrite length_map, length_combine; lia).
  rewrite map_nth. f_equal. apply combine_nth. lia.
Qed.

Lemma same_shape3_intro {A : Type} (a b : list (list (list A))) :
  length a = length b ->
  (forall i, i < length a ->
     length (nth i a []) = length (nth i b []) /\
     forall j, j < length (nth i a []) ->
       length (nth j (nth i a []) []) = length (nth j (nth i b []) [])) ->
  same_shape3 a b = true.
Proof.
  intros Hl H. unfold same_shape3.
  rewrite (proj2 (Nat.eqb_eq _ _) Hl). simpl.
  apply forallb_forall. intros [x y] Hin.
  apply In_nth with (d := ([], [])) in Hin.
  destruct Hin as (i & Hi & E). rewrite length_combine in Hi.
  rewrite combine_nth in E by assumption. inversion E; subst. clear E.
  destruct (H i ltac:(lia)) as [Hrow Hcol].
  rewrite (proj2 (Nat.eqb_eq _ _) Hrow). simpl.
  apply forallb_forall. intros [u v] Hin.
  apply In_nth with (d := ([], [])) in Hin.
  destruct Hin as (j & Hj & E). rewrite length_combine in Hj.
  rewrite combine_nth in E by assumption. inversion E; subst. clear E.
  apply Nat.eqb_eq. apply Hcol. lia.
Qed.

Lemma F32_eqb_zero_one : F32.eqb F32.zero F32.one = false.
Proof. reflexivity. Qed.

Lemma F32_eqb_one_zero : F32.eqb F32.one F32.zero = false.
Proof. reflexivity. Qed.

(** C3: for every patch sequence and every noise drawn, the masked
    sequence has the shape of the input and follows the mask in original
    patch order: where [mask[b,n] == 0] the patch is the input patch, and
    where [mask[b,n] == 1] it is the zero vector. *)
Theorem masking_alignment (noise : list (list f32))
    (patches : list (list (list f32))) (mask_ratio : f64) (D : nat) (k : Z) :
  wf_patches D patches -> wf_noise patches noise ->
  len_keep (num_patches patches) mask_ratio = Ok k ->
  exists masked mask,
    random_masking_with noise patches mask_ratio = Ok (masked, mask) /\
    same_shape3 masked patches = true /\
    forall b n, b < length patches -> n < num_patches patches ->
      (F32.eqb (nth n (nth b mask []) F32.one) F32.zero = true ->
       nth n (nth b masked []) [] = nth n (nth b patches []) []) /\
      (F32.eqb (nth n (nth b mask []) F32.one) F32.one = true ->
       nth n (nth b masked []) [] = repeat F32.zero D).
Proof.
  intros Hwf [Hnl Hnz] Hk. set (N := num_patches patches) in *.
  rewrite (random_masking_with_rows noise patches mask_ratio k Hk). fold N.
  do 2 eexists. split; [reflexivity|].
  unfold wf_patches in Hwf. rewrite Forall_forall in Hwf, Hnz.
  assert (forall b, b < length patches ->
            length (nth b patches []) = N /\
            length (nth b noise []) = N /\
            forall n, n < N -> length (nth n (nth b patches []) []) = D)
    as Hrows.
  { intros b Hb.
    destruct (Hwf (nth b patches []) ltac:(apply nth_In; lia)) as [H1 H2].
    split; [assumption|]. split.
    - apply Hnz, nth_In. lia.
    - intros n Hn. rewrite Forall_forall in H2. apply H2, nth_In. lia. }
  assert (forall b, b < length patches ->
            nth b (map (fun '(row, nz) => row_masked N k nz row)
                       (combine patches noise)) []
            = row_masked N k (nth b noise []) (nth b patches [])) as Hmasked.
  { intros b Hb.
    now rewrite (nth_map_combine _ patches noise b [] [] [] Hnl Hb). }
  split.
  - apply same_shape3_intro.
    + rewrite length_map, length_combine. lia.
    + intros b Hb. rewrite length_map, length_combine in Hb.
      assert (b < length patches) as Hb' by lia.
      rewrite (Hmasked b Hb'). destruct (Hrows b Hb') as (Hp & Hn & Hd).
      rewrite length_row_masked. split; [reflexivity|].
      intros n Hn'. rewrite Hp in Hn'.
      rewrite (nth_row_masked N k (nth b noise []) (nth b patches []) n Hn Hp Hn').
      destruct (_ <? _); [reflexivity | apply length_map].
  - intros b n Hb Hn. rewrite (Hmasked b Hb).
    destruct (Hrows b Hb) as (Hp & Hnb & Hd).
    rewrite nth_indep with (d' := row_mask N k []) by (rewrite length_map; lia).
    rewrite (map_nth (row_mask N k)).
    rewrite nth_row_mask by lia.
    rewrite (nth_row_masked N k (nth b noise []) (nth b patches []) n Hnb Hp Hn).
    destruct (_ <? _).
    + split; [reflexivity|]. rewrite F32_eqb_zero_one. discriminate.
    + split; [rewrite F32_eqb_one_zero; discriminate|]. intros _.
      rewrite <- (Hd n Hn). clear.
      induction (nth n (nth b patches []) []); simpl; congruence.
Qed.

(** ** Signs of rounded results *)

Section Signs.
Variables prec emax : Z.

Lemma binary_round_aux_sign (s : bool) (m e : Z) (l : location) :
  sign_is s (binary_round_aux prec emax s m e l).
Proof.
  unfold binary_round_aux.
  destruct (shr_fexp prec emax m e l) as [mrs' e'].
  destruct (shr_fexp prec emax _ e' loc_Exact) as [mrs'' e''].
  destruct (shr_m mrs''); simpl; trivial.
  destruct (e'' <=? emax - prec)%Z; reflexivity.
Qed.

Lemma binary_round_sign (s : bool) (m : positive) (e : Z) :
  sign_is s (binary_round prec emax s m e).
Proof.
  unfold binary_round. destruct (shl_align m e _) as [mz ez].
  apply binary_round_aux_sign.
Qed.

Lemma binary_normalize_sign (m e : Z) :
  (0 <= m)%Z -> sign_is false (binary_normalize prec emax m e false).
Proof.
  intros H. destruct m as [|p|p]; simpl; [reflexivity | | lia].
  apply binary_round_sign.
Qed.

Lemma SFmul_sign (sx sy : bool) (x y : spec_float) :
  sign_is sx x -> sign_is sy y ->
  sign_is (xorb sx sy) (SFmul prec emax x y).
Proof.
  destruct x as [a|a| |a mx ex], y as [b|b| |b my ey]; simpl;
    intros Hx Hy; subst; trivial.
  apply binary_round_aux_sign.
Qed.

Lemma SFdiv_sign (sx sy : bool) (x y : spec_float) :
  sign_is sx x -> sign_is sy y ->
  sign_is (xorb sx sy) (SFdiv prec emax x y).
Proof.
  destruct x as [a|a| |a mx ex], y as [b|b| |b my ey]; simpl;
    intros Hx Hy; subst; trivial.
  destruct (SFdiv_core_binary prec emax (Z.pos mx) ex (Z.pos my) ey)
    as [[mz ez] lz].
  apply binary_round_aux_sign.
Qed.

Lemma SFadd_sign (x y : spec_float) :
  sign_is false x -> sign_is false y ->
  sign_is false (SFadd prec emax x y).
Proof.
  destruct x as [a|a| |a mx ex], y as [b|b| |b my ey]; simpl;
    intros Hx Hy; subst; simpl; trivial.
  apply binary_round_sign.
Qed.
End Signs.

Lemma sign_is_square (prec emax : Z) (x : spec_float) :
  sign_is false (SFmul prec emax x x).
Proof.
  destruct x as [a|a| |a mx ex]; simpl; trivial;
    try (now destruct a).
  replace false with (xorb a a) by (now destruct a).
  apply binary_round_aux_sign.
Qed.

(** ** The keep count of a ratio in (0, 1) *)

Lemma digits2_pos_bound (m : positive) :
  (Z.pos m < 2 ^ Z.pos (digits2_pos m))%Z.
Proof.
  induction m as [m IH|m IH|]; simpl digits2_pos;
    rewrite ?Pos2Z.inj_succ, ?Z.pow_succ_r by lia; lia.
Qed.

Lemma iter_xO_pow2 (m d : positive) :
  Z.pos (Pos.iter xO m d) = (Z.pos m * 2 ^ Z.pos d)%Z.
Proof.
  induction d as [|d IH] using Pos.peano_ind.
  - simpl. lia.
  - rewrite Pos.iter_succ, Pos2Z.inj_succ, Z.pow_succ_r by lia.
    rewrite Pos2Z.inj_xO, IH. lia.
Qed.





(** ** Converting a positive count to binary32 *)

Lemma iter_pos_nat {A : Type} (f : A -> A) (n : positive) (x : A) :
  iter_pos f n x = Nat.iter (Pos.to_nat n) f x.
Proof.
  revert x; induction n as [n IH|n IH|]; intros x; simpl iter_pos.
  - rewrite !IH, Pos2Nat.inj_xI, Nat.iter_succ_r.
    replace (2 * Pos.to_nat n) with (Pos.to_nat n + Pos.to_nat n) by lia.
    now rewrite Nat.iter_add.
  - rewrite !IH, Pos2Nat.inj_xO.
    replace (2 * Pos.to_nat n) with (Pos.to_nat n + Pos.to_nat n) by lia.
    now rewrite Nat.iter_add.
  - reflexivity.
Qed.

Lemma shr_1_div2 (mrs : shr_record) :
  (0 <= shr_m mrs)%Z -> shr_m (shr_1 mrs) = Z.div2 (shr_m mrs).
Proof.
  destruct mrs as [m r s]. simpl. intros H.
  destruct m as [|p|p]; [reflexivity | | lia].
  destruct p; reflexivity.
Qed.

Lemma iter_shr_1_div (k : nat) (mrs : shr_record) :
  (0 <= shr_m mrs)%Z ->
  shr_m (Nat.iter k shr_1 mrs) = (shr_m mrs / 2 ^ Z.of_nat k)%Z.
Proof.
  intros H. induction k as [|k IH].
  - simpl. now rewrite Z.div_1_r.
  - rewrite Nat.iter_succ, shr_1_div2.
    + rewrite IH, Z.div2_div, Z.div_div by lia.
      rewrite Nat2Z.inj_succ, Z.pow_succ_r by lia. f_equal. lia.
    + rewrite IH. apply Z.div_pos; lia.
Qed.

Lemma digits2_pos_lower (m : positive) :
  (2 ^ (Z.pos (digits2_pos m) - 1) <= Z.pos m)%Z.
Proof.
  induction m as [m IH|m IH|]; simpl digits2_pos;
    rewrite ?Pos2Z.inj_succ;
    try (replace (Z.succ (Z.pos (digits2_pos m)) - 1)%Z
           with (Z.succ (Z.pos (digits2_pos m) - 1)) by lia;
         rewrite Z.pow_succ_r by lia);
    try lia.
Qed.

Lemma shr_m_of_loc (m : Z) (l : location) :
  shr_m (shr_record_of_loc m l) = m.
Proof. destruct l as [|[ | | ]]; reflexivity. Qed.

(** In the normal range a right shift keeps a positive mantissa. *)
Lemma shr_fexp_pos (p : positive) (e : Z) (l : location) :
  (-149 <= Z.pos (digits2_pos p) + e - 24)%Z ->
  exists p',
    shr_m (fst (shr_fexp F32.prec F32.emax (Z.pos p) e l)) = Z.pos p' /\
    (e <= snd (shr_fexp F32.prec F32.emax (Z.pos p) e l))%Z.
Proof.
  intros Hn. unfold shr_fexp, shr, fexp, emin, F32.prec, F32.emax.
  cbn [Zdigits2].
  replace (Z.max (Z.pos (digits2_pos p) + e - 24) (3 - 128 - 24))
    with (Z.pos (digits2_pos p) + e - 24)%Z by lia.
  destruct (Z.pos (digits2_pos p) + e - 24 - e)%Z as [|q|q] eqn:Eq;
    cbn [fst snd]; rewrite ?shr_m_of_loc;
    try (exists p; split; [reflexivity | lia]).
  rewrite iter_pos_nat, iter_shr_1_div, shr_m_of_loc
    by (rewrite shr_m_of_loc; lia).
  rewrite positive_nat_Z.
  assert (0 < Z.pos p / 2 ^ Z.pos q)%Z as Hpos.
  { apply Z.div_str_pos. split; [apply Z.pow_pos_nonneg; lia|].
    eapply Z.le_trans; [|apply digits2_pos_lower].
    apply Z.pow_le_mono_r; lia. }
  destruct (Z.pos p / 2 ^ Z.pos q)%Z as [|p'|p'] eqn:Ep; try lia.
  exists p'. split; [reflexivity | lia].
Qed.

Lemma round_nearest_even_pos (p : positive) (l : location) :
  exists p', round_nearest_even (Z.pos p) l = Z.pos p'.
Proof.
  destruct l as [|[ | | ]]; unfold round_nearest_even;
    try destruct (Z.even (Z.pos p)); simpl; eexists; reflexivity.
Qed.

(** Rounding a positive mantissa whose exponent is not far below zero
    gives a nonzero number or an infinity. *)
Lemma binary_round_aux_nonzero (s : bool) (p : positive) (e : Z) (l : location) :
  (-126 <= e)%Z ->
  match binary_round_aux F32.prec F32.emax s (Z.pos p) e l with
  | S754_finite _ _ _ | S754_infinity _ => True
  | _ => False
  end.
Proof.
  intros He. unfold binary_round_aux.
  destruct (shr_fexp_pos p e l) as (p1 & H1 & He1); [lia|].
  destruct (shr_fexp F32.prec F32.emax (Z.pos p) e l) as [mrs' e'].
  cbn [fst snd] in H1, He1. rewrite H1.
  destruct (round_nearest_even_pos p1 (loc_of_shr_record mrs')) as [p2 ->].
  destruct (shr_fexp_pos p2 e' loc_Exact) as (p3 & H3 & _); [lia|].
  destruct (shr_fexp F32.prec F32.emax (Z.pos p2) e' loc_Exact) as [mrs'' e''].
  cbn [fst] in H3. rewrite H3.
  destruct (e'' <=? F32.emax - F32.prec)%Z; exact I.
Qed.

Lemma of_nat_nonzero (D : nat) :
  0 < D ->
  match F32.of_nat D with
  | S754_finite false _ _ | S754_infinity false => True
  | _ => False
  end.
Proof.
  intros HD. unfold F32.of_nat.
  pose proof (binary_normalize_sign F32.prec F32.emax (Z.of_nat D) 0
                ltac:(lia)) as Hs.
  assert (match binary_normalize F32.prec F32.emax (Z.of_nat D) 0 false with
          | S754_finite _ _ _ | S754_infinity _ => True
          | _ => False
          end) as Hnz.
  { destruct (Z.of_nat D) as [|p|p] eqn:E; try lia.
    unfold binary_normalize, binary_round, shl_align, fexp, emin,
      F32.prec, F32.emax.
    pose proof (Pos2Z.is_pos (digits2_pos p)) as Hd.
    destruct (Z.max (Z.pos (digits2_pos p) + 0 - 24) (3 - 128 - 24) - 0)%Z
      as [|q|q] eqn:Eq; apply binary_round_aux_nonzero; lia. }
  destruct (binary_normalize F32.prec F32.emax (Z.of_nat D) 0 false)
    as [b|b| |b m e]; try contradiction; simpl in Hs; subst b; exact I.
Qed.

(** ** The keep count does not exceed the patch count *)

Lemma fexp64 (x : Z) :
  fexp F64.prec F64.emax x = Z.max (x - 53) (-1074).
Proof. reflexivity. Qed.

Lemma shr_1_bits (mrs : shr_record) :
  shr_r (shr_1 mrs) = Z.odd (shr_m mrs) /\
  shr_s (shr_1 mrs) = shr_r mrs || shr_s mrs.
Proof.
  destruct mrs as [m r s]. destruct m as [|[p|p|]|[p|p|]]; simpl; auto.
Qed.

(** After [k] right shifts the mantissa is the quotient by [2^k], and no
    bit was lost when the division is exact. *)
Lemma iter_shr_1_exact (k : nat) (m : Z) :
  (0 <= m)%Z ->
  let mrs := Nat.iter k shr_1 (Build_shr_record m false false) in
  shr_m mrs = (m / 2 ^ Z.of_nat k)%Z /\
  ((m mod 2 ^ Z.of_nat k = 0)%Z -> shr_r mrs = false /\ shr_s mrs = false).
Proof.
  intros Hm. cbv zeta. induction k as [|k [IHm IHb]].
  - simpl. rewrite Z.div_1_r. auto.
  - rewrite Nat.iter_succ.
    set (mrs := Nat.iter k shr_1 (Build_shr_record m false false)) in *.
    assert (0 <= shr_m mrs)%Z as Hpos
      by (rewrite IHm; apply Z.div_pos; lia).
    rewrite Nat2Z.inj_succ, Z.pow_succ_r by lia.
    split.
    + rewrite shr_1_div2 by assumption.
      rewrite IHm, Z.div2_div, Z.div_div by lia. f_equal. lia.
    + intros Hmod.
      assert (0 < 2 ^ Z.of_nat k)%Z as Hp by (apply Z.pow_pos_nonneg; lia).
      assert (m mod 2 ^ Z.of_nat k = 0)%Z as Hmod'.
      { rewrite Z.mul_comm in Hmod.
        rewrite Z.rem_mul_r in Hmod by lia.
        pose proof (Z.mod_pos_bound m (2 ^ Z.of_nat k) Hp).
        pose proof (Z.mod_pos_bound (m / 2 ^ Z.of_nat k) 2 ltac:(lia)).
        nia. }
      destruct (IHb Hmod') as [Hr Hs].
      destruct (shr_1_bits mrs) as [Er Es]. rewrite Er, Es, Hr, Hs.
      split; [|reflexivity].
      rewrite IHm. rewrite Z.mul_comm in Hmod.
      rewrite Z.rem_mul_r in Hmod by lia.
      rewrite Hmod' in Hmod.
      pose proof (Z.mod_pos_bound (m / 2 ^ Z.of_nat k) 2 ltac:(lia)).
      assert ((m / 2 ^ Z.of_nat k) mod 2 = 0)%Z as Heven by nia.
      rewrite <- Z.negb_even. rewrite Zeven_mod. rewrite Heven. reflexivity.
Qed.

(** What [shr_fexp] does to an exact non-negative mantissa. *)
Lemma shr_fexp_exact (m e : Z) :
  (0 <= m)%Z ->
  let mrs := fst (shr_fexp F64.prec F64.emax m e loc_Exact) in
  let e' := snd (shr_fexp F64.prec F64.emax m e loc_Exact) in
  e' = Z.max e (Z.max (Zdigits2 m + e - 53) (-1074)) /\
  shr_m mrs = (m / 2 ^ (e' - e))%Z /\
  ((m mod 2 ^ (e' - e) = 0)%Z -> loc_of_shr_record mrs = loc_Exact).
Proof.
  intros Hm. cbv zeta. unfold shr_fexp, shr. rewrite fexp64.
  change (shr_record_of_loc m loc_Exact) with (Build_shr_record m false false).
  destruct (Z.max (Zdigits2 m + e - 53) (-1074) - e)%Z as [|p|p] eqn:En;
    cbn [fst snd].
  - replace (Z.max e (Z.max (Zdigits2 m + e - 53) (-1074))) with e by lia.
    rewrite Z.sub_diag, Z.div_1_r. auto.
  - replace (Z.max e (Z.max (Zdigits2 m + e - 53) (-1074)))
      with (e + Z.pos p)%Z by lia.
    replace (e + Z.pos p - e)%Z with (Z.pos p) by lia.
    rewrite iter_pos_nat.
    destruct (iter_shr_1_exact (Pos.to_nat p) m Hm) as [H1 H2].
    rewrite positive_nat_Z in H1, H2.
    split; [reflexivity|]. split; [exact H1|].
    intros Hmod. destruct (H2 Hmod) as [Hr Hs].
    destruct (Nat.iter (Pos.to_nat p) shr_1 (Build_shr_record m false false))
      as [m' r s]. simpl in Hr, Hs. subst. reflexivity.
  - replace (Z.max e (Z.max (Zdigits2 m + e - 53) (-1074))) with e by lia.
    rewrite Z.sub_diag, Z.div_1_r. auto.
Qed.

Lemma round_nearest_even_bounds (m : Z) (l : location) :
  (m <= round_nearest_even m l <= m + 1)%Z /\
  (l = loc_Exact -> round_nearest_even m l = m).
Proof.
  destruct l as [|[ | | ]]; unfold round_nearest_even;
    try destruct (Z.even m); split; try lia; try reflexivity;
    intros H; discriminate H.
Qed.


Lemma Zdigits2_upper_strict (r t : Z) :
  (0 <= t)%Z -> (0 <= r < 2 ^ t)%Z -> (Zdigits2 r <= t)%Z.
Proof.
  intros Ht [H0 Hr]. destruct r as [|p|p]; simpl; try lia.
  pose proof (digits2_pos_lower p) as Hl.
  assert (2 ^ (Z.pos (digits2_pos p) - 1) < 2 ^ t)%Z as Hpow by lia.
  apply Z.pow_lt_mono_r_iff in Hpow; lia.
Qed.

(** Rounding an exact positive mantissa stays below any bound [Ue]
    (counted in units of [2^e]) that lies on the grid the result is
    rounded to, and the exponent of the result stays small. *)
Lemma round_aux_upper (m : positive) (e Ue g : Z) :
  let e1 := Z.max e (Z.max (Z.pos (digits2_pos m) + e - 53) (-1074)) in
  (Z.pos m <= Ue)%Z -> (Ue < 2 ^ (g - e))%Z -> (e1 <= g)%Z ->
  (Ue mod 2 ^ (e1 - e) = 0)%Z -> (Z.max e1 (g - 53) <= 971)%Z ->
  match binary_round_aux F64.prec F64.emax false (Z.pos m) e loc_Exact with
  | S754_zero s => s = false
  | S754_finite s m2 e2 =>
      s = false /\ (e1 <= e2 <= Z.max e1 (g - 53))%Z /\
      (Z.pos m2 * 2 ^ (e2 - e) <= Ue)%Z
  | _ => False
  end.
Proof.
  intros e1 Hm Hg He1g Hdiv Hmax. unfold binary_round_aux.
  pose proof (shr_fexp_exact (Z.pos m) e ltac:(lia)) as H1. cbv zeta in H1.
  destruct (shr_fexp F64.prec F64.emax (Z.pos m) e loc_Exact) as [mrs' e'].
  cbn [fst snd] in H1. destruct H1 as (He' & Hm1 & Hloc).
  change (Zdigits2 (Z.pos m)) with (Z.pos (digits2_pos m)) in He'.
  fold e1 in He'. subst e'.
  set (n1 := (e1 - e)%Z) in *.
  assert (0 <= n1)%Z as Hn1 by (unfold n1, e1; lia).
  assert (0 < 2 ^ n1)%Z as Hp1 by (apply Z.pow_pos_nonneg; lia).
  set (m1 := shr_m mrs') in *.
  assert (0 <= m1)%Z as Hm1pos by (rewrite Hm1; apply Z.div_pos; lia).
  set (r1 := round_nearest_even m1 (loc_of_shr_record mrs')).
  destruct (round_nearest_even_bounds m1 (loc_of_shr_record mrs'))
    as [[Hlo Hhi] Hex]. fold r1 in Hlo, Hhi, Hex.
  assert (r1 * 2 ^ n1 <= Ue)%Z as Hr1.
  { pose proof (Z.div_mod (Z.pos m) (2 ^ n1) ltac:(lia)) as Hdm.
    pose proof (Z.mod_pos_bound (Z.pos m) (2 ^ n1) Hp1) as Hrem.
    rewrite <- Hm1 in Hdm.
    destruct (Z.eq_dec (Z.pos m mod 2 ^ n1) 0) as [Hz|Hnz].
    - rewrite (Hex (Hloc Hz)). lia.
    - apply Z.mod_divide in Hdiv; [|lia]. destruct Hdiv as [q Hq].
      assert (m1 < q)%Z by nia. nia. }
  pose proof (shr_fexp_exact r1 e1 ltac:(lia)) as H2. cbv zeta in H2.
  destruct (shr_fexp F64.prec F64.emax r1 e1 loc_Exact) as [mrs'' e''].
  cbn [fst snd] in H2. destruct H2 as (He'' & Hm2 & _).
  set (n2 := (e'' - e1)%Z) in *.
  assert (0 <= n2)%Z as Hn2 by (unfold n2; lia).
  assert (0 < 2 ^ n2)%Z as Hp2 by (apply Z.pow_pos_nonneg; lia).
  assert (r1 < 2 ^ (g - e1))%Z as Hr1g.
  { replace (g - e)%Z with ((g - e1) + n1)%Z in Hg by (unfold n1; lia).
    rewrite Z.pow_add_r in Hg by lia.
    assert (0 < 2 ^ (g - e1))%Z by (apply Z.pow_pos_nonneg; lia). nia. }
  pose proof (Zdigits2_upper_strict r1 (g - e1) ltac:(lia) ltac:(lia)) as Hd.
  assert (e'' <= Z.max e1 (g - 53))%Z as He2 by lia.
  pose proof (Z.div_mod r1 (2 ^ n2) ltac:(lia)) as Hdm2.
  pose proof (Z.mod_pos_bound r1 (2 ^ n2) Hp2) as Hrem2.
  rewrite <- Hm2 in Hdm2.
  destruct (shr_m mrs'') as [|m2|m2] eqn:Em2.
  - reflexivity.
  - assert ((e'' <=? F64.emax - F64.prec)%Z = true) as Hleb
      by (apply Z.leb_le; unfold F64.emax, F64.prec; lia).
    rewrite Hleb. split; [reflexivity|]. split; [lia|].
    replace (e'' - e)%Z with (n2 + n1)%Z by (unfold n1, n2; lia).
    rewrite Z.pow_add_r by lia. nia.
  - assert (0 <= r1 / 2 ^ n2)%Z by (apply Z.div_pos; lia). lia.
Qed.

Lemma digits2_pos_iter_xO (q d : positive) :
  Z.pos (digits2_pos (Pos.iter xO q d))
  = (Z.pos (digits2_pos q) + Z.pos d)%Z.
Proof.
  induction d as [|d IH] using Pos.peano_ind.
  - simpl. lia.
  - rewrite Pos.iter_succ. simpl digits2_pos.
    rewrite Pos2Z.inj_succ, IH. lia.
Qed.

(** The same for [binary_round], which first aligns the mantissa. *)
Lemma round_upper (q : positive) (e Ue g : Z) :
  let fe := Z.max (Z.pos (digits2_pos q) + e - 53) (-1074) in
  let b := Z.min e fe in
  (Z.pos q <= Ue)%Z -> (Ue < 2 ^ (g - e))%Z -> (fe <= g)%Z ->
  (Ue mod 2 ^ (Z.max e fe - e) = 0)%Z -> (Z.max fe (g - 53) <= 971)%Z ->
  match binary_round F64.prec F64.emax false q e with
  | S754_zero s => s = false
  | S754_finite s m2 e2 =>
      s = false /\ (fe <= e2 <= Z.max fe (g - 53))%Z /\
      (Z.pos m2 * 2 ^ (e2 - b) <= Ue * 2 ^ (e - b))%Z
  | _ => False
  end.
Proof.
  intros fe b Hq Hg Hfe Hdiv Hmax.
  assert (0 <= g - e)%Z as Hge.
  { destruct (Z.le_gt_cases 0 (g - e)) as [H|H]; [assumption|].
    rewrite Z.pow_neg_r in Hg by lia. lia. }
  unfold binary_round, shl_align. rewrite fexp64. fold fe.
  destruct (fe - e)%Z as [|d|d] eqn:Ed.
  - pose proof (round_aux_upper q e Ue g) as H. cbv zeta in H. fold fe in H.
    replace (Z.max e fe) with fe in H, Hdiv by lia.
    specialize (H Hq Hg Hfe Hdiv Hmax).
    destruct (binary_round_aux F64.prec F64.emax false (Z.pos q) e loc_Exact)
      as [s|s| |s m2 e2]; try assumption.
    destruct H as (Hs & He2 & Hv). repeat split; try assumption; try lia.
    unfold b. replace (Z.min e fe) with e by lia.
    rewrite Z.sub_diag, Z.mul_1_r. assumption.
  - pose proof (round_aux_upper q e Ue g) as H. cbv zeta in H. fold fe in H.
    replace (Z.max e fe) with fe in H, Hdiv by lia.
    specialize (H Hq Hg Hfe Hdiv Hmax).
    destruct (binary_round_aux F64.prec F64.emax false (Z.pos q) e loc_Exact)
      as [s|s| |s m2 e2]; try assumption.
    destruct H as (Hs & He2 & Hv). repeat split; try assumption; try lia.
    unfold b. replace (Z.min e fe) with e by lia.
    rewrite Z.sub_diag, Z.mul_1_r. assumption.
  - assert (e - fe = Z.pos d)%Z as Hd by lia.
    assert (0 < 2 ^ Z.pos d)%Z as Hpd by (apply Z.pow_pos_nonneg; lia).
    pose proof (round_aux_upper (Pos.iter xO q d) fe (Ue * 2 ^ Z.pos d) g)
      as H. cbv zeta in H.
    rewrite digits2_pos_iter_xO in H.
    replace (Z.max (Z.pos (digits2_pos q) + Z.pos d + fe - 53) (-1074))
      with fe in H by (unfold fe in *; lia).
    rewrite Z.max_id, Z.sub_diag in H. cbn [Z.pow] in H.
    rewrite iter_xO_pow2 in H.
    assert (Z.pos q * 2 ^ Z.pos d <= Ue * 2 ^ Z.pos d)%Z as H1 by nia.
    assert (Ue * 2 ^ Z.pos d < 2 ^ (g - fe))%Z as H2.
    { replace (g - fe)%Z with ((g - e) + Z.pos d)%Z by lia.
      rewrite Z.pow_add_r by lia. nia. }
    specialize (H H1 H2 Hfe (Z.mod_1_r _) Hmax).
    destruct (binary_round_aux F64.prec F64.emax false
                (Z.pos q * 2 ^ Z.pos d) fe loc_Exact)
      as [s|s| |s m2 e2] eqn:Er;
      rewrite <- iter_xO_pow2 in Er; rewrite Er; try assumption.
    destruct H as (Hs & He2 & Hv). repeat split; try assumption; try lia.
    unfold b. replace (Z.min e fe) with fe by lia. now rewrite Hd.
Qed.

(** [float(N)] is at most [N]. *)
Lemma of_Z_upper (p : positive) :
  (Z.pos p < 2 ^ 53)%Z ->
  match F64.of_Z (Z.pos p) with
  | S754_zero s => s = false
  | S754_finite s mn en =>
      s = false /\ (en <= 0)%Z /\ (Z.pos mn <= Z.pos p * 2 ^ (- en))%Z
  | _ => False
  end.
Proof.
  intros Hp. unfold F64.of_Z, binary_normalize.
  pose proof (Zdigits2_upper_strict (Z.pos p) 53 ltac:(lia) ltac:(lia)) as Hd.
  cbn [Zdigits2] in Hd.
  pose proof (round_upper p 0 (Z.pos p) 53) as H. cbv zeta in H.
  set (fe := Z.max (Z.pos (digits2_pos p) + 0 - 53) (-1074)) in *.
  assert (fe <= 0)%Z as Hfe by (unfold fe; lia).
  replace (Z.max 0 fe) with 0%Z in H by lia.
  replace (Z.min 0 fe) with fe in H by lia.
  specialize (H ltac:(lia) ltac:(rewrite Z.sub_0_r; exact Hp) ltac:(lia)
                (Z.mod_1_r _) ltac:(lia)).
  destruct (binary_round F64.prec F64.emax false p 0) as [s|s| |s mn en];
    try assumption.
  destruct H as (Hs & He & Hv). split; [assumption|]. split; [lia|].
  assert (0 < 2 ^ (en - fe))%Z by (apply Z.pow_pos_nonneg; lia).
  replace (0 - fe)%Z with ((- en) + (en - fe))%Z in Hv by lia.
  rewrite Z.pow_add_r in Hv by lia.
  assert (0 < 2 ^ (- en))%Z by (apply Z.pow_pos_nonneg; lia). nia.
Qed.



(** ** Sums of numbers are not NaN *)

Section NotNan.
Variables prec emax : Z.

Lemma shr_fexp_nonneg (m e : Z) (l : location) :
(0 <= m)%Z -> (0 <= shr_m (fst (shr_fexp prec emax m e l)))%Z.
Proof.
intros Hm. unfold shr_fexp, shr.
destruct (fexp prec emax (Zdigits2 m + e) - e)%Z as [|p|p]; cbn [fst];
  rewrite ?shr_m_of_loc; try assumption.
rewrite iter_pos_nat, iter_shr_1_div by (now rewrite shr_m_of_loc).
rewrite shr_m_of_loc. apply Z.div_pos; lia.
Qed.

Lemma binary_round_aux_not_nan (s : bool) (m : positive) (e : Z) (l : location) :
is_nan (binary_round_aux prec emax s (Z.pos m) e l) = false.
Proof.
unfold binary_round_aux.
pose proof (shr_fexp_nonneg (Z.pos m) e l ltac:(lia)) as H1.
destruct (shr_fexp prec emax (Z.pos m) e l) as [mrs' e']. cbn [fst] in H1.
pose proof (round_nearest_even_bounds (shr_m mrs') (loc_of_shr_record mrs'))
  as [[Hlo _] _].
pose proof (shr_fexp_nonneg
              (round_nearest_even (shr_m mrs') (loc_of_shr_record mrs'))
              e' loc_Exact ltac:(lia)) as H2.
destruct (shr_fexp prec emax _ e' loc_Exact) as [mrs'' e'']. cbn [fst] in H2.
destruct (shr_m mrs'') as [|p|p]; try lia; try reflexivity.
destruct (e'' <=? emax - prec)%Z; reflexivity.
Qed.

Lemma binary_normalize_not_nan (m e : Z) (sz : bool) :
is_nan (binary_normalize prec emax m e sz) = false.
Proof.
destruct m as [|p|p]; unfold binary_normalize, binary_round;
  try reflexivity;
  destruct (shl_align p e _) as [mz ez]; apply binary_round_aux_not_nan.
Qed.

Lemma SFadd_finite_not_nan (acc x : spec_float) :
is_nan acc = false -> is_finite x = true ->
is_nan (SFadd prec emax acc x) = false.
Proof.
destruct acc as [a|a| |a ma ea], x as [b|b| |b mb eb];
  try discriminate; intros _ _; try reflexivity.
- destruct a, b; reflexivity.
- apply binary_normalize_not_nan.
Qed.
End NotNan.

Lemma fold_add_not_nan (l : list f32) (acc : f32) :
  is_nan acc = false -> Forall (fun x => is_finite x = true) l ->
  is_nan (fold_left F32.add l acc) = false.
Proof.
  revert acc; induction l as [|x l IH]; intros acc Hacc Hl; simpl;
    [assumption|].
  inversion Hl; subst. apply IH; [|assumption].
  now apply SFadd_finite_not_nan.
Qed.

(** ** Mask cardinality *)

Lemma filter_length_perm {A : Type} (f : A -> bool) (l l' : list A) :
  Permutation l l' -> length (filter f l) = length (filter f l').
Proof.
  induction 1 as [|x l l' _ IH|x y l|l l' l'' _ IH1 _ IH2]; simpl.
  - reflexivity.
  - destruct (f x); simpl; congruence.
  - destruct (f x), (f y); reflexivity.
  - congruence.
Qed.

Lemma count_hidden_mask_row (N : nat) (k : Z) :
  count_hidden (mask_row N k) = N - slice_stop k N.
Proof.
  unfold count_hidden, mask_row. rewrite filter_app, length_app.
  assert (forall m, filter (fun x => F32.eqb x F32.one) (repeat F32.zero m) = [])
    as Hz by (induction m; simpl; auto).
  assert (forall m, filter (fun x => F32.eqb x F32.one) (repeat F32.one m)
                    = repeat F32.one m)
    as Ho by (induction m; simpl; [|change (F32.eqb F32.one F32.one) with true;
                                    cbv iota]; congruence).
  rewrite Hz, Ho, repeat_length. reflexivity.
Qed.

Lemma mask_row_binary (N : nat) (k : Z) :
  Forall (fun x => x = F32.zero \/ x = F32.one) (mask_row N k).
Proof.
  unfold mask_row. apply Forall_app. split; apply Forall_forall;
    intros x Hx; apply repeat_spec in Hx; auto.
Qed.

Lemma mask_cardinality_for_count (noise : list (list f32))
    (patches : list (list (list f32))) (mask_ratio : f64) (k : Z) :
  wf_noise patches noise -> (0 <= k)%Z ->
  len_keep (num_patches patches) mask_ratio = Ok k ->
  exists masked mask,
    random_masking_with noise patches mask_ratio = Ok (masked, mask) /\
    length mask = length patches /\
    Forall (fun row =>
              length row = num_patches patches /\
              Forall (fun x => x = F32.zero \/ x = F32.one) row /\
              count_hidden row = num_patches patches - Z.to_nat k)
           mask.
Proof.
  intros [Hnl Hnz] Hk0 Hk.
  rewrite (random_masking_with_rows noise patches mask_ratio k Hk).
  do 2 eexists. split; [reflexivity|].
  split; [now rewrite length_map|].
  apply Forall_map. revert Hnz. apply Forall_impl. intros nz Hl.
  pose proof (row_mask_perm (num_patches patches) k nz Hl) as Hp.
  split; [now rewrite length_row_mask|]. split.
  - apply (Permutation_Forall (Permutation_sym Hp)), mask_row_binary.
  - unfold count_hidden.
    rewrite (filter_length_perm _ _ _ Hp).
    fold (count_hidden (mask_row (num_patches patches) k)).
    rewrite count_hidden_mask_row. unfold slice_stop.
    destruct (Z.ltb_spec k 0); lia.
Qed.

(** ** Sums of zeros *)

Lemma fold_add_zero_or_nan (l : list f32) (acc : f32) :
  zero_or_nan acc -> Forall zero_or_nan l ->
  zero_or_nan (fold_left F32.add l acc).
Proof.
  revert acc; induction l as [|x l IH]; intros acc Hacc Hl; simpl;
    [assumption|].
  inversion Hl as [|x' l' Hx Hl']; subst. apply IH; [|assumption].
  destruct acc as [a|a| |a ma ea], x as [b|b| |b mb eb];
    destruct Hacc as [Hacc|Hacc], Hx as [Hx|Hx]; try discriminate;
    try (right; reflexivity).
  left. destruct a, b; reflexivity.
Qed.

Lemma fold_add_zero (l : list f32) (acc : f32) :
  is_zero acc = true -> Forall (fun x => is_zero x = true) l ->
  is_zero (fold_left F32.add l acc) = true.
Proof.
  revert acc; induction l as [|x l IH]; intros acc Hacc Hl; simpl;
    [assumption|].
  inversion Hl as [|x' l' Hx Hl']; subst. apply IH; [|assumption].
  destruct acc as [a|a| |a ma ea]; try discriminate.
  destruct x as [b|b| |b mb eb]; try discriminate.
  destruct a, b; reflexivity.
Qed.

Lemma mul_zero_r (e w : f32) :
  is_zero w = true -> zero_or_nan (F32.mul e w).
Proof.
  destruct w as [b|b| |b mb eb]; try discriminate. intros _.
  destruct e as [a|a| |a ma ea]; simpl; [left|right|right|left]; reflexivity.
Qed.

Lemma div_by_zero_nan (x y : f32) :
  zero_or_nan x -> is_zero y = true -> F32.div x y = S754_nan.
Proof.
  intros [Hx| ->] Hy; destruct y as [b|b| |b mb eb]; try discriminate;
    [|reflexivity].
  destruct x as [a|a| |a ma ea]; try discriminate. reflexivity.
Qed.

(** ** Shapes that go together *)

Lemma same_shape2_rows {A C : Type} (a : list (list A)) (m : list (list C)) :
  same_shape2 a m = true ->
  length a = length m /\
  forall x y, In (x, y) (combine a m) -> length x = length y.
Proof.
  unfold same_shape2. intros H. apply andb_prop in H. destruct H as [H1 H2].
  apply Nat.eqb_eq in H1. split; [assumption|].
  intros x y Hin. rewrite forallb_forall in H2.
  specialize (H2 _ Hin). now apply Nat.eqb_eq in H2.
Qed.

Lemma Forall_concat {A : Type} (P : A -> Prop) (ll : list (list A)) :
  Forall (Forall P) ll -> Forall P (concat ll).
Proof.
  induction 1 as [|l ll Hl _ IH]; simpl; [constructor|].
  apply Forall_app. now split.
Qed.

Lemma compute_loss_zero_mask_nan
    (original reconstructed : list (list (list f32))) (mask : list (list f32)) :
  same_shape3 original reconstructed = true ->
  same_shape2 original mask = true ->
  Forall (Forall (fun w => is_zero w = true)) mask ->
  compute_loss original reconstructed mask = Ok S754_nan.
Proof.
  intros H3 H2 Hz. unfold compute_loss. rewrite H3, H2. cbn [andb].
  f_equal. apply div_by_zero_nan.
  - apply fold_add_zero_or_nan; [left; reflexivity|].
    apply Forall_concat.
    apply Forall_map. apply Forall_forall. intros [l m] Hin.
    apply Forall_map. apply Forall_forall. intros [e w] Hin'.
    apply mul_zero_r.
    apply in_combine_r in Hin, Hin'.
    rewrite Forall_forall in Hz. specialize (Hz _ Hin).
    rewrite Forall_forall in Hz. now apply Hz.
  - apply fold_add_zero; [reflexivity|]. now apply Forall_concat.
Qed.

(** C7: on arguments of matching shapes [compute_loss] raises nothing and
    returns a number; when no patch is hidden (every mask entry is zero)
    the zero denominator is not guarded and the value returned is NaN. *)
Theorem compute_loss_zero_mask
    (original reconstructed : list (list (list f32))) (mask : list (list f32)) :
  same_shape3 original reconstructed = true ->
  same_shape2 original mask = true ->
  (exists loss, compute_loss original reconstructed mask = Ok loss) /\
  (Forall (Forall (fun w => is_zero w = true)) mask ->
   compute_loss original reconstructed mask = Ok S754_nan).
Proof.
  intros H3 H2. split.
  - unfold compute_loss. rewrite H3, H2. cbn [andb]. eexists. reflexivity.
  - now apply compute_loss_zero_mask_nan.
Qed.

(** ** The error surface entry by entry *)

Lemma same_shape3_elim {A : Type} (a b : list (list (list A))) :
  same_shape3 a b = true ->
  length a = length b /\
  forall i, i < length a ->
    length (nth i a []) = length (nth i b []) /\
    forall j, j < length (nth i a []) ->
      length (nth j (nth i a []) []) = length (nth j (nth i b []) []).
Proof.
  unfold same_shape3. intros H. apply andb_prop in H. destruct H as [H1 H2].
  apply Nat.eqb_eq in H1. split; [assumption|]. intros i Hi.
  rewrite forallb_forall in H2.
  assert (In (nth i a [], nth i b []) (combine a b)) as Hin.
  { rewrite <- combine_nth by assumption. apply nth_In.
    rewrite length_combine. lia. }
  specialize (H2 _ Hin). cbv beta iota in H2.
  apply andb_prop in H2. destruct H2 as [H2 H3].
  apply Nat.eqb_eq in H2. split; [assumption|]. intros j Hj.
  rewrite forallb_forall in H3.
  assert (In (nth j (nth i a []) [], nth j (nth i b []) [])
             (combine (nth i a []) (nth i b []))) as Hin'.
  { rewrite <- combine_nth by assumption. apply nth_In.
    rewrite length_combine. lia. }
  specialize (H3 _ Hin'). now apply Nat.eqb_eq in H3.
Qed.

Lemma same_shape2_elim {A C : Type} (a : list (list A)) (m : list (list C)) :
  same_shape2 a m = true ->
  length a = length m /\
  forall i, i < length a -> length (nth i a []) = length (nth i m []).
Proof.
  intros H. apply same_shape2_rows in H. destruct H as [H1 H2].
  split; [assumption|]. intros i Hi. apply H2.
  rewrite <- combine_nth by assumption. apply nth_In.
  rewrite length_combine. lia.
Qed.

Lemma length_weighted_errors (original reconstructed : list (list (list f32)))
    (mask : list (list f32)) :
  length original = length reconstructed -> length original = length mask ->
  length (weighted_errors original reconstructed mask) = length original.
Proof.
  intros H1 H2. unfold weighted_errors.
  rewrite length_map, length_combine, length_map, length_combine. lia.
Qed.

Lemma nth_weighted_row (original reconstructed : list (list (list f32)))
    (mask : list (list f32)) (b : nat) :
  length original = length reconstructed -> length original = length mask ->
  b < length original ->
  nth b (weighted_errors original reconstructed mask) []
  = map (fun '(e, w) => F32.mul e w)
        (combine (map (fun '(x, y) => patch_error x y)
                      (combine (nth b original []) (nth b reconstructed [])))
                 (nth b mask [])).
Proof.
  intros H1 H2 Hb. unfold weighted_errors.
  rewrite (nth_map_combine _ _ mask b [] [] [])
    by (rewrite ?length_map, ?length_combine; lia).
  f_equal. f_equal.
  now rewrite (nth_map_combine _ original reconstructed b [] [] []) by lia.
Qed.

Lemma nth_weighted_entry (o r : list (list f32)) (m : list f32) (n : nat) :
  length o = length r -> length o = length m -> n < length o ->
  nth n (map (fun '(e, w) => F32.mul e w)
             (combine (map (fun '(x, y) => patch_error x y) (combine o r)) m))
      F32.zero
  = F32.mul (patch_error (nth n o []) (nth n r [])) (nth n m F32.zero).
Proof.
  intros H1 H2 Hn.
  rewrite (nth_map_combine _ _ m n F32.zero F32.zero F32.zero)
    by (rewrite ?length_map, ?length_combine; lia).
  f_equal.
  now rewrite (nth_map_combine _ o r n [] [] F32.zero) by lia.
Qed.

(** ** Errors are not negative *)

Lemma fold_add_sign (l : list f32) (acc : f32) :
  sign_is false acc -> Forall (sign_is false) l ->
  sign_is false (fold_left F32.add l acc).
Proof.
  revert acc; induction l as [|x l IH]; intros acc Hacc Hl; simpl;
    [assumption|].
  inversion Hl; subst. apply IH; [|assumption]. now apply SFadd_sign.
Qed.

Lemma patch_error_sign (o r : list f32) : sign_is false (patch_error o r).
Proof.
  unfold patch_error. change false with (xorb false false).
  apply SFdiv_sign.
  - apply fold_add_sign; [reflexivity|].
    apply Forall_map, Forall_forall. intros [x y] _. apply sign_is_square.
  - apply binary_normalize_sign. lia.
Qed.

Lemma mul_finite_zero (e w : f32) :
  sign_is false e -> is_finite e = true -> is_zero w = true ->
  F32.mul e w = w.
Proof.
  destruct w as [b|b| |b mb eb]; try discriminate. intros Hs Hf _.
  destruct e as [a|a| |a ma ea]; try discriminate; simpl in Hs; subst a;
    reflexivity.
Qed.

(** C5 (amended): for an original sequence and a mask, two
    reconstructions that agree at every hidden position (nonzero mask
    entry) and whose error at every visible position (zero mask entry) is
    a finite number get the same loss. *)
Theorem loss_ignores_finite_visible_errors
    (original rec1 rec2 : list (list (list f32))) (mask : list (list f32)) :
  same_shape3 original rec1 = true ->
  same_shape3 original rec2 = true ->
  same_shape2 original mask = true ->
  (forall b n, b < length original -> n < length (nth b original []) ->
     let o := nth n (nth b original []) [] in
     let r1 := nth n (nth b rec1 []) [] in
     let r2 := nth n (nth b rec2 []) [] in
     if is_zero (nth n (nth b mask []) F32.zero)
     then is_finite (patch_error o r1) = true /\
          is_finite (patch_error o r2) = true
     else r1 = r2) ->
  compute_loss original rec1 mask = compute_loss original rec2 mask.
Proof.
  intros S1 S2 Sm H. unfold compute_loss. rewrite S1, S2, Sm. cbn [andb].
  fold (weighted_errors original rec1 mask).
  fold (weighted_errors original rec2 mask).
  destruct (same_shape3_elim _ _ S1) as [L1 R1].
  destruct (same_shape3_elim _ _ S2) as [L2 R2].
  destruct (same_shape2_elim _ _ Sm) as [Lm Rm].
  do 4 f_equal.
  apply nth_ext with (d := []) (d' := []).
  - now rewrite !length_weighted_errors.
  - intros b Hb. rewrite length_weighted_errors in Hb by assumption.
    rewrite !nth_weighted_row by assumption.
    destruct (R1 b Hb) as [N1 _]. destruct (R2 b Hb) as [N2 _].
    pose proof (Rm b Hb) as Nm.
    apply nth_ext with (d := F32.zero) (d' := F32.zero).
    + rewrite !length_map, !length_combine, !length_map, !length_combine. lia.
    + intros n Hn.
      rewrite length_map, length_combine, length_map, length_combine in Hn.
      assert (n < length (nth b original [])) as Hn' by lia.
      rewrite !nth_weighted_entry by lia.
      specialize (H b n Hb Hn'). cbv zeta in H.
      destruct (is_zero (nth n (nth b mask []) F32.zero)) eqn:Z.
      * destruct H as [F1 F2].
        rewrite !mul_finite_zero;
          auto using patch_error_sign.
      * now rewrite H.
Qed.

(** ** [compute_loss] against the worded definition *)

Lemma has_shape3_nth {A : Type} (B N D : nat) (t : list (list (list A))) :
  has_shape3 B N D t ->
  length t = B /\
  forall b, b < B ->
    length (nth b t []) = N /\
    forall n, n < N -> length (nth n (nth b t []) []) = D.
Proof.
  intros [HB Hrows]. split; [assumption|]. intros b Hb.
  rewrite Forall_forall in Hrows.
  destruct (Hrows (nth b t []) ltac:(apply nth_In; lia)) as [HN Hp].
  split; [assumption|]. intros n Hn. rewrite Forall_forall in Hp.
  apply Hp, nth_In. lia.
Qed.

Lemma has_shape2_nth {A : Type} (B N : nat) (m : list (list A)) :
  has_shape2 B N m ->
  length m = B /\ forall b, b < B -> length (nth b m []) = N.
Proof.
  intros [HB Hrows]. split; [assumption|]. intros b Hb.
  rewrite Forall_forall in Hrows. apply Hrows, nth_In. lia.
Qed.

Lemma same_shape2_intro {A C : Type} (a : list (list A)) (m : list (list C)) :
  length a = length m ->
  (forall i, i < length a -> length (nth i a []) = length (nth i m [])) ->
  same_shape2 a m = true.
Proof.
  intros Hl H. unfold same_shape2.
  rewrite (proj2 (Nat.eqb_eq _ _) Hl). simpl.
  apply forallb_forall. intros [x y] Hin.
  apply In_nth with (d := ([], [])) in Hin.
  destruct Hin as (i & Hi & E). rewrite length_combine in Hi.
  rewrite combine_nth in E by assumption. inversion E; subst.
  apply Nat.eqb_eq, H. lia.
Qed.

Lemma shapes_go_together (B N D : nat)
    (original reconstructed : list (list (list f32))) (mask : list (list f32)) :
  has_shape3 B N D original -> has_shape3 B N D reconstructed ->
  has_shape2 B N mask ->
  same_shape3 original reconstructed = true /\
  same_shape2 original mask = true.
Proof.
  intros Ho Hr Hm.
  apply has_shape3_nth in Ho, Hr. apply has_shape2_nth in Hm.
  destruct Ho as [Lo Ho], Hr as [Lr Hr], Hm as [Lm Hm]. split.
  - apply same_shape3_intro; [congruence|]. intros b Hb. rewrite Lo in Hb.
    destruct (Ho b Hb) as [No Do], (Hr b Hb) as [Nr Dr].
    split; [congruence|]. intros n Hn. rewrite No in Hn.
    rewrite Do, Dr by assumption. reflexivity.
  - apply same_shape2_intro; [congruence|]. intros b Hb. rewrite Lo in Hb.
    destruct (Ho b Hb) as [No _]. rewrite No, Hm by assumption. reflexivity.
Qed.

Lemma map_seq_nth {A : Type} (l : list A) (d : A) :
  map (fun i => nth i l d) (seq 0 (length l)) = l.
Proof.
  apply nth_ext with (d := d) (d' := d).
  - now rewrite length_map, length_seq.
  - intros n Hn. rewrite length_map, length_seq in Hn.
    rewrite nth_indep with (d' := nth 0 l d)
      by (now rewrite length_map, length_seq).
    rewrite (map_nth (fun i => nth i l d)). now rewrite seq_nth.
Qed.

Lemma nth_map_seq {A : Type} (f : nat -> A) (len n : nat) (d : A) :
  n < len -> nth n (map f (seq 0 len)) d = f n.
Proof.
  intros Hn.
  rewrite nth_indep with (d' := f 0) by (now rewrite length_map, length_seq).
  rewrite map_nth. now rewrite seq_nth.
Qed.

Lemma map_combine_seq {A C : Type} (f : A * A -> C) (o r : list A) (d : A) :
  length o = length r ->
  map f (combine o r)
  = map (fun i => f (nth i o d, nth i r d)) (seq 0 (length o)).
Proof.
  intros Hl. apply nth_ext with (d := f (d, d)) (d' := f (d, d)).
  - now rewrite !length_map, length_combine, length_seq, <- Hl, Nat.min_id.
  - intros n Hn. rewrite length_map, length_combine, <- Hl, Nat.min_id in Hn.
    rewrite map_nth, combine_nth by assumption.
    rewrite nth_indep
      with (d' := (fun i => f (nth i o d, nth i r d)) 0)
      by (now rewrite length_map, length_seq).
    rewrite (map_nth (fun i => f (nth i o d, nth i r d))).
    now rewrite seq_nth.
Qed.

Lemma patch_error_surface (D : nat)
    (original reconstructed : list (list (list f32))) (b n : nat) :
  length (nth n (nth b original []) []) = D ->
  length (nth n (nth b reconstructed []) []) = D ->
  patch_error (nth n (nth b original []) []) (nth n (nth b reconstructed []) [])
  = error_surface D original reconstructed b n.
Proof.
  intros Ho Hr. unfold patch_error, error_surface.
  rewrite (map_combine_seq _ _ _ F32.zero) by congruence.
  now rewrite Ho.
Qed.

Lemma compute_loss_refines (B N D : nat)
    (original reconstructed : list (list (list f32))) (mask : list (list f32)) :
  has_shape3 B N D original -> has_shape3 B N D reconstructed ->
  has_shape2 B N mask ->
  compute_loss original reconstructed mask
  = Ok (masked_loss_spec B N D original reconstructed mask).
Proof.
  intros Ho Hr Hm.
  destruct (shapes_go_together B N D _ _ _ Ho Hr Hm) as [S3 S2].
  unfold compute_loss. rewrite S3, S2. cbn [andb].
  fold (weighted_errors original reconstructed mask).
  apply has_shape3_nth in Ho, Hr. apply has_shape2_nth in Hm.
  destruct Ho as [Lo Ho], Hr as [Lr Hr], Hm as [Lm Hm].
  unfold masked_loss_spec. rewrite !flat_map_concat_map.
  do 4 f_equal.
  - apply nth_ext with (d := []) (d' := []).
    + rewrite length_weighted_errors by congruence.
      now rewrite length_map, length_seq.
    + intros b Hb. rewrite length_weighted_errors in Hb by congruence.
      rewrite Lo in Hb.
      rewrite nth_weighted_row by congruence.
      rewrite nth_map_seq by assumption.
      destruct (Ho b Hb) as [No Do], (Hr b Hb) as [Nr Dr].
      pose proof (Hm b Hb) as Nm.
      apply nth_ext with (d := F32.zero) (d' := F32.zero).
      * rewrite !length_map, !length_combine, !length_map, !length_combine,
          length_seq. lia.
      * intros n Hn.
        rewrite length_map, length_combine, length_map, length_combine in Hn.
        assert (n < N) as Hn' by lia.
        rewrite nth_weighted_entry by lia.
        rewrite nth_map_seq by assumption.
        now rewrite patch_error_surface with (D := D) by auto.
  - apply nth_ext with (d := []) (d' := []).
    + now rewrite length_map, length_seq.
    + intros b Hb. rewrite Lm in Hb.
      rewrite nth_map_seq by assumption.
      rewrite <- (Hm b Hb). symmetry. apply map_seq_nth.
Qed.

(** ** Exact reconstruction *)

Lemma sub_self (x : f32) :
  is_finite x = true -> F32.sub x x = S754_zero false.
Proof.
  destruct x as [s|s| |s m e]; try discriminate; intros _.
  - now destruct s.
  - unfold F32.sub, SFsub. now rewrite Z.sub_diag.
Qed.

Lemma fold_add_pos_zero (l : list f32) :
  Forall (fun x => x = S754_zero false) l ->
  fold_left F32.add l (S754_zero false) = S754_zero false.
Proof.
  induction 1 as [|x l -> _ IH]; simpl; [reflexivity | exact IH].
Qed.

Lemma in_combine_same {A : Type} (l : list A) (x y : A) :
  In (x, y) (combine l l) -> x = y /\ In x l.
Proof.
  induction l as [|a l IH]; simpl; [tauto|].
  intros [H|H]; [inversion H; subst; auto|].
  apply IH in H. tauto.
Qed.

Lemma patch_error_self (o : list f32) :
  Forall (fun x => is_finite x = true) o -> 0 < length o ->
  patch_error o o = S754_zero false.
Proof.
  intros Hf Hl. unfold patch_error, fsum. rewrite fold_add_pos_zero.
  - pose proof (of_nat_nonzero (length o) Hl) as Hn.
    destruct (F32.of_nat (length o)) as [b|b| |b m e]; try contradiction;
      destruct b; try contradiction; reflexivity.
  - apply Forall_map, Forall_forall. intros [x y] Hin.
    apply in_combine_same in Hin. destruct Hin as [<- Hin].
    rewrite Forall_forall in Hf. now rewrite sub_self by auto.
Qed.

Lemma mul_zero_finite (w : f32) :
  is_finite w = true -> is_zero (F32.mul (S754_zero false) w) = true.
Proof. destruct w; try discriminate; reflexivity. Qed.

Lemma div_zero_l (x den : f32) :
  is_zero x = true -> is_zero den = false -> is_nan den = false ->
  is_zero (F32.div x den) = true.
Proof.
  destruct x; try discriminate. destruct den; try discriminate; reflexivity.
Qed.

Lemma exact_reconstruction_zero (B N D : nat)
    (original : list (list (list f32))) (mask : list (list f32)) :
  has_shape3 B N D original -> has_shape2 B N mask -> 0 < D ->
  Forall (Forall (Forall (fun x => is_finite x = true))) original ->
  Forall (Forall (fun w => is_finite w = true)) mask ->
  is_zero (fsum (concat mask)) = false ->
  exists loss,
    compute_loss original original mask = Ok loss /\ is_zero loss = true.
Proof.
  intros Ho Hm HD Hfin Hmask Hz.
  assert (is_nan (fsum (concat mask)) = false) as Hn
    by (apply fold_add_not_nan; [reflexivity | now apply Forall_concat]).
  destruct (shapes_go_together B N D _ _ _ Ho Ho Hm) as [S3 S2].
  unfold compute_loss. rewrite S3, S2. cbn [andb].
  eexists. split; [reflexivity|].
  apply div_zero_l; try assumption.
  apply fold_add_zero; [reflexivity|].
  apply Forall_concat, Forall_map, Forall_forall. intros [l m] Hin.
  apply Forall_map, Forall_forall. intros [e w] Hin'.
  pose proof (in_combine_l _ _ _ _ Hin) as Hl.
  pose proof (in_combine_r _ _ _ _ Hin) as Hmrow.
  pose proof (in_combine_l _ _ _ _ Hin') as He.
  pose proof (in_combine_r _ _ _ _ Hin') as Hw.
  apply in_map_iff in Hl. destruct Hl as ([o r] & <- & Hor).
  apply in_combine_same in Hor. destruct Hor as [<- Ho'].
  apply in_map_iff in He. destruct He as ([x y] & <- & Hxy).
  apply in_combine_same in Hxy. destruct Hxy as [<- Hx].
  destruct Ho as [_ Hrows].
  rewrite Forall_forall in Hrows, Hfin, Hmask.
  destruct (Hrows _ Ho') as [_ Hp]. rewrite Forall_forall in Hp.
  pose proof (Hfin _ Ho') as Hfo. rewrite Forall_forall in Hfo.
  pose proof (Hmask _ Hmrow) as Hfm. rewrite Forall_forall in Hfm.
  rewrite patch_error_self.
  - apply mul_zero_finite. now apply Hfm.
  - now apply Hfo.
  - rewrite (Hp _ Hx). exact HD.
Qed.

(** ** Degenerate keep counts *)

Lemma Forall_eq_repeat {A : Type} (x : A) (l : list A) :
  Forall (fun y => y = x) l -> l = repeat x (length l).
Proof. induction 1 as [|y l -> _ IH]; simpl; congruence. Qed.

Lemma row_mask_keep_none (N : nat) (nz : list f32) :
  length nz = N -> row_mask N 0 nz = repeat F32.one N.
Proof.
  intros Hl. pose proof (row_mask_perm N 0 nz Hl) as Hp.
  assert (Forall (fun y => y = F32.one) (row_mask N 0 nz)) as Hall.
  { apply (Permutation_Forall (Permutation_sym Hp)).
    unfold mask_row, slice_stop. simpl. rewrite Nat.sub_0_r.
    apply Forall_forall. intros x Hx. now apply repeat_spec in Hx. }
  rewrite (Forall_eq_repeat _ _ Hall), length_row_mask. now rewrite Hl.
Qed.

Lemma row_mask_keep_all (N : nat) (nz : list f32) :
  length nz = N -> row_mask N (Z.of_nat N) nz = repeat F32.zero N.
Proof.
  intros Hl. pose proof (row_mask_perm N (Z.of_nat N) nz Hl) as Hp.
  assert (Forall (fun y => y = F32.zero) (row_mask N (Z.of_nat N) nz)) as Hall.
  { apply (Permutation_Forall (Permutation_sym Hp)).
    unfold mask_row.
    replace (slice_stop (Z.of_nat N) N) with N
      by (unfold slice_stop; destruct (Z.ltb_spec (Z.of_nat N) 0); lia).
    rewrite Nat.sub_diag, app_nil_r.
    apply Forall_forall. intros x Hx. now apply repeat_spec in Hx. }
  rewrite (Forall_eq_repeat _ _ Hall), length_row_mask. now rewrite Hl.
Qed.

Lemma row_masked_keep_none (N : nat) (nz : list f32) (row : list (list f32)) :
  row_masked N 0 nz row = map (map (fun _ => F32.zero)) row.
Proof. reflexivity. Qed.

Lemma row_masked_keep_all (N : nat) (nz : list f32) (row : list (list f32)) :
  length nz = N -> length row = N ->
  row_masked N (Z.of_nat N) nz row = row.
Proof.
  intros Hnz Hrow. apply nth_ext with (d := []) (d' := []).
  - apply length_row_masked.
  - intros n Hn. rewrite length_row_masked, Hrow in Hn.
    rewrite nth_row_masked by assumption.
    replace (slice_stop (Z.of_nat N) N) with N
      by (unfold slice_stop; destruct (Z.ltb_spec (Z.of_nat N) 0); lia).
    assert (nth n (argsort Nat.leb (argsort F32.leb nz)) 0 < N) as Hr.
    { rewrite <- Hnz, <- (length_argsort F32.leb nz).
      apply (argsort_lt Nat.leb), nth_In.
      rewrite !length_argsort. lia. }
    now rewrite (proj2 (Nat.ltb_lt _ _) Hr).
Qed.

Lemma map_combine_fst {P Q R : Type} (f : P -> R) (g : P * Q -> R)
    (ps : list P) (qs : list Q) :
  length qs = length ps ->
  (forall p q, In (p, q) (combine ps qs) -> g (p, q) = f p) ->
  map g (combine ps qs) = map f ps.
Proof.
  revert qs; induction ps as [|p ps IH]; intros [|q qs] Hl H; simpl in *;
    try discriminate; [reflexivity|].
  rewrite H by (now left). f_equal. apply IH; [lia|]. auto.
Qed.

Lemma map_const_repeat {A C : Type} (c : C) (l : list A) :
  map (fun _ => c) l = repeat c (length l).
Proof. induction l; simpl; congruence. Qed.

(** C10: [random_masking] raises nothing at the degenerate keep counts.
    With a keep count of 0 it returns the all-zero sequence and the
    all-ones mask; with a keep count of [N] it returns the input and the
    all-zero mask, on which [compute_loss] then divides by zero and
    returns NaN. *)
Theorem degenerate_keep_counts (noise : list (list f32))
    (patches : list (list (list f32))) (mask_ratio : f64) (D : nat) :
  wf_patches D patches -> wf_noise patches noise ->
  let N := num_patches patches in
  let B := length patches in
  (len_keep N mask_ratio = Ok 0%Z ->
   random_masking_with noise patches mask_ratio
   = Ok (zeros_like patches, repeat (repeat F32.one N) B)) /\
  (len_keep N mask_ratio = Ok (Z.of_nat N) ->
   random_masking_with noise patches mask_ratio
   = Ok (patches, repeat (repeat F32.zero N) B) /\
   forall reconstructed,
     same_shape3 patches reconstructed = true ->
     compute_loss patches reconstructed (repeat (repeat F32.zero N) B)
     = Ok S754_nan).
Proof.
  intros Hwf [Hnl Hnz] N B. rewrite Forall_forall in Hnz.
  unfold wf_patches in Hwf. rewrite Forall_forall in Hwf. split.
  - intros Hk.
    rewrite (random_masking_with_rows noise patches mask_ratio 0 Hk). fold N.
    do 2 f_equal.
    + unfold zeros_like. apply map_combine_fst; [assumption|]. reflexivity.
    + unfold B. rewrite <- Hnl, <- map_const_repeat.
      apply map_ext_in. intros nz Hin. apply row_mask_keep_none. now apply Hnz.
  - intros Hk. split.
    + rewrite (random_masking_with_rows noise patches mask_ratio _ Hk). fold N.
      do 2 f_equal.
      * rewrite <- (map_id patches) at 2.
        apply map_combine_fst; [assumption|]. intros row nz Hin.
        apply row_masked_keep_all.
        -- apply Hnz. eapply in_combine_r; eassumption.
        -- apply Hwf. eapply in_combine_l; eassumption.
      * unfold B. rewrite <- Hnl, <- map_const_repeat.
        apply map_ext_in. intros nz Hin. apply row_mask_keep_all.
        now apply Hnz.
    + intros reconstructed S3. apply compute_loss_zero_mask_nan; [assumption| |].
      * apply same_shape2_intro; [now rewrite repeat_length|].
        intros b Hb.
        rewrite nth_repeat_lt by assumption. rewrite repeat_length.
        apply Hwf, nth_In. assumption.
      * apply Forall_forall. intros row Hrow. apply repeat_spec in Hrow.
        subst row. apply Forall_forall. intros w Hw.
        apply repeat_spec in Hw. now subst w.
Qed.

(** ** The default generator *)

(** A call draws one [B] by [N] tensor of noise and runs the body on it. *)
Lemma random_masking_draws_once (generator : Type)
    (torch_rand : nat -> nat -> generator -> list (list f32) * generator)
    (patches : list (list (list f32))) (mask_ratio : f64) (g : generator)
    (k : Z) :
  len_keep (num_patches patches) mask_ratio = Ok k ->
  random_masking torch_rand patches mask_ratio g
  = (random_masking_with
       (fst (torch_rand (length patches) (num_patches patches) g))
       patches mask_ratio,
     snd (torch_rand (length patches) (num_patches patches) g)).
Proof.
  intros Hk. unfold random_masking. rewrite Hk.
  now destruct (torch_rand (length patches) (num_patches patches) g).
Qed.

(** When the keep count cannot be computed the call raises before any
    noise is drawn. *)
Lemma random_masking_raises_before_draw (generator : Type)
    (torch_rand : nat -> nat -> generator -> list (list f32) * generator)
    (patches : list (list (list f32))) (mask_ratio : f64) (g : generator)
    (e : error) :
  len_keep (num_patches patches) mask_ratio = Raise e ->
  random_masking torch_rand patches mask_ratio g = (Raise e, g).
Proof. intros Hk. unfold random_masking. now rewrite Hk. Qed.


(** * Worked inputs *)

Example patchify_2x2 :
  patchify (mkTensor [1; 1; 2; 2] [10; 11; 12; 13]) 1
  = Ok (mkTensor [1; 4; 1] [10; 11; 12; 13]).
Proof. reflexivity. Qed.

(** Patches are listed row by row of the grid, and each patch row by
    row of its pixels. *)
Example patchify_grid_order :
  patchify (mkTensor [1; 1; 4; 4] (seq 0 16)) 2
  = Ok (mkTensor [1; 4; 4]
          [0; 1; 4; 5; 2; 3; 6; 7; 8; 9; 12; 13; 10; 11; 14; 15]).
Proof. reflexivity. Qed.

(** Within a patch the channels of a pixel are contiguous. *)
Example patchify_two_channels :
  patchify (mkTensor [1; 2; 2; 2] [1; 2; 3; 4; 5; 6; 7; 8]) 2
  = Ok (mkTensor [1; 1; 8] [1; 5; 2; 6; 3; 7; 4; 8]).
Proof. reflexivity. Qed.

Example unpatchify_two_channels :
  unpatchify (mkTensor [1; 1; 8] [1; 5; 2; 6; 3; 7; 4; 8]) 2
  = Ok (mkTensor [1; 2; 2; 2] [1; 2; 3; 4; 5; 6; 7; 8]).
Proof. reflexivity. Qed.

(** A batch of shape [2,3,8,8] with patches of size 4 gives [2,4,48]. *)
Example patchify_scenario_shape :
  exists patches,
    patchify (mkTensor [2; 3; 8; 8] (seq 0 384)) 4 = Ok patches /\
    shape patches = [2; 4; 48].
Proof. eexists. split; [vm_compute; reflexivity | reflexivity]. Qed.

(** Four patches in a row of four are decoded as a 2 by 2 grid. *)
Example unpatchify_row_as_square :
  patchify (mkTensor [1; 1; 1; 4] [1; 2; 3; 4]) 1
  = Ok (mkTensor [1; 4; 1] [1; 2; 3; 4]) /\
  unpatchify (mkTensor [1; 4; 1] [1; 2; 3; 4]) 1
  = Ok (mkTensor [1; 1; 2; 2] [1; 2; 3; 4]).
Proof. split; reflexivity. Qed.

Example patchify_zero_patch_size :
  patchify (mkTensor [1; 1; 2; 2] [10; 11; 12; 13]) 0 = Raise ZeroDivisionError.
Proof. reflexivity. Qed.

(** The notebook keeps 16 of 64 patches at ratio 0.75. *)
Example len_keep_notebook : len_keep 64 ratio_notebook = Ok 16%Z.
Proof. vm_compute. reflexivity. Qed.

Example len_keep_half : len_keep 4 ratio_half = Ok 2%Z.
Proof. vm_compute. reflexivity. Qed.

(** The product is rounded before it is truncated: [1 - (0.1 + 0.2)] is
    just below 0.7 and ten times it rounds to [7.0]. *)
Example len_keep_rounds_product : len_keep 10 ratio_three_tenths = Ok 7%Z.
Proof. vm_compute. reflexivity. Qed.

Example random_masking_half :
  random_masking counter_rand sample_patches ratio_half 0
  = (Ok ([[[F32.of_nat 1]; [F32.zero]; [F32.of_nat 3]; [F32.zero]]],
         sample_mask), 4).
Proof. vm_compute. reflexivity. Qed.

(** Errors 1 and 4 over a patch of two values have mean 2.5. *)
Example compute_loss_mean :
  compute_loss [[[F32.of_nat 1; F32.of_nat 3]]] [[[F32.of_nat 2; F32.of_nat 1]]]
               [[F32.one]]
  = Ok (F32.div (F32.of_nat 5) (F32.of_nat 2)).
Proof. vm_compute. reflexivity. Qed.

(** * The theorems at concrete inputs *)

Lemma patchify_unpatchify_square_instance :
  let imgs := mkTensor [1; 2; 4; 4] (seq 0 32) in
  (0 < 2 /\ wf_tensor imgs /\ shape imgs = [1; 2; 4; 4] /\ 4 mod 2 = 0) /\
  exists patches,
    patchify imgs 2 = Ok patches /\ unpatchify patches 2 = Ok imgs.
Proof.
  cbv zeta.
  assert (0 < 2) as HP by (repeat constructor).
  split; [repeat split; assumption|].
  exact (patchify_unpatchify_square (mkTensor [1; 2; 4; 4] (seq 0 32))
           1 2 4 2 HP eq_refl eq_refl eq_refl).
Defined.

Lemma sample_patches_wf : wf_patches 1 sample_patches.
Proof. repeat constructor. Qed.

Lemma sample_noise_wf : wf_noise sample_patches sample_noise.
Proof. split; [reflexivity | repeat constructor]. Qed.

Lemma masking_alignment_instance :
  (wf_patches 1 sample_patches /\ wf_noise sample_patches sample_noise /\
   len_keep (num_patches sample_patches) ratio_half = Ok 2%Z) /\
  exists masked mask,
    random_masking_with sample_noise sample_patches ratio_half
    = Ok (masked, mask) /\
    same_shape3 masked sample_patches = true /\
    forall b n, b < 1 -> n < 4 ->
      (F32.eqb (nth n (nth b mask []) F32.one) F32.zero = true ->
       nth n (nth b masked []) [] = nth n (nth b sample_patches []) []) /\
      (F32.eqb (nth n (nth b mask []) F32.one) F32.one = true ->
       nth n (nth b masked []) [] = repeat F32.zero 1).
Proof.
  assert (len_keep (num_patches sample_patches) ratio_half = Ok 2%Z) as Hk
    by (vm_compute; reflexivity).
  split; [repeat split;
          auto using sample_patches_wf; apply sample_noise_wf|].
  exact (masking_alignment sample_noise sample_patches ratio_half 1 2
           sample_patches_wf sample_noise_wf Hk).
Defined.

Lemma sample_patches_shape : has_shape3 1 4 1 sample_patches.
Proof. split; [reflexivity | repeat constructor]. Qed.

Lemma sample_mask_shape : has_shape2 1 4 sample_mask.
Proof. split; [reflexivity | repeat constructor]. Qed.

Lemma loss_ignores_finite_visible_errors_instance :
  (same_shape3 sample_patches sample_rec1 = true /\
   same_shape3 sample_patches sample_rec2 = true /\
   same_shape2 sample_patches sample_mask = true) /\
  sample_rec1 <> sample_rec2 /\
  compute_loss sample_patches sample_rec1 sample_mask
  = compute_loss sample_patches sample_rec2 sample_mask.
Proof.
  split; [repeat split|]. split; [vm_compute; discriminate|].
  apply (loss_ignores_finite_visible_errors sample_patches sample_rec1
           sample_rec2 sample_mask eq_refl eq_refl eq_refl).
  intros b n Hb Hn.
  change (length sample_patches) with 1 in Hb.
  destruct b as [|b]; [|lia].
  change (length (nth 0 sample_patches [])) with 4 in Hn.
  destruct n as [|[|[|[|n]]]]; [| | | |lia];
    vm_compute; repeat split; reflexivity.
Defined.

Lemma patchify_shape_check_instance :
  let bad := mkTensor [1; 1; 3; 4] (seq 0 12) in
  let good := mkTensor [1; 2; 4; 4] (seq 0 32) in
  (0 < 2 /\ wf_tensor bad /\ wf_tensor good /\ 3 mod 2 <> 0 /\
   4 mod 2 = 0) /\
  patchify bad 2 = Raise AssertionError /\
  exists patches,
    patchify good 2 = Ok patches /\
    shape patches = [1; 4; 8] /\ wf_tensor patches.
Proof.
  cbv zeta.
  assert (0 < 2) as HP by (repeat constructor).
  assert (3 mod 2 <> 0) as Hodd
    by (intros H; vm_compute in H; discriminate H).
  split; [repeat split; assumption|]. split.
  - exact (proj1 (patchify_shape_check (mkTensor [1; 1; 3; 4] (seq 0 12))
                    1 1 3 4 2 HP eq_refl eq_refl) (or_introl Hodd)).
  - exact (proj2 (patchify_shape_check (mkTensor [1; 2; 4; 4] (seq 0 32))
                    1 2 4 4 2 HP eq_refl eq_refl) (conj eq_refl eq_refl)).
Defined.

Lemma compute_loss_zero_mask_instance :
  let zeros := [[F32.zero; F32.zero; F32.zero; F32.zero]] in
  (same_shape3 sample_patches sample_rec1 = true /\
   same_shape2 sample_patches zeros = true) /\
  compute_loss sample_patches sample_rec1 zeros = Ok S754_nan.
Proof.
  cbv zeta. split; [split; reflexivity|].
  apply (proj2 (compute_loss_zero_mask sample_patches sample_rec1
                  [[F32.zero; F32.zero; F32.zero; F32.zero]]
                  eq_refl eq_refl)).
  repeat constructor.
Defined.

Lemma two_not_square (h : nat) : 2 <> h * h.
Proof. destruct h as [|[|h]]; simpl; lia. Qed.

Lemma unpatchify_shape_check_instance :
  let bad := mkTensor [1; 2; 4] (seq 0 8) in
  let good := mkTensor [1; 4; 8] (seq 0 32) in
  (0 < 2 /\ wf_tensor bad /\ wf_tensor good /\ 0 < 1 /\ 0 < 4) /\
  unpatchify bad 2 = Raise RuntimeError /\
  exists imgs,
    unpatchify good 2 = Ok imgs /\
    shape imgs = [1; 2; 4; 4] /\ wf_tensor imgs.
Proof.
  cbv zeta.
  assert (0 < 2) as HP by (repeat constructor).
  assert (0 < 1) as HB by (repeat constructor).
  assert (0 < 4) as HD by (repeat constructor).
  split; [repeat split; assumption|]. split.
  - exact (proj1 (unpatchify_shape_check (mkTensor [1; 2; 4] (seq 0 8))
                    1 2 4 2 HP eq_refl eq_refl) HB HD two_not_square).
  - exact (proj2 (unpatchify_shape_check (mkTensor [1; 4; 8] (seq 0 32))
                    1 4 8 2 HP eq_refl eq_refl) 2 2 eq_refl eq_refl).
Defined.

Lemma degenerate_keep_counts_instance :
  (wf_patches 1 sample_patches /\ wf_noise sample_patches sample_noise /\
   len_keep 4 ratio_nine_tenths = Ok 0%Z /\
   len_keep 4 F64.zero = Ok 4%Z /\
   same_shape3 sample_patches sample_rec1 = true) /\
  random_masking_with sample_noise sample_patches ratio_nine_tenths
  = Ok (zeros_like sample_patches, repeat (repeat F32.one 4) 1) /\
  random_masking_with sample_noise sample_patches F64.zero
  = Ok (sample_patches, repeat (repeat F32.zero 4) 1) /\
  compute_loss sample_patches sample_rec1 (repeat (repeat F32.zero 4) 1)
  = Ok S754_nan.
Proof.
  assert (len_keep 4 ratio_nine_tenths = Ok 0%Z) as H0
    by (vm_compute; reflexivity).
  assert (len_keep 4 F64.zero = Ok 4%Z) as H4 by (vm_compute; reflexivity).
  split; [repeat split;
          auto using sample_patches_wf; apply sample_noise_wf|].
  split.
  - exact (proj1 (degenerate_keep_counts sample_noise sample_patches
                    ratio_nine_tenths 1 sample_patches_wf sample_noise_wf) H0).
  - destruct (proj2 (degenerate_keep_counts sample_noise sample_patches
                       F64.zero 1 sample_patches_wf sample_noise_wf) H4)
      as [Hm Hl].
    split; [exact Hm|]. exact (Hl sample_rec1 eq_refl).
Defined.

(** * Inputs on which the worded properties fail *)

(** Two reconstructions that differ at a visible patch only, one of
    them by a value whose square overflows binary32, get different
    losses. *)
Lemma visible_overflow_changes_loss :
  let original := [[[F32.zero]; [F32.zero]]] in
  let rec1 := [[[F32.zero]; [F32.zero]]] in
  let rec2 := [[[f32_big]; [F32.zero]]] in
  let mask := [[F32.zero; F32.one]] in
  is_finite f32_big = true /\
  nth 1 (nth 0 rec1 []) [] = nth 1 (nth 0 rec2 []) [] /\
  compute_loss original rec1 mask = Ok (S754_zero false) /\
  compute_loss original rec2 mask = Ok S754_nan /\
  compute_loss original rec1 mask <> compute_loss original rec2 mask.
Proof.
  cbv zeta. repeat split; try (vm_compute; reflexivity).
  vm_compute. discriminate.
Qed.

(** * Further properties of the codec *)

(** ** Where [permute] puts each element *)

Lemma nth_permute_data {A : Type} (s dims : list nat) (l : list A)
    (j : list nat) (d : A) :
  length l = numel s ->
  Forall2 lt j (permute_shape dims s) ->
  Forall2 lt (source_index dims j) s ->
  nth (ravel (permute_shape dims s) j) (permute_data s dims l) d
  = nth (ravel s (source_index dims j)) l d.
Proof.
  intros Hl Hj Hsrc. unfold permute_data.
  pose proof (nth_ravel_map (fun j => ravel s (source_index dims j))
                (permute_shape dims s) j 0 Hj) as Hp.
  cbv beta in Hp.
  rewrite nth_take_at.
  - now rewrite Hp.
  - rewrite length_map, length_indices. now apply ravel_lt.
  - rewrite Hp, Hl. now apply ravel_lt.
Qed.

Ltac split_index :=
  repeat match goal with
         | H : Forall2 lt _ (_ :: _) |- _ => inversion H; subst; clear H
         | H : Forall2 lt _ [] |- _ => inversion H; subst; clear H
         end.

Lemma div_mod_lt (y P h : nat) :
  0 < P -> y < h * P -> y / P < h /\ y mod P < P /\ y = P * (y / P) + y mod P.
Proof.
  intros HP Hy. split; [|split].
  - apply Nat.Div0.div_lt_upper_bound. lia.
  - apply Nat.mod_upper_bound. lia.
  - apply Nat.div_mod_eq.
Qed.

(** The element of the patch layout [B, h, w, P, P, C] that holds pixel
    [(b, c, y, x)]. *)
Lemma patch_layout_offset (B C h w P b c y x : nat) :
  0 < P -> y < h * P -> x < w * P ->
  ravel [B; h * w; P * P * C]
        [b; (y / P) * w + x / P; ((y mod P) * P + x mod P) * C + c]
  = ravel [B; h; w; P; P; C] [b; y / P; x / P; y mod P; x mod P; c].
Proof.
  intros HP Hy Hx. cbn [ravel numel fold_right]. ring.
Qed.

Lemma image_layout_offset (B C h w P b c y x : nat) :
  0 < P -> y < h * P -> x < w * P ->
  ravel [B; C; h; P; w; P] [b; c; y / P; y mod P; x / P; x mod P]
  = ravel [B; C; h * P; w * P] [b; c; y; x].
Proof.
  intros HP Hy Hx.
  destruct (div_mod_lt y P h HP Hy) as (_ & _ & Ey).
  destruct (div_mod_lt x P w HP Hx) as (_ & _ & Ex).
  set (yq := y / P) in *. set (yr := y mod P) in *.
  set (xq := x / P) in *. set (xr := x mod P) in *.
  rewrite Ey at 1. rewrite Ex at 1.
  cbn [ravel numel fold_right]. ring.
Qed.

(** What [patchify] stores where, on the layouts the two reshapes name. *)
Lemma patchify_data_at {A : Type} (B C h w P : nat) (l : list A)
    (b c y x : nat) (d : A) :
  0 < P -> length l = numel [B; C; h; P; w; P] ->
  b < B -> c < C -> y < h * P -> x < w * P ->
  nth (ravel [B; h * w; P * P * C]
             [b; (y / P) * w + x / P; ((y mod P) * P + x mod P) * C + c])
      (permute_data [B; C; h; P; w; P] [0; 2; 4; 3; 5; 1] l) d
  = nth (ravel [B; C; h * P; w * P] [b; c; y; x]) l d.
Proof.
  intros HP Hl Hb Hc Hy Hx.
  destruct (div_mod_lt y P h HP Hy) as (Hyq & Hyr & _).
  destruct (div_mod_lt x P w HP Hx) as (Hxq & Hxr & _).
  rewrite patch_layout_offset by assumption.
  rewrite <- image_layout_offset by assumption.
  apply (nth_permute_data [B; C; h; P; w; P] [0; 2; 4; 3; 5; 1] l
           [b; y / P; x / P; y mod P; x mod P; c] d Hl).
  - cbn. repeat constructor; assumption.
  - cbn. repeat constructor; assumption.
Qed.

Lemma unpatchify_data_at {A : Type} (B C h w P : nat) (l : list A)
    (b c y x : nat) (d : A) :
  0 < P -> length l = numel [B; h; w; P; P; C] ->
  b < B -> c < C -> y < h * P -> x < w * P ->
  nth (ravel [B; C; h * P; w * P] [b; c; y; x])
      (permute_data [B; h; w; P; P; C] [0; 5; 1; 3; 2; 4] l) d
  = nth (ravel [B; h * w; P * P * C]
               [b; (y / P) * w + x / P; ((y mod P) * P + x mod P) * C + c])
        l d.
Proof.
  intros HP Hl Hb Hc Hy Hx.
  destruct (div_mod_lt y P h HP Hy) as (Hyq & Hyr & _).
  destruct (div_mod_lt x P w HP Hx) as (Hxq & Hxr & _).
  rewrite patch_layout_offset by assumption.
  rewrite <- image_layout_offset by assumption.
  apply (nth_permute_data [B; h; w; P; P; C] [0; 5; 1; 3; 2; 4] l
           [b; c; y / P; y mod P; x / P; x mod P] d Hl).
  - cbn. repeat constructor; assumption.
  - cbn. repeat constructor; assumption.
Qed.

(** X1: on a divisible image batch, [patchify] puts pixel [(b, c, y, x)]
    into patch [(y/P)*(W/P) + x/P] of image [b] (patches in row-major grid
    order), at offset [((y mod P)*P + x mod P)*C + c] (pixels of the patch
    in row-major order, the channel varying fastest). *)
Theorem patchify_pixel {A : Type} (imgs : tensor A) (B C H W P : nat) (d : A) :
  0 < P -> wf_tensor imgs -> shape imgs = [B; C; H; W] ->
  H mod P = 0 -> W mod P = 0 ->
  exists patches,
    patchify imgs P = Ok patches /\
    forall b c y x, b < B -> c < C -> y < H -> x < W ->
      nth (ravel [B; (H / P) * (W / P); P * P * C]
                 [b; (y / P) * (W / P) + x / P;
                  ((y mod P) * P + x mod P) * C + c])
          (data patches) d
      = nth (ravel [B; C; H; W] [b; c; y; x]) (data imgs) d.
Proof.
  intros HP Hwf Hs HH HW.
  rewrite (patchify_Ok imgs B C H W P HP Hwf Hs HH HW).
  eexists; split; [reflexivity|].
  intros b c y x Hb Hc Hy Hx. cbn [data].
  assert (H = (H / P) * P) as EH
    by (rewrite Nat.mul_comm; now apply Nat.Div0.div_exact).
  assert (W = (W / P) * P) as EW
    by (rewrite Nat.mul_comm; now apply Nat.Div0.div_exact).
  set (h := H / P) in *. set (w := W / P) in *.
  assert (length (data imgs) = numel [B; C; h; P; w; P]) as Hl.
  { unfold wf_tensor in Hwf. rewrite Hwf, Hs. rewrite EH at 1. rewrite EW at 1.
    cbn [numel fold_right]. ring. }
  rewrite patchify_data_at; trivial; try lia.
  now rewrite <- EH, <- EW.
Qed.

(** X2: on [h*h] patches of [P*P*C] values, [unpatchify] reads pixel
    [(b, c, y, x)] of the image from patch [(y/P)*h + x/P] of image [b], at
    offset [((y mod P)*P + x mod P)*C + c]. *)
Theorem unpatchify_pixel {A : Type} (patches : tensor A) (B C h P : nat) (d : A) :
  0 < P -> wf_tensor patches -> shape patches = [B; h * h; P * P * C] ->
  exists imgs,
    unpatchify patches P = Ok imgs /\
    shape imgs = [B; C; h * P; h * P] /\
    forall b c y x, b < B -> c < C -> y < h * P -> x < h * P ->
      nth (ravel [B; C; h * P; h * P] [b; c; y; x]) (data imgs) d
      = nth (ravel [B; h * h; P * P * C]
                   [b; (y / P) * h + x / P;
                    ((y mod P) * P + x mod P) * C + c])
            (data patches) d.
Proof.
  intros HP Hwf Hs.
  rewrite (unpatchify_Ok patches B C h P HP Hwf Hs).
  eexists; split; [reflexivity|]. split; [reflexivity|].
  intros b c y x Hb Hc Hy Hx. cbn [data].
  apply unpatchify_data_at; trivial.
  unfold wf_tensor in Hwf. rewrite Hwf, Hs. cbn [numel fold_right]. ring.
Qed.

(** ** Decoding, then encoding *)

Lemma codec_permute_inverse_back {A : Type} (B C h p w q : nat) (l : list A) :
  length l = numel [B; h; w; p; q; C] ->
  permute_data [B; C; h; p; w; q] [0; 2; 4; 3; 5; 1]
    (permute_data [B; h; w; p; q; C] [0; 5; 1; 3; 2; 4] l) = l.
Proof.
  intros Hl.
  apply (permute_data_inverse [B; h; w; p; q; C] [0; 5; 1; 3; 2; 4]
           [0; 2; 4; 3; 5; 1] l Hl); try reflexivity.
  - simpl. lia.
  - intros j Hj. split_index. simpl. split; [|reflexivity].
    repeat constructor; assumption.
Qed.

(** X3: encoding a decoded patch sequence gives the sequence back: for
    [h*h] patches of [P*P*C] values, [patchify(unpatchify(patches))] is
    [patches]. *)
Theorem unpatchify_patchify {A : Type} (patches : tensor A) (B C h P : nat) :
  0 < P -> wf_tensor patches -> shape patches = [B; h * h; P * P * C] ->
  exists imgs,
    unpatchify patches P = Ok imgs /\ patchify imgs P = Ok patches.
Proof.
  intros HP Hwf Hs.
  rewrite (unpatchify_Ok patches B C h P HP Hwf Hs).
  eexists; split; [reflexivity|].
  assert (length (data patches) = numel [B; h; h; P; P; C]) as Hl.
  { unfold wf_tensor in Hwf. rewrite Hwf, Hs. cbn [numel fold_right]. ring. }
  assert ((h * P) mod P = 0) as Hm by (apply Nat.Div0.mod_mul).
  assert ((h * P) / P = h) as Hq by (apply Nat.div_mul; lia).
  rewrite (patchify_Ok _ B C (h * P) (h * P) P HP); trivial.
  - cbn [data]. rewrite Hq, codec_permute_inverse_back by assumption.
    destruct patches as [s l]. cbn [shape data] in *. now subst s.
  - apply wf_permute_data; [assumption | simpl; lia | simpl; nia].
Qed.

(** X4: on a divisible image batch the round trip through the codec gives
    the batch back exactly when the images are square. *)
Theorem roundtrip_iff_square {A : Type} (imgs : tensor A) (B C H W P : nat) :
  0 < P -> wf_tensor imgs -> shape imgs = [B; C; H; W] ->
  H mod P = 0 -> W mod P = 0 ->
  (exists patches,
     patchify imgs P = Ok patches /\ unpatchify patches P = Ok imgs)
  <-> H = W.
Proof.
  intros HP Hwf Hs HH HW. split.
  - intros (patches & Hp & Hu).
    exact (roundtrip_only_square imgs patches B C H W P Hs Hp Hu).
  - intros <-.
    rewrite (patchify_Ok imgs B C H H P HP Hwf Hs HH HH).
    eexists; split; [reflexivity|].
    assert (H = P * (H / P)) as EH by (now apply Nat.Div0.div_exact).
    set (h := H / P) in *.
    assert (length (data imgs) = numel [B; C; h; P; h; P]) as Hl.
    { unfold wf_tensor in Hwf. rewrite Hwf, Hs. rewrite EH at 1 2.
      cbn [numel fold_right]. ring. }
    rewrite (unpatchify_Ok _ B C h P); trivial.
    + cbn [data]. rewrite codec_permute_inverse by assumption.
      destruct imgs as [s l]. cbn [shape data] in *. subst s.
      do 2 f_equal. rewrite (Nat.mul_comm h P), <- EH. reflexivity.
    + apply wf_permute_data; [assumption | simpl; lia | simpl; nia].
Qed.

(** X5: [unpatchify] computes the channel count as [D // (P*P)] and checks
    nothing; when [D] is not a multiple of [P*P] the first reshape of a
    non-empty sequence raises. *)
Theorem unpatchify_partial_patch {A : Type} (patches : tensor A)
    (B N D P : nat) :
  0 < P -> wf_tensor patches -> shape patches = [B; N; D] ->
  0 < B -> 0 < N -> D mod (P * P) <> 0 ->
  unpatchify patches P = Raise RuntimeError.
Proof.
  intros HP Hwf Hs HB HN HD. unfold unpatchify. rewrite Hs.
  destruct (Nat.eqb_spec (P * P) 0) as [|_]; [nia|].
  rewrite reshape_Raise; [reflexivity|].
  unfold wf_tensor in Hwf. rewrite Hwf, Hs.
  pose proof (Nat.sqrt_spec N (Nat.le_0_l N)) as [Hlo _].
  pose proof (Nat.div_mod_eq D (P * P)) as Hdm.
  set (h := Nat.sqrt N) in *. set (C := D / (P * P)) in *.
  set (r := D mod (P * P)) in *.
  assert (P * P * C < D) as H0 by lia.
  assert (h * h * (P * P * C) <= N * (P * P * C)) as H1
    by (apply Nat.mul_le_mono_r; assumption).
  assert (N * (P * P * C) < N * D) as H2
    by (apply Nat.mul_lt_mono_pos_l; assumption).
  assert (B * (h * h * (P * P * C)) < B * (N * D)) as H3
    by (apply Nat.mul_lt_mono_pos_l; lia).
  cbn [numel fold_right]. rewrite !Nat.mul_1_r.
  replace (B * (h * (h * (P * (P * C))))) with (B * (h * h * (P * P * C)))
    by (f_equal; rewrite !Nat.mul_assoc; reflexivity).
  lia.
Qed.

(** ** The codec only rearranges *)

Lemma NoDup_indices (s : list nat) : NoDup (indices s).
Proof.
  apply (NoDup_map_inv (ravel s)). rewrite map_ravel_indices. apply seq_NoDup.
Qed.

Lemma take_at_perm {A : Type} (l : list A) (idxs : list nat) :
  Permutation idxs (seq 0 (length l)) -> Permutation (take_at l idxs) l.
Proof.
  intros Hp. rewrite <- (take_at_seq l) at 2.
  unfold take_at. destruct l as [|x l]; [constructor|].
  now apply Permutation_map.
Qed.

(** A permutation of the axes with an inverse permutes the elements. *)
Lemma permute_data_perm {A : Type} (s d1 d2 : list nat) (l : list A) :
  length l = numel s ->
  numel (permute_shape d1 s) = numel s ->
  (forall j, Forall2 lt j (permute_shape d1 s) ->
     Forall2 lt (source_index d1 j) s /\
     source_index d2 (source_index d1 j) = j) ->
  Permutation (permute_data s d1 l) l.
Proof.
  intros Hl Hn Hinv. unfold permute_data. apply take_at_perm.
  apply NoDup_Permutation_bis.
  - apply NoDup_map_NoDup_ForallPairs; [|apply NoDup_indices].
    intros j j' Hj Hj' E.
    apply in_indices in Hj, Hj'.
    destruct (Hinv j Hj) as [Hs1 Hb1]. destruct (Hinv j' Hj') as [Hs2 Hb2].
    assert (source_index d1 j = source_index d1 j') as E'.
    { rewrite <- (nth_ravel_indices s (source_index d1 j) [] Hs1).
      rewrite <- (nth_ravel_indices s (source_index d1 j') [] Hs2).
      now rewrite E. }
    rewrite <- Hb1, <- Hb2. now rewrite E'.
  - rewrite length_seq, length_map, length_indices. lia.
  - intros i Hi. apply in_map_iff in Hi. destruct Hi as (j & <- & Hj).
    apply in_indices in Hj. destruct (Hinv j Hj) as [Hs1 _].
    apply in_seq. pose proof (ravel_lt Hs1). lia.
Qed.

Lemma codec_permute_perm {A : Type} (B C h p w q : nat) (l : list A) :
  length l = numel [B; C; h; p; w; q] ->
  Permutation (permute_data [B; C; h; p; w; q] [0; 2; 4; 3; 5; 1] l) l.
Proof.
  intros Hl.
  apply (permute_data_perm [B; C; h; p; w; q] [0; 2; 4; 3; 5; 1]
           [0; 5; 1; 3; 2; 4] l Hl).
  - simpl. lia.
  - intros j Hj. cbn in Hj. split_index. cbn. split; [|reflexivity].
    repeat constructor; assumption.
Qed.

Lemma codec_permute_perm_back {A : Type} (B C h p w q : nat) (l : list A) :
  length l = numel [B; h; w; p; q; C] ->
  Permutation (permute_data [B; h; w; p; q; C] [0; 5; 1; 3; 2; 4] l) l.
Proof.
  intros Hl.
  apply (permute_data_perm [B; h; w; p; q; C] [0; 5; 1; 3; 2; 4]
           [0; 2; 4; 3; 5; 1] l Hl).
  - simpl. lia.
  - intros j Hj. cbn in Hj. split_index. cbn. split; [|reflexivity].
    repeat constructor; assumption.
Qed.

Lemma reshape_inv {A : Type} (t r : tensor A) (s : list nat) :
  reshape t s = Ok r -> r = mkTensor s (data t) /\ numel s = length (data t).
Proof.
  unfold reshape. destruct (Nat.eqb_spec (numel s) (length (data t))) as [E|];
    [|discriminate].
  intros [= <-]. now split.
Qed.

(** X6: whenever [patchify] or [unpatchify] returns, its result holds the
    elements of its argument, each one exactly once: the codec drops,
    repeats and invents no value. *)
Theorem codec_rearranges {A : Type} (t r : tensor A) (P : nat) :
  patchify t P = Ok r \/ unpatchify t P = Ok r ->
  Permutation (data r) (data t).
Proof.
  intros [Hp | Hu].
  - unfold patchify in Hp.
    destruct (shape t) as [|B [|C [|H [|W [|]]]]]; try discriminate.
    destruct (P =? 0); [discriminate|].
    destruct ((H mod P =? 0) && (W mod P =? 0)); [|discriminate].
    apply bind_Ok in Hp. destruct Hp as (t1 & H1 & Hp).
    apply bind_Ok in Hp. destruct Hp as (t2 & H2 & H3).
    apply reshape_inv in H1. destruct H1 as [-> Hn1].
    rewrite permute_Ok in H2 by reflexivity. injection H2 as <-.
    apply reshape_inv in H3. destruct H3 as [-> _]. cbn [data shape].
    apply codec_permute_perm. now rewrite Hn1.
  - unfold unpatchify in Hu.
    destruct (shape t) as [|B [|N [|D [|]]]]; try discriminate.
    cbv zeta in Hu.
    destruct (P * P =? 0); [discriminate|].
    apply bind_Ok in Hu. destruct Hu as (t1 & H1 & Hu).
    apply bind_Ok in Hu. destruct Hu as (t2 & H2 & H3).
    apply reshape_inv in H1. destruct H1 as [-> Hn1].
    rewrite permute_Ok in H2 by reflexivity. injection H2 as <-.
    apply reshape_inv in H3. destruct H3 as [-> _]. cbn [data shape].
    apply codec_permute_perm_back. now rewrite Hn1.
Qed.

(** * Further properties of the masking policy *)

(** ** The keep count at the ends of the ratio range *)

(** Rounding a mantissa that already fits is exact. *)
Lemma round_aux_exact (m q : positive) (e e1 : Z) :
  e1 = Z.max e (Z.max (Z.pos (digits2_pos m) + e - 53) (-1074)) ->
  Z.pos m = (Z.pos q * 2 ^ (e1 - e))%Z ->
  (e1 <= 971)%Z ->
  binary_round_aux F64.prec F64.emax false (Z.pos m) e loc_Exact
  = S754_finite false q e1.
Proof.
  intros He1 Hq Hmax. unfold binary_round_aux.
  assert (0 <= e1 - e)%Z as Hn by lia.
  assert (0 < 2 ^ (e1 - e))%Z as Hp by (apply Z.pow_pos_nonneg; lia).
  pose proof (shr_fexp_exact (Z.pos m) e ltac:(lia)) as H1. cbv zeta in H1.
  destruct (shr_fexp F64.prec F64.emax (Z.pos m) e loc_Exact) as [mrs' e'].
  cbn [fst snd] in H1. destruct H1 as (He' & Hm1 & Hloc).
  change (Zdigits2 (Z.pos m)) with (Z.pos (digits2_pos m)) in He'.
  rewrite <- He1 in He'. subst e'.
  assert (shr_m mrs' = Z.pos q) as Em1
    by (rewrite Hm1, Hq; apply Z.div_mul; lia).
  assert (loc_of_shr_record mrs' = loc_Exact) as El
    by (apply Hloc; rewrite Hq; apply Z.mod_mul; lia).
  rewrite Em1, El.
  change (round_nearest_even (Z.pos q) loc_Exact) with (Z.pos q).
  pose proof (shr_fexp_exact (Z.pos q) e1 ltac:(lia)) as H2. cbv zeta in H2.
  destruct (shr_fexp F64.prec F64.emax (Z.pos q) e1 loc_Exact) as [mrs'' e''].
  cbn [fst snd] in H2. destruct H2 as (He'' & Hm2 & _).
  change (Zdigits2 (Z.pos q)) with (Z.pos (digits2_pos q)) in He''.
  assert (Z.pos (digits2_pos q) <= Z.pos (digits2_pos m) - (e1 - e))%Z as Hd.
  { pose proof (digits2_pos_bound m) as Hb.
    destruct (Z.le_gt_cases 0 (Z.pos (digits2_pos m) - (e1 - e))) as [Hge|Hlt].
    - apply (Zdigits2_upper_strict (Z.pos q)); [assumption|].
      split; [lia|].
      replace (Z.pos (digits2_pos m))
        with ((Z.pos (digits2_pos m) - (e1 - e)) + (e1 - e))%Z in Hb by lia.
      rewrite Z.pow_add_r in Hb by lia. nia.
    - exfalso.
      assert (2 ^ Z.pos (digits2_pos m) <= 2 ^ (e1 - e))%Z
        by (apply Z.pow_le_mono_r; lia).
      nia. }
  assert (e'' = e1) as -> by lia.
  rewrite Z.sub_diag, Z.div_1_r in Hm2. rewrite Hm2.
  assert ((e1 <=? F64.emax - F64.prec)%Z = true) as ->
    by (apply Z.leb_le; unfold F64.emax, F64.prec; lia).
  reflexivity.
Qed.

(** [float(N)] is exact below [2^53]: a 53-bit mantissa and the exponent
    that goes with it. *)
Lemma of_Z_exact (p : positive) :
  (Z.pos p < 2 ^ 53)%Z ->
  exists mn en,
    F64.of_Z (Z.pos p) = S754_finite false mn en /\
    (-52 <= en <= 0)%Z /\
    Z.pos mn = (Z.pos p * 2 ^ (- en))%Z /\
    Z.pos (digits2_pos mn) = 53%Z.
Proof.
  intros Hp. unfold F64.of_Z, binary_normalize, binary_round, shl_align.
  rewrite fexp64.
  pose proof (Zdigits2_upper_strict (Z.pos p) 53 ltac:(lia) ltac:(lia)) as Hd.
  cbn [Zdigits2] in Hd.
  pose proof (Pos2Z.is_pos (digits2_pos p)) as Hd0.
  replace (Z.max (Z.pos (digits2_pos p) + 0 - 53) (-1074))
    with (Z.pos (digits2_pos p) - 53)%Z by lia.
  destruct (Z.pos (digits2_pos p) - 53 - 0)%Z as [|d|d] eqn:Ed; try lia.
  - exists p, 0%Z.
    rewrite (round_aux_exact p p 0 0); [| lia | simpl; lia | lia].
    repeat split; try lia.
  - exists (Pos.iter xO p d), (Z.pos (digits2_pos p) - 53)%Z.
    assert (Z.pos (digits2_pos (Pos.iter xO p d)) = 53%Z) as Hd53
      by (rewrite digits2_pos_iter_xO; lia).
    rewrite (round_aux_exact (Pos.iter xO p d) (Pos.iter xO p d)
               (Z.pos (digits2_pos p) - 53) (Z.pos (digits2_pos p) - 53));
      [| rewrite Hd53; lia | rewrite Z.sub_diag; simpl; lia | lia].
    repeat split; try lia.
    rewrite iter_xO_pow2. f_equal. f_equal. lia.
Qed.

(** Multiplying [float(N)] by a power of two changes the exponent only. *)
Lemma mul_pow2_exact (mn : positive) (en j : Z) :
  Z.pos (digits2_pos mn) = 53%Z -> (-1074 <= en + j + 52 <= 971)%Z ->
  F64.mul (S754_finite false mn en) (S754_finite false 4503599627370496 j)
  = S754_finite false mn (en + j + 52).
Proof.
  intros Hd He. unfold F64.mul, SFmul. cbn [xorb].
  pose proof (digits2_pos_bound mn) as Hb. rewrite Hd in Hb.
  pose proof (digits2_pos_lower mn) as Hl. rewrite Hd in Hl.
  assert (Z.pos (mn * 4503599627370496) = Z.pos mn * 2 ^ 52)%Z as Em
    by (rewrite Pos2Z.inj_mul; reflexivity).
  assert (Z.pos (digits2_pos (mn * 4503599627370496)) = 105%Z) as Hd2.
  { pose proof (digits2_pos_bound (mn * 4503599627370496)) as Hb2.
    pose proof (digits2_pos_lower (mn * 4503599627370496)) as Hl2.
    rewrite Em in Hb2, Hl2.
    assert (2 ^ 104 < 2 ^ Z.pos (digits2_pos (mn * 4503599627370496)))%Z as U
      by (change (2 ^ 104)%Z with (2 ^ 52 * 2 ^ 52)%Z;
          change (53 - 1)%Z with 52%Z in Hl; lia).
    assert (2 ^ (Z.pos (digits2_pos (mn * 4503599627370496)) - 1) < 2 ^ 105)%Z
      as L by (change (2 ^ 105)%Z with (2 ^ 53 * 2 ^ 52)%Z; lia).
    apply Z.pow_lt_mono_r_iff in U; [|lia|lia].
    apply Z.pow_lt_mono_r_iff in L; lia. }
  apply round_aux_exact.
  - rewrite Hd2. lia.
  - rewrite Em. f_equal. f_equal. lia.
  - lia.
Qed.

(** [float(N) * 1.0] is [float(N)]. *)
Lemma mul_one_exact (mn : positive) (en : Z) :
  Z.pos (digits2_pos mn) = 53%Z -> (-52 <= en <= 0)%Z ->
  F64.mul (S754_finite false mn en) F64.one = S754_finite false mn en.
Proof.
  intros Hd He. unfold F64.one.
  rewrite mul_pow2_exact by (trivial; lia). f_equal. lia.
Qed.

Lemma len_keep_ratio_zero (N : nat) :
  (Z.of_nat N < 2 ^ 53)%Z -> len_keep N F64.zero = Ok (Z.of_nat N).
Proof.
  intros HN. unfold len_keep, py_float_of_int.
  change (F64.sub F64.one F64.zero) with F64.one.
  destruct (Z.of_nat N) as [|p|p] eqn:EN; try lia.
  - reflexivity.
  - destruct (of_Z_exact p HN) as (mn & en & -> & He & Hv & Hd).
    cbn [bind]. rewrite mul_one_exact by assumption.
    unfold py_int, cond_Zopp.
    rewrite Z.shiftl_div_pow2 by lia. rewrite Hv.
    rewrite Z.div_mul; [reflexivity|]. apply Z.pow_nonzero; lia.
Qed.

Lemma len_keep_ratio_one (N : nat) :
  (Z.of_nat N < 2 ^ 53)%Z -> len_keep N F64.one = Ok 0%Z.
Proof.
  intros HN. unfold len_keep, py_float_of_int.
  change (F64.sub F64.one F64.one) with (S754_zero false).
  destruct (Z.of_nat N) as [|p|p] eqn:EN; try lia.
  - reflexivity.
  - destruct (of_Z_exact p HN) as (mn & en & -> & _). reflexivity.
Qed.

(** X9: the keep count [int(N * (1 - mask_ratio))] is exact at the ends
    of the range: a ratio of [1.0] keeps no patch and a ratio of [0.0]
    keeps all [N], for every patch count below [2^53]. *)
Theorem len_keep_at_the_ends (N : nat) :
  (Z.of_nat N < 2 ^ 53)%Z ->
  len_keep N F64.one = Ok 0%Z /\ len_keep N F64.zero = Ok (Z.of_nat N).
Proof.
  intros HN. split; [now apply len_keep_ratio_one | now apply len_keep_ratio_zero].
Qed.

(** ** The default ratio *)

Lemma len_keep_default (N : nat) :
  (Z.of_nat N < 2 ^ 53)%Z ->
  len_keep N ratio_notebook = Ok (Z.of_nat (N / 4)).
Proof.
  intros HN. unfold len_keep, py_float_of_int.
  change (F64.sub F64.one ratio_notebook)
    with (S754_finite false 4503599627370496 (-54)).
  rewrite Nat2Z.inj_div. change (Z.of_nat 4) with 4%Z.
  destruct (Z.of_nat N) as [|p|p] eqn:EN; try lia.
  - reflexivity.
  - destruct (of_Z_exact p HN) as (mn & en & -> & He & Hv & Hd).
    cbn [bind]. rewrite mul_pow2_exact by (trivial; lia).
    unfold py_int, cond_Zopp.
    rewrite Z.shiftl_div_pow2 by lia. rewrite Hv. f_equal.
    replace (- (en + -54 + 52))%Z with ((- en) + 2)%Z by lia.
    rewrite Z.pow_add_r by lia. change (2 ^ 2)%Z with 4%Z.
    rewrite (Z.mul_comm (2 ^ (- en)) 4).
    apply Z.div_mul_cancel_r; [lia | apply Z.pow_nonzero; lia].
Qed.

(** ** Shuffle and restore *)

(** X7: in [random_masking], [ids_restore] is the inverse of the
    permutation [ids_shuffle], on either side, whatever the noise:
    [ids_shuffle[ids_restore[i]] = i] and [ids_restore[ids_shuffle[i]] = i]
    for every position [i] of a row, and both hold positions of the row
    only. *)
Theorem ids_restore_inverts_shuffle (noise_row : list f32) (i : nat) :
  let ids_shuffle := argsort F32.leb noise_row in
  let ids_restore := argsort Nat.leb ids_shuffle in
  i < length noise_row ->
  nth (nth i ids_restore 0) ids_shuffle 0 = i /\
  nth (nth i ids_shuffle 0) ids_restore 0 = i /\
  nth i ids_shuffle 0 < length noise_row /\
  nth i ids_restore 0 < length noise_row.
Proof.
  intros ids_shuffle ids_restore Hi.
  pose proof (argsort_perm F32.leb noise_row) as Hp. fold ids_shuffle in Hp.
  assert (length ids_shuffle = length noise_row) as Hl
    by apply length_argsort.
  split; [|split; [|split]].
  - exact (argsort_inverse ids_shuffle (length noise_row) i Hp Hi).
  - exact (argsort_inverse_left ids_shuffle (length noise_row) i Hp Hi).
  - apply (argsort_lt F32.leb), nth_In. fold ids_shuffle. lia.
  - rewrite <- Hl. apply (argsort_lt Nat.leb), nth_In.
    unfold ids_restore. rewrite length_argsort. lia.
Qed.

(** ** Keep counts outside [0 .. N] *)

Lemma mask_rows_count (noise : list (list f32))
    (patches : list (list (list f32))) (mask_ratio : f64) (k : Z) :
  wf_noise patches noise ->
  len_keep (num_patches patches) mask_ratio = Ok k ->
  exists masked mask,
    random_masking_with noise patches mask_ratio = Ok (masked, mask) /\
    length mask = length patches /\
    Forall (fun row =>
              length row = num_patches patches /\
              count_hidden row
              = num_patches patches - slice_stop k (num_patches patches))
           mask.
Proof.
  intros [Hnl Hnz] Hk.
  rewrite (random_masking_with_rows noise patches mask_ratio k Hk).
  do 2 eexists. split; [reflexivity|].
  split; [now rewrite length_map|].
  apply Forall_map. revert Hnz. apply Forall_impl. intros nz Hl.
  pose proof (row_mask_perm (num_patches patches) k nz Hl) as Hp.
  split; [now rewrite length_row_mask|].
  unfold count_hidden. rewrite (filter_length_perm _ _ _ Hp).
  fold (count_hidden (mask_row (num_patches patches) k)).
  apply count_hidden_mask_row.
Qed.

(** X8: no keep count makes [random_masking] raise.  The slices
    [[:len_keep]] follow Python's rules: a count above [N] keeps every
    patch, and a negative count [k] (a mask ratio above 1) counts from the
    end of the row, so that [min(N, -k)] patches are hidden, not all of
    them. *)
Theorem mask_cardinality_any_count (noise : list (list f32))
    (patches : list (list (list f32))) (mask_ratio : f64) (k : Z) :
  wf_noise patches noise ->
  len_keep (num_patches patches) mask_ratio = Ok k ->
  exists masked mask,
    random_masking_with noise patches mask_ratio = Ok (masked, mask) /\
    length mask = length patches /\
    Forall (fun row =>
              length row = num_patches patches /\
              count_hidden row
              = if (k <? 0)%Z then Nat.min (num_patches patches) (Z.to_nat (- k))
                else num_patches patches - Z.to_nat k)
           mask.
Proof.
  intros Hnoise Hk.
  destruct (mask_rows_count noise patches mask_ratio k Hnoise Hk)
    as (masked & mask & Hr & Hl & Hrows).
  exists masked, mask. split; [assumption|]. split; [assumption|].
  revert Hrows. apply Forall_impl. intros row [Hlen Hc].
  split; [assumption|]. rewrite Hc. unfold slice_stop.
  destruct (Z.ltb_spec k 0); lia.
Qed.

(** ** The ends of the ratio range *)

Lemma random_masking_keep_none (noise : list (list f32))
    (patches : list (list (list f32))) (mask_ratio : f64) :
  wf_noise patches noise ->
  len_keep (num_patches patches) mask_ratio = Ok 0%Z ->
  random_masking_with noise patches mask_ratio
  = Ok (zeros_like patches,
        repeat (repeat F32.one (num_patches patches)) (length patches)).
Proof.
  intros [Hnl Hnz] Hk. rewrite Forall_forall in Hnz.
  rewrite (random_masking_with_rows noise patches mask_ratio 0 Hk).
  do 2 f_equal.
  - unfold zeros_like. apply map_combine_fst; [assumption|]. reflexivity.
  - rewrite <- Hnl, <- map_const_repeat.
    apply map_ext_in. intros nz Hin. apply row_mask_keep_none. now apply Hnz.
Qed.

Lemma random_masking_keep_all (noise : list (list f32))
    (patches : list (list (list f32))) (mask_ratio : f64) (D : nat) :
  wf_patches D patches -> wf_noise patches noise ->
  len_keep (num_patches patches) mask_ratio
  = Ok (Z.of_nat (num_patches patches)) ->
  random_masking_with noise patches mask_ratio
  = Ok (patches,
        repeat (repeat F32.zero (num_patches patches)) (length patches)).
Proof.
  intros Hwf [Hnl Hnz] Hk. rewrite Forall_forall in Hnz.
  unfold wf_patches in Hwf. rewrite Forall_forall in Hwf.
  rewrite (random_masking_with_rows noise patches mask_ratio _ Hk).
  do 2 f_equal.
  - rewrite <- (map_id patches) at 2.
    apply map_combine_fst; [assumption|]. intros row nz Hin.
    apply row_masked_keep_all.
    + apply Hnz. eapply in_combine_r; eassumption.
    + apply Hwf. eapply in_combine_l; eassumption.
  - rewrite <- Hnl, <- map_const_repeat.
    apply map_ext_in. intros nz Hin. apply row_mask_keep_all. now apply Hnz.
Qed.

Lemma zero_mask_goes_with (D : nat) (patches : list (list (list f32))) :
  wf_patches D patches ->
  same_shape2 patches
    (repeat (repeat F32.zero (num_patches patches)) (length patches)) = true.
Proof.
  intros Hwf. unfold wf_patches in Hwf. rewrite Forall_forall in Hwf.
  apply same_shape2_intro; [now rewrite repeat_length|].
  intros b Hb. rewrite nth_repeat_lt by assumption. rewrite repeat_length.
  apply Hwf, nth_In. assumption.
Qed.

(** X10: with [mask_ratio = 1.0] the call hides everything: the masked
    sequence is all zeros and the mask all ones.  With [mask_ratio = 0.0]
    it hides nothing: the masked sequence is the input and the mask all
    zeros, and [compute_loss] on that mask is NaN for every
    reconstruction.  Neither ratio raises (patch counts below [2^53]). *)
Theorem random_masking_at_the_ends (noise : list (list f32))
    (patches : list (list (list f32))) (D : nat) :
  wf_patches D patches -> wf_noise patches noise ->
  (Z.of_nat (num_patches patches) < 2 ^ 53)%Z ->
  let N := num_patches patches in
  let B := length patches in
  random_masking_with noise patches F64.one
  = Ok (zeros_like patches, repeat (repeat F32.one N) B) /\
  random_masking_with noise patches F64.zero
  = Ok (patches, repeat (repeat F32.zero N) B) /\
  forall reconstructed,
    same_shape3 patches reconstructed = true ->
    compute_loss patches reconstructed (repeat (repeat F32.zero N) B)
    = Ok S754_nan.
Proof.
  intros Hwf Hnoise HN N B. split; [|split].
  - apply random_masking_keep_none; [assumption|].
    now apply len_keep_ratio_one.
  - apply (random_masking_keep_all noise patches F64.zero D); try assumption.
    now apply len_keep_ratio_zero.
  - intros reconstructed S3.
    apply compute_loss_zero_mask_nan; [assumption| |].
    + now apply (zero_mask_goes_with D).
    + apply Forall_forall. intros row Hrow. apply repeat_spec in Hrow.
      subst row. apply Forall_forall. intros w Hw.
      apply repeat_spec in Hw. now subst w.
Qed.

(** ** Ratios that are no numbers *)

Lemma len_keep_nan (N : nat) :
  (Z.of_nat N < 2 ^ 53)%Z -> len_keep N S754_nan = Raise ValueError.
Proof.
  intros HN. unfold len_keep, py_float_of_int.
  change (F64.sub F64.one S754_nan) with S754_nan.
  destruct (Z.of_nat N) as [|p|p] eqn:EN; try lia.
  - reflexivity.
  - destruct (of_Z_exact p HN) as (mn & en & -> & _). reflexivity.
Qed.

Lemma len_keep_infinity (N : nat) (s : bool) :
  0 < N -> (Z.of_nat N < 2 ^ 53)%Z ->
  len_keep N (S754_infinity s) = Raise OverflowError.
Proof.
  intros H0 HN. unfold len_keep, py_float_of_int.
  change (F64.sub F64.one (S754_infinity s)) with (S754_infinity (negb s)).
  destruct (Z.of_nat N) as [|p|p] eqn:EN; try lia.
  destruct (of_Z_exact p HN) as (mn & en & -> & _). reflexivity.
Qed.

(** X11: [random_masking] evaluates [int(N * (1 - mask_ratio))] before it
    draws the noise.  A NaN ratio raises [ValueError] and an infinite
    ratio raises [OverflowError] (for [N >= 1]); in both cases the default
    generator is left in the state it was in. *)
Theorem random_masking_ratio_not_a_number (generator : Type)
    (torch_rand : nat -> nat -> generator -> list (list f32) * generator)
    (patches : list (list (list f32))) (g : generator) :
  (Z.of_nat (num_patches patches) < 2 ^ 53)%Z ->
  random_masking torch_rand patches S754_nan g = (Raise ValueError, g) /\
  (0 < num_patches patches ->
   forall s,
     random_masking torch_rand patches (S754_infinity s) g
     = (Raise OverflowError, g)).
Proof.
  intros HN. split.
  - apply random_masking_raises_before_draw. now apply len_keep_nan.
  - intros H0 s. apply random_masking_raises_before_draw.
    now apply len_keep_infinity.
Qed.

(** ** The default ratio *)

(** X22: with the default [mask_ratio=0.75], which the notebook uses at
    every call, the keep count is exactly [N // 4]: every image keeps
    [N // 4] patches and hides the other [N - N // 4], for every patch
    count below [2^53] (16 kept and 48 hidden for the 64 patches of a
    CIFAR-10 image). *)
Theorem default_ratio_keeps_a_quarter (noise : list (list f32))
    (patches : list (list (list f32))) :
  wf_noise patches noise ->
  (Z.of_nat (num_patches patches) < 2 ^ 53)%Z ->
  let N := num_patches patches in
  len_keep N ratio_notebook = Ok (Z.of_nat (N / 4)) /\
  exists masked mask,
    random_masking_with noise patches ratio_notebook = Ok (masked, mask) /\
    length mask = length patches /\
    Forall (fun row => length row = N /\ count_hidden row = N - N / 4) mask.
Proof.
  intros Hnoise HN N. pose proof (len_keep_default N HN) as Hk.
  split; [assumption|].
  destruct (mask_rows_count noise patches ratio_notebook _ Hnoise Hk)
    as (masked & mask & Hr & Hl & Hrows).
  exists masked, mask. split; [assumption|]. split; [assumption|].
  revert Hrows. apply Forall_impl. intros row [Hlen Hc].
  split; [assumption|]. rewrite Hc. fold N. unfold slice_stop.
  pose proof (Nat.Div0.div_le_upper_bound N 4 N ltac:(lia)) as Hq.
  destruct (Z.ltb_spec (Z.of_nat (N / 4)) 0); lia.
Qed.

(** * The keep count and the floor *)

(** ** Rounding goes to a nearest float *)






(** ** The keep count against the exact floor *)






(** ** The rational floor as a quotient of integers *)







(** ** The keep count at concrete inputs *)





(** * Further properties of the masked loss *)

(** A property of every entry of [loss * mask]. *)
Lemma Forall_weighted (P : f32 -> Prop)
    (original reconstructed : list (list (list f32))) (mask : list (list f32)) :
  same_shape3 original reconstructed = true ->
  same_shape2 original mask = true ->
  (forall b n, b < length original -> n < length (nth b original []) ->
     P (F32.mul (patch_error (nth n (nth b original []) [])
                             (nth n (nth b reconstructed []) []))
                (nth n (nth b mask []) F32.zero))) ->
  Forall P (concat (weighted_errors original reconstructed mask)).
Proof.
  intros S3 S2 H.
  destruct (same_shape3_elim _ _ S3) as [L1 R1].
  destruct (same_shape2_elim _ _ S2) as [Lm Rm].
  apply Forall_concat, Forall_forall. intros row Hrow.
  apply (In_nth _ _ []) in Hrow. destruct Hrow as (b & Hb & <-).
  rewrite length_weighted_errors in Hb by assumption.
  rewrite nth_weighted_row by assumption.
  destruct (R1 b Hb) as [N1 _]. pose proof (Rm b Hb) as Nm.
  apply Forall_forall. intros x Hx.
  apply (In_nth _ _ F32.zero) in Hx. destruct Hx as (n & Hn & <-).
  rewrite length_map, length_combine, length_map, length_combine in Hn.
  rewrite nth_weighted_entry by lia.
  apply H; lia.
Qed.

Lemma compute_loss_Ok (original reconstructed : list (list (list f32)))
    (mask : list (list f32)) :
  same_shape3 original reconstructed = true ->
  same_shape2 original mask = true ->
  compute_loss original reconstructed mask
  = Ok (F32.div (fsum (concat (weighted_errors original reconstructed mask)))
                (fsum (concat mask))).
Proof.
  intros S3 S2. unfold compute_loss. rewrite S3, S2. reflexivity.
Qed.

(** ** The loss is not negative *)

(** X12: for a mask without negative entries (the zeros and ones of
    [random_masking]), whatever the two sequences hold, the loss is never
    a negative number: it is NaN or its sign bit is clear, and the
    comparison [loss < 0] is false. *)
Theorem compute_loss_not_negative
    (original reconstructed : list (list (list f32))) (mask : list (list f32)) :
  same_shape3 original reconstructed = true ->
  same_shape2 original mask = true ->
  Forall (Forall (sign_is false)) mask ->
  exists loss,
    compute_loss original reconstructed mask = Ok loss /\
    sign_is false loss /\ SFltb loss F32.zero = false.
Proof.
  intros S3 S2 Hm. rewrite compute_loss_Ok by assumption.
  eexists. split; [reflexivity|].
  assert (sign_is false
            (F32.div (fsum (concat (weighted_errors original reconstructed mask)))
                     (fsum (concat mask)))) as Hs.
  { change false with (xorb false false). apply SFdiv_sign.
    - apply fold_add_sign; [reflexivity|].
      apply Forall_weighted; try assumption.
      intros b n Hb Hn. change false with (xorb false false).
      apply SFmul_sign; [apply patch_error_sign|].
      destruct (same_shape2_elim _ _ S2) as [Lm Rm].
      rewrite Forall_forall in Hm.
      assert (In (nth b mask []) mask) as Hin by (apply nth_In; lia).
      specialize (Hm _ Hin). rewrite Forall_forall in Hm.
      apply Hm, nth_In. rewrite <- (Rm b Hb). assumption.
    - apply fold_add_sign; [reflexivity|]. now apply Forall_concat. }
  split; [assumption|].
  destruct (F32.div _ _) as [s|s| |s m e]; simpl in Hs; subst; reflexivity.
Qed.

(** ** The two sequences can be exchanged *)

Lemma binary_round_aux_opp (prec emax : Z) (s : bool) (m e : Z) (l : location) :
  binary_round_aux prec emax (negb s) m e l
  = SFopp (binary_round_aux prec emax s m e l).
Proof.
  unfold binary_round_aux.
  destruct (shr_fexp prec emax m e l) as [mrs' e'].
  destruct (shr_fexp prec emax _ e' loc_Exact) as [mrs'' e''].
  destruct (shr_m mrs'') as [|p|p]; try reflexivity.
  destruct (e'' <=? emax - prec)%Z; reflexivity.
Qed.

Lemma binary_normalize_opp (prec emax : Z) (m e : Z) :
  m <> 0%Z ->
  binary_normalize prec emax (- m) e false
  = SFopp (binary_normalize prec emax m e false).
Proof.
  intros Hm. destruct m as [|p|p]; [contradiction| |];
    unfold binary_normalize, binary_round; cbn [Z.opp];
    destruct (shl_align p e _) as [mz ez].
  - apply (binary_round_aux_opp prec emax false).
  - apply (binary_round_aux_opp prec emax true).
Qed.

Lemma mul_opp_opp (prec emax : Z) (z : spec_float) :
  SFmul prec emax (SFopp z) (SFopp z) = SFmul prec emax z z.
Proof. destruct z as [[|]|[|]| |[|] m e]; reflexivity. Qed.

(** [(x - y) ** 2] is [(y - x) ** 2], bit for bit. *)
Lemma square_sub_comm (x y : f32) :
  F32.mul (F32.sub x y) (F32.sub x y) = F32.mul (F32.sub y x) (F32.sub y x).
Proof.
  unfold F32.mul, F32.sub.
  destruct x as [sx|sx| |sx mx ex], y as [sy|sy| |sy my ey];
    try reflexivity;
    try (destruct sx; reflexivity); try (destruct sy; reflexivity);
    try (destruct sx, sy; reflexivity).
  unfold SFsub. rewrite (Z.min_comm ey ex).
  set (a := cond_Zopp sx (Z.pos (fst (shl_align mx ex (Z.min ex ey))))).
  set (b := cond_Zopp sy (Z.pos (fst (shl_align my ey (Z.min ex ey))))).
  destruct (Z.eq_dec (a - b) 0) as [E|E].
  - replace (b - a)%Z with 0%Z by lia. rewrite E. reflexivity.
  - replace (b - a)%Z with (- (a - b))%Z by lia.
    rewrite binary_normalize_opp by assumption. symmetry. apply mul_opp_opp.
Qed.

Lemma patch_error_comm (o r : list f32) :
  length o = length r -> patch_error o r = patch_error r o.
Proof.
  intros Hl. unfold patch_error. rewrite Hl. f_equal. f_equal.
  revert r Hl. induction o as [|x o IH]; intros [|y r] Hl; simpl in *;
    try discriminate; [reflexivity|].
  rewrite square_sub_comm. f_equal. apply IH. lia.
Qed.

Lemma same_shape3_sym {A : Type} (a b : list (list (list A))) :
  same_shape3 a b = true -> same_shape3 b a = true.
Proof.
  intros S. destruct (same_shape3_elim _ _ S) as [L R].
  apply same_shape3_intro; [lia|]. intros i Hi. rewrite <- L in Hi.
  destruct (R i Hi) as [N E]. split; [lia|]. intros j Hj.
  rewrite <- N in Hj. now rewrite E.
Qed.

Lemma same_shape2_other {A C : Type} (a b : list (list (list A)))
    (m : list (list C)) :
  same_shape3 a b = true -> same_shape2 a m = true -> same_shape2 b m = true.
Proof.
  intros S3 S2. destruct (same_shape3_elim _ _ S3) as [L R].
  destruct (same_shape2_elim _ _ S2) as [Lm Rm].
  apply same_shape2_intro; [lia|]. intros i Hi. rewrite <- L in Hi.
  destruct (R i Hi) as [N _]. rewrite <- N. now apply Rm.
Qed.

(** X13: the loss does not depend on which of the two sequences is called
    the original: [compute_loss(a, b, mask)] and [compute_loss(b, a, mask)]
    are the same float, bit for bit. *)
Theorem compute_loss_symmetric
    (original reconstructed : list (list (list f32))) (mask : list (list f32)) :
  same_shape3 original reconstructed = true ->
  same_shape2 original mask = true ->
  compute_loss original reconstructed mask
  = compute_loss reconstructed original mask.
Proof.
  intros S3 S2.
  pose proof (same_shape3_sym _ _ S3) as S3'.
  pose proof (same_shape2_other _ _ _ S3 S2) as S2'.
  rewrite !compute_loss_Ok by assumption.
  destruct (same_shape3_elim _ _ S3) as [L1 R1].
  destruct (same_shape2_elim _ _ S2) as [Lm Rm].
  do 4 f_equal.
  apply nth_ext with (d := []) (d' := []).
  - rewrite !length_weighted_errors; lia.
  - intros b Hb. rewrite length_weighted_errors in Hb by assumption.
    rewrite !nth_weighted_row by lia.
    destruct (R1 b Hb) as [N1 E1]. pose proof (Rm b Hb) as Nm.
    apply nth_ext with (d := F32.zero) (d' := F32.zero).
    + rewrite !length_map, !length_combine, !length_map, !length_combine. lia.
    + intros n Hn.
      rewrite length_map, length_combine, length_map, length_combine in Hn.
      rewrite !nth_weighted_entry by lia.
      f_equal. apply patch_error_comm. apply E1. lia.
Qed.

(** ** NaN anywhere *)

Lemma fold_add_nan_acc (l : list f32) :
  fold_left F32.add l S754_nan = S754_nan.
Proof. induction l as [|x l IH]; simpl; [reflexivity | exact IH]. Qed.

Lemma add_nan_r (x : f32) : F32.add x S754_nan = S754_nan.
Proof. destruct x; reflexivity. Qed.

Lemma fold_add_nan (l : list f32) (acc : f32) :
  In S754_nan l -> fold_left F32.add l acc = S754_nan.
Proof.
  revert acc. induction l as [|x l IH]; intros acc Hin; [destruct Hin|].
  destruct Hin as [E|Hin]; simpl.
  - subst x. rewrite add_nan_r. apply fold_add_nan_acc.
  - now apply IH.
Qed.

Lemma sub_nan (x y : f32) :
  is_nan x = true \/ is_nan y = true -> F32.sub x y = S754_nan.
Proof.
  intros [H|H]; destruct x, y; try discriminate; reflexivity.
Qed.

Lemma patch_error_nan (o r : list f32) (d : nat) :
  length o = length r -> d < length o ->
  is_nan (nth d o F32.zero) = true \/ is_nan (nth d r F32.zero) = true ->
  patch_error o r = S754_nan.
Proof.
  intros Hl Hd Hnan. unfold patch_error, fsum.
  rewrite (fold_add_nan _ F32.zero); [reflexivity|].
  apply in_map_iff. exists (nth d o F32.zero, nth d r F32.zero). split.
  - now rewrite (sub_nan _ _ Hnan).
  - rewrite <- combine_nth by assumption. apply nth_In.
    rewrite length_combine. lia.
Qed.

Lemma mul_nan_l (w : f32) : F32.mul S754_nan w = S754_nan.
Proof. reflexivity. Qed.

(** X14: one NaN in either sequence makes the whole loss NaN, also when
    it sits in a visible patch (mask entry 0): the mask is applied by
    multiplication, and [NaN * 0] is NaN. *)
Theorem compute_loss_nan_anywhere
    (original reconstructed : list (list (list f32))) (mask : list (list f32))
    (b n d : nat) :
  same_shape3 original reconstructed = true ->
  same_shape2 original mask = true ->
  b < length original -> n < length (nth b original []) ->
  d < length (nth n (nth b original []) []) ->
  is_nan (nth d (nth n (nth b original []) []) F32.zero) = true \/
  is_nan (nth d (nth n (nth b reconstructed []) []) F32.zero) = true ->
  compute_loss original reconstructed mask = Ok S754_nan.
Proof.
  intros S3 S2 Hb Hn Hd Hnan. rewrite compute_loss_Ok by assumption.
  destruct (same_shape3_elim _ _ S3) as [L1 R1].
  destruct (same_shape2_elim _ _ S2) as [Lm Rm].
  destruct (R1 b Hb) as [N1 E1]. pose proof (Rm b Hb) as Nm.
  unfold fsum at 1.
  rewrite (fold_add_nan _ F32.zero); [reflexivity|].
  apply in_concat.
  exists (nth b (weighted_errors original reconstructed mask) []). split.
  - apply nth_In. rewrite length_weighted_errors; assumption.
  - rewrite nth_weighted_row by assumption.
    rewrite <- (mul_nan_l (nth n (nth b mask []) F32.zero)).
    rewrite <- (patch_error_nan (nth n (nth b original []) [])
                  (nth n (nth b reconstructed []) []) d (E1 n Hn) Hd Hnan).
    rewrite <- nth_weighted_entry by lia.
    apply nth_In.
    rewrite length_map, length_combine, length_map, length_combine. lia.
Qed.

(** ** The sum of a mask that hides something *)

Lemma binary_round_aux_pos_from (p : positive) (e : Z) (l : location) :
  (-126 <= e)%Z ->
  pos_from e (binary_round_aux F32.prec F32.emax false (Z.pos p) e l).
Proof.
  intros He. unfold binary_round_aux.
  destruct (shr_fexp_pos p e l) as (p1 & H1 & He1); [lia|].
  destruct (shr_fexp F32.prec F32.emax (Z.pos p) e l) as [mrs' e'].
  cbn [fst snd] in H1, He1. rewrite H1.
  destruct (round_nearest_even_pos p1 (loc_of_shr_record mrs')) as [p2 ->].
  destruct (shr_fexp_pos p2 e' loc_Exact) as (p3 & H3 & He3); [lia|].
  destruct (shr_fexp F32.prec F32.emax (Z.pos p2) e' loc_Exact) as [mrs'' e''].
  cbn [fst snd] in H3, He3. rewrite H3.
  destruct (e'' <=? F32.emax - F32.prec)%Z; simpl; lia.
Qed.

Lemma add_one_pos (acc : f32) :
  pos_from (-23) acc -> pos_from (-23) (F32.add acc F32.one).
Proof.
  destruct acc as [s|[|]| |[|] m e]; try contradiction; intros Hacc;
    [exact I|].
  simpl in Hacc. unfold F32.add, F32.one, SFadd.
  replace (Z.min e (-23)) with (-23)%Z by lia.
  change (fst (shl_align 8388608 (-23) (-23))) with 8388608%positive.
  cbn [cond_Zopp].
  set (pm := fst (shl_align m e (-23))).
  change (Z.pos pm + 8388608)%Z with (Z.pos (pm + 8388608)).
  unfold binary_normalize, binary_round, shl_align, fexp, emin,
    F32.prec, F32.emax.
  set (q := (pm + 8388608)%positive).
  assert (24 <= Z.pos (digits2_pos q))%Z as Hd.
  { pose proof (digits2_pos_bound q) as Hb.
    assert (2 ^ 23 < 2 ^ Z.pos (digits2_pos q))%Z as U
      by (change (2 ^ 23)%Z with 8388608%Z; unfold q in *; lia).
    apply Z.pow_lt_mono_r_iff in U; lia. }
  destruct (Z.max (Z.pos (digits2_pos q) + -23 - 24) (3 - 128 - 24) - -23)%Z
    as [|d|d] eqn:Ed; try lia;
    apply binary_round_aux_pos_from; lia.
Qed.

Lemma add_zero_pos (e0 : Z) (acc : f32) :
  pos_from e0 acc -> F32.add acc F32.zero = acc.
Proof.
  destruct acc as [s|[|]| |[|] m e]; try contradiction; reflexivity.
Qed.

Lemma fold_add_binary_pos (l : list f32) (acc : f32) :
  Forall (fun x => x = F32.zero \/ x = F32.one) l ->
  pos_from (-23) acc -> pos_from (-23) (fold_left F32.add l acc).
Proof.
  revert acc. induction l as [|x l IH]; intros acc Hl Hacc; simpl;
    [assumption|].
  inversion Hl as [|x' l' Hx Hl']; subst. apply IH; [assumption|].
  destruct Hx as [-> | ->].
  - now rewrite (add_zero_pos (-23)).
  - now apply add_one_pos.
Qed.

(** A mask of zeros and ones that holds a one has a positive sum. *)
Lemma fsum_binary_pos (l : list f32) :
  Forall (fun x => x = F32.zero \/ x = F32.one) l ->
  In F32.one l -> pos_from (-23) (fsum l).
Proof.
  unfold fsum. induction l as [|x l IH]; intros Hl Hin; [destruct Hin|].
  inversion Hl as [|x' l' Hx Hl']; subst. simpl.
  destruct Hx as [-> | ->].
  - change (F32.add F32.zero F32.zero) with F32.zero. apply IH; [assumption|].
    destruct Hin as [E|Hin]; [discriminate E | assumption].
  - change (F32.add F32.zero F32.one) with F32.one.
    apply fold_add_binary_pos; [assumption|]. simpl. lia.
Qed.

Lemma pos_from_not_zero (e0 : Z) (x : f32) :
  pos_from e0 x -> is_zero x = false /\ is_nan x = false /\ sign_is false x.
Proof.
  destruct x as [s|[|]| |[|] m e]; try contradiction; intros _;
    repeat split.
Qed.

Lemma wf_patches_shape (D : nat) (patches : list (list (list f32))) :
  wf_patches D patches ->
  has_shape3 (length patches) (num_patches patches) D patches.
Proof. intros H. split; [reflexivity | exact H]. Qed.

(** ** Exact reconstruction of the hidden patches *)

(** X15: when the reconstruction equals the original on every hidden
    patch, the loss is exactly zero however wrong the visible patches
    are, as long as their errors are finite numbers.  (Mask of zeros and
    ones with at least one 1, finite original values, patches not
    empty.) *)
Theorem hidden_exact_zero_loss
    (original reconstructed : list (list (list f32))) (mask : list (list f32)) :
  same_shape3 original reconstructed = true ->
  same_shape2 original mask = true ->
  Forall (Forall (fun w => w = F32.zero \/ w = F32.one)) mask ->
  In F32.one (concat mask) ->
  (forall b n, b < length original -> n < length (nth b original []) ->
     let o := nth n (nth b original []) [] in
     let r := nth n (nth b reconstructed []) [] in
     if is_zero (nth n (nth b mask []) F32.zero)
     then is_finite (patch_error o r) = true
     else r = o /\ 0 < length o /\ Forall (fun x => is_finite x = true) o) ->
  exists loss,
    compute_loss original reconstructed mask = Ok loss /\ is_zero loss = true.
Proof.
  intros S3 S2 Hbin Hone H. rewrite compute_loss_Ok by assumption.
  eexists. split; [reflexivity|].
  destruct (pos_from_not_zero _ _
              (fsum_binary_pos (concat mask) (Forall_concat _ _ Hbin) Hone))
    as (Hz & Hn & _).
  apply div_zero_l; try assumption.
  apply fold_add_zero; [reflexivity|].
  apply Forall_weighted; try assumption.
  intros b n Hb Hn'. specialize (H b n Hb Hn'). cbv zeta in H.
  destruct (same_shape2_elim _ _ S2) as [Lm Rm].
  assert (In (nth n (nth b mask []) F32.zero) (nth b mask [])) as Hin
    by (apply nth_In; rewrite <- (Rm b Hb); assumption).
  assert (In (nth b mask []) mask) as Hin' by (apply nth_In; lia).
  rewrite Forall_forall in Hbin. specialize (Hbin _ Hin').
  rewrite Forall_forall in Hbin. specialize (Hbin _ Hin).
  destruct (is_zero (nth n (nth b mask []) F32.zero)) eqn:Z.
  - rewrite mul_finite_zero; auto using patch_error_sign.
  - destruct H as (-> & Hlen & Hfin).
    rewrite patch_error_self by assumption.
    destruct Hbin as [E|E]; rewrite E in Z |- *; [discriminate Z | reflexivity].
Qed.

(** ** Masking, then the loss *)

Lemma count_hidden_pos_one (row : list f32) :
  Forall (fun x => x = F32.zero \/ x = F32.one) row ->
  0 < count_hidden row -> In F32.one row.
Proof.
  unfold count_hidden. intros Hbin Hc.
  destruct (filter (fun x => F32.eqb x F32.one) row) as [|x l] eqn:Ef;
    [simpl in Hc; lia|].
  assert (In x (filter (fun x => F32.eqb x F32.one) row)) as Hin
    by (rewrite Ef; now left).
  apply filter_In in Hin. destruct Hin as [Hin Hx].
  rewrite Forall_forall in Hbin. destruct (Hbin _ Hin) as [-> | ->];
    [|assumption].
  rewrite F32_eqb_zero_one in Hx. discriminate Hx.
Qed.

(** A mask that hides a patch: zeros and ones, with a positive sum. *)
Lemma hidden_mask_sum (noise : list (list f32))
    (patches : list (list (list f32))) (mask_ratio : f64) (k : Z) :
  wf_noise patches noise ->
  len_keep (num_patches patches) mask_ratio = Ok k ->
  (0 <= k < Z.of_nat (num_patches patches))%Z ->
  0 < length patches ->
  exists masked mask,
    random_masking_with noise patches mask_ratio = Ok (masked, mask) /\
    has_shape2 (length patches) (num_patches patches) mask /\
    Forall (Forall (fun w => w = F32.zero \/ w = F32.one)) mask /\
    Forall (fun row =>
              count_hidden row = num_patches patches - Z.to_nat k) mask /\
    pos_from (-23) (fsum (concat mask)).
Proof.
  intros Hnoise Hk Hrange HB.
  destruct (mask_cardinality_for_count noise patches mask_ratio k Hnoise
              ltac:(lia) Hk) as (masked & mask & Hr & Hl & Hrows).
  exists masked, mask. split; [assumption|].
  assert (Forall (Forall (fun w => w = F32.zero \/ w = F32.one)) mask) as Hbin
    by (revert Hrows; apply Forall_impl; intros row (_ & Hb & _); exact Hb).
  assert (In F32.one (concat mask)) as Hone.
  { destruct mask as [|row mask]; [simpl in Hl; lia|].
    inversion Hrows as [|row' mask' (_ & Hb & Hc) _]; subst.
    simpl. apply in_or_app. left.
    apply count_hidden_pos_one; [assumption | lia]. }
  split; [|split; [assumption|split]].
  - split; [assumption|].
    revert Hrows. apply Forall_impl. intros row (Hlen & _). exact Hlen.
  - revert Hrows. apply Forall_impl. intros row (_ & _ & Hc). exact Hc.
  - apply fsum_binary_pos; [now apply Forall_concat | assumption].
Qed.

(** X16: whenever [random_masking] hides at least one patch (keep count
    [0 <= k < N], batch not empty) the sum of the mask it returns is a
    positive number, so [compute_loss] does not divide by zero on it; and
    then the loss of the patches against themselves is exactly zero
    (finite values, [D >= 1]). *)
Theorem masking_then_loss (noise : list (list f32))
    (patches : list (list (list f32))) (mask_ratio : f64) (D : nat) (k : Z) :
  wf_patches D patches -> wf_noise patches noise ->
  len_keep (num_patches patches) mask_ratio = Ok k ->
  (0 <= k < Z.of_nat (num_patches patches))%Z ->
  0 < length patches ->
  exists masked mask,
    random_masking_with noise patches mask_ratio = Ok (masked, mask) /\
    is_zero (fsum (concat mask)) = false /\
    is_nan (fsum (concat mask)) = false /\
    (0 < D ->
     Forall (Forall (Forall (fun x => is_finite x = true))) patches ->
     exists loss,
       compute_loss patches patches mask = Ok loss /\ is_zero loss = true).
Proof.
  intros Hwf Hnoise Hk Hrange HB.
  destruct (hidden_mask_sum noise patches mask_ratio k Hnoise Hk Hrange HB)
    as (masked & mask & Hr & Hshape & Hbin & _ & Hpos).
  exists masked, mask. split; [assumption|].
  destruct (pos_from_not_zero _ _ Hpos) as (Hz & Hn & _).
  split; [assumption|]. split; [assumption|].
  intros HD Hfin.
  apply (exact_reconstruction_zero (length patches) (num_patches patches) D);
    try assumption.
  - now apply wf_patches_shape.
  - revert Hbin. apply Forall_impl. intros row. apply Forall_impl.
    intros w [-> | ->]; reflexivity.
Qed.

(** * The masked loss whatever the order of the sums *)

(** ** Sums in any order *)

(** What holds of [0.0] and of every element, and is kept by an
    addition, holds of every sum. *)
Lemma sums_to_closed (P : f32 -> Prop) (l : list f32) (s : f32) :
  P F32.zero -> (forall a b, P a -> P b -> P (F32.add a b)) ->
  sums_to l s -> Forall P l -> P s.
Proof.
  intros H0 Hadd Hs. induction Hs as [|x|l1 l2 s1 s2 _ IH1 _ IH2|l l' s Hp _ IH];
    intros Hl.
  - exact H0.
  - now inversion Hl.
  - apply Forall_app in Hl. destruct Hl as [Hl1 Hl2]. auto.
  - apply IH. exact (Permutation_Forall (Permutation_sym Hp) Hl).
Qed.

(** A NaN among the elements makes every sum NaN. *)
Lemma sums_to_nan (l : list f32) (s : f32) :
  sums_to l s -> In S754_nan l -> s = S754_nan.
Proof.
  intros Hs. induction Hs as [|x|l1 l2 s1 s2 _ IH1 _ IH2|l l' s Hp _ IH];
    intros Hin.
  - destruct Hin.
  - destruct Hin as [E|[]]. now subst x.
  - apply in_app_or in Hin. destruct Hin as [Hin|Hin].
    + now rewrite (IH1 Hin).
    + rewrite (IH2 Hin). apply add_nan_r.
  - apply IH. exact (Permutation_in _ (Permutation_sym Hp) Hin).
Qed.

(** The sum of no element is [0.0], and the sum of one [1.0] is [1.0]. *)
Lemma sums_to_short (l : list f32) (s : f32) :
  sums_to l s ->
  (l = [] -> s = F32.zero) /\ (l = [F32.one] -> s = F32.one).
Proof.
  intros Hs. induction Hs as [|x|l1 l2 s1 s2 _ IH1 _ IH2|l l' s Hp _ IH].
  - split; [reflexivity | discriminate].
  - split; [discriminate | now intros [= ->]].
  - destruct IH1 as [N1 O1], IH2 as [N2 O2]. split.
    + intros E. apply app_eq_nil in E. destruct E as [E1 E2].
      now rewrite (N1 E1), (N2 E2).
    + intros E. destruct l1 as [|x l1].
      * simpl in E. now rewrite (N1 eq_refl), (O2 E).
      * simpl in E. injection E as Ex E.
        apply app_eq_nil in E. destruct E as [E1 E2]. subst x l1.
        now rewrite (O1 eq_refl), (N2 E2).
  - destruct IH as [N1 O1]. split.
    + intros ->. apply Permutation_sym, Permutation_nil in Hp. auto.
    + intros ->. apply Permutation_sym, Permutation_length_1_inv in Hp. auto.
Qed.

(** Adding from left to right and adding from right to left are two of
    the orders. *)
Lemma fold_left_sums_to (l pre : list f32) (acc : f32) :
  sums_to pre acc -> sums_to (pre ++ l) (fold_left F32.add l acc).
Proof.
  revert pre acc. induction l as [|x l IH]; intros pre acc Hacc; simpl.
  - now rewrite app_nil_r.
  - replace (pre ++ x :: l) with ((pre ++ [x]) ++ l)
      by (now rewrite <- app_assoc).
    apply IH. apply sums_app; [assumption | constructor].
Qed.

Lemma fsum_sums_to (l : list f32) : sums_to l (fsum l).
Proof. exact (fold_left_sums_to l [] F32.zero sums_nil). Qed.

Lemma fsum_right_sums_to (l : list f32) : sums_to l (fsum_right l).
Proof.
  induction l as [|x l IH]; [constructor|].
  change (x :: l) with ([x] ++ l). apply sums_app; [constructor | exact IH].
Qed.

Lemma fmean_means_to (l : list f32) : means_to l (fmean l).
Proof. exists (fsum l). split; [apply fsum_sums_to | reflexivity]. Qed.

Lemma fmean_right_means_to (l : list f32) : means_to l (fmean_right l).
Proof. exists (fsum_right l). split; [apply fsum_right_sums_to | reflexivity]. Qed.

(** ** The loss against the worded definition *)

Section AnyReductions.
Variable row_mean : list f32 -> f32.
Variable total : list f32 -> f32.

Lemma patch_error_with_surface (D : nat)
    (original reconstructed : list (list (list f32))) (b n : nat) :
  length (nth n (nth b original []) []) = D ->
  length (nth n (nth b reconstructed []) []) = D ->
  patch_error_with row_mean
    (nth n (nth b original []) []) (nth n (nth b reconstructed []) [])
  = error_surface_with row_mean D original reconstructed b n.
Proof.
  intros Ho Hr. unfold patch_error_with, error_surface_with.
  rewrite (map_combine_seq _ _ _ F32.zero) by congruence.
  now rewrite Ho.
Qed.

Lemma compute_loss_with_refines (B N D : nat)
    (original reconstructed : list (list (list f32))) (mask : list (list f32)) :
  has_shape3 B N D original -> has_shape3 B N D reconstructed ->
  has_shape2 B N mask ->
  compute_loss_with row_mean total original reconstructed mask
  = Ok (masked_loss_spec_with row_mean total B N D
          original reconstructed mask).
Proof.
  intros Ho Hr Hm.
  destruct (shapes_go_together B N D _ _ _ Ho Hr Hm) as [S3 S2].
  unfold compute_loss_with. rewrite S3, S2. cbn [andb].
  apply has_shape3_nth in Ho, Hr. apply has_shape2_nth in Hm.
  destruct Ho as [Lo Ho], Hr as [Lr Hr], Hm as [Lm Hm].
  unfold masked_loss_spec_with. rewrite !flat_map_concat_map.
  do 4 f_equal.
  - apply nth_ext with (d := []) (d' := []).
    + rewrite length_map, length_combine, length_map, length_combine.
      rewrite length_map, length_seq. lia.
    + intros b Hb.
      rewrite length_map, length_combine, length_map, length_combine in Hb.
      assert (b < B) as Hb' by lia.
      rewrite (nth_map_combine _ _ mask b [] [] [])
        by (rewrite ?length_map, ?length_combine; lia).
      rewrite (nth_map_combine _ original reconstructed b [] [] []) by lia.
      rewrite nth_map_seq by assumption.
      destruct (Ho b Hb') as [No Do], (Hr b Hb') as [Nr Dr].
      pose proof (Hm b Hb') as Nm.
      apply nth_ext with (d := F32.zero) (d' := F32.zero).
      * rewrite !length_map, !length_combine, !length_map, !length_combine,
          length_seq. lia.
      * intros n Hn.
        rewrite length_map, length_combine, length_map, length_combine in Hn.
        assert (n < N) as Hn' by lia.
        rewrite (nth_map_combine _ _ (nth b mask []) n F32.zero F32.zero F32.zero)
          by (rewrite ?length_map, ?length_combine; lia).
        rewrite (nth_map_combine _ (nth b original []) (nth b reconstructed [])
                   n [] [] F32.zero) by lia.
        rewrite nth_map_seq by assumption.
        now rewrite patch_error_with_surface with (D := D) by auto.
  - apply nth_ext with (d := []) (d' := []).
    + now rewrite length_map, length_seq.
    + intros b Hb. rewrite Lm in Hb.
      rewrite nth_map_seq by assumption.
      rewrite <- (Hm b Hb). symmetry. apply map_seq_nth.
Qed.

(** ** Exact reconstruction *)

Hypothesis row_mean_ok : forall l, means_to l (row_mean l).
Hypothesis total_ok : forall l, sums_to l (total l).

Lemma add_zeros (a b : f32) :
  is_zero a = true -> is_zero b = true -> is_zero (F32.add a b) = true.
Proof.
  destruct a as [sa| | |]; try discriminate.
  destruct b as [sb| | |]; try discriminate.
  intros _ _. destruct sa, sb; reflexivity.
Qed.

Lemma patch_error_with_self (o : list f32) :
  Forall (fun x => is_finite x = true) o -> 0 < length o ->
  patch_error_with row_mean o o = S754_zero false.
Proof.
  intros Hf Hl. unfold patch_error_with.
  set (sq := map (fun '(x, y) => F32.mul (F32.sub x y) (F32.sub x y))
                 (combine o o)).
  assert (length sq = length o) as Hlen
    by (unfold sq; rewrite length_map, length_combine; lia).
  destruct (row_mean_ok sq) as (s & Hs & ->).
  assert (s = S754_zero false) as ->.
  { apply (sums_to_closed (fun x => x = S754_zero false) sq s);
      [reflexivity | now intros a b -> -> | exact Hs |].
    apply Forall_map, Forall_forall. intros [x y] Hin.
    apply in_combine_same in Hin. destruct Hin as [<- Hin].
    rewrite Forall_forall in Hf. now rewrite sub_self by auto. }
  rewrite Hlen. pose proof (of_nat_nonzero (length o) Hl) as Hn.
  destruct (F32.of_nat (length o)) as [b|b| |b m e]; try contradiction;
    destruct b; try contradiction; reflexivity.
Qed.

Lemma exact_reconstruction_zero_with (B N D : nat)
    (original : list (list (list f32))) (mask : list (list f32)) :
  has_shape3 B N D original -> has_shape2 B N mask -> 0 < D ->
  Forall (Forall (Forall (fun x => is_finite x = true))) original ->
  Forall (Forall (fun w => is_finite w = true)) mask ->
  is_zero (total (concat mask)) = false ->
  is_nan (total (concat mask)) = false ->
  exists loss,
    compute_loss_with row_mean total original original mask = Ok loss /\
    is_zero loss = true.
Proof.
  intros Ho Hm HD Hfin Hmask Hz Hn.
  destruct (shapes_go_together B N D _ _ _ Ho Ho Hm) as [S3 S2].
  unfold compute_loss_with. rewrite S3, S2. cbn [andb].
  eexists. split; [reflexivity|].
  apply div_zero_l; try assumption.
  apply (sums_to_closed (fun x => is_zero x = true) _ _ eq_refl add_zeros
           (total_ok _)).
  apply Forall_concat, Forall_map, Forall_forall. intros [l m] Hin.
  apply Forall_map, Forall_forall. intros [e w] Hin'.
  pose proof (in_combine_l _ _ _ _ Hin) as Hl.
  pose proof (in_combine_r _ _ _ _ Hin) as Hmrow.
  pose proof (in_combine_l _ _ _ _ Hin') as He.
  pose proof (in_combine_r _ _ _ _ Hin') as Hw.
  apply in_map_iff in Hl. destruct Hl as ([o r] & <- & Hor).
  apply in_combine_same in Hor. destruct Hor as [<- Ho'].
  apply in_map_iff in He. destruct He as ([x y] & <- & Hxy).
  apply in_combine_same in Hxy. destruct Hxy as [<- Hx].
  destruct Ho as [_ Hrows].
  rewrite Forall_forall in Hrows, Hfin, Hmask.
  destruct (Hrows _ Ho') as [_ Hp]. rewrite Forall_forall in Hp.
  pose proof (Hfin _ Ho') as Hfo. rewrite Forall_forall in Hfo.
  pose proof (Hmask _ Hmrow) as Hfm. rewrite Forall_forall in Hfm.
  rewrite patch_error_with_self.
  - apply mul_zero_finite. now apply Hfm.
  - now apply Hfo.
  - rewrite (Hp _ Hx). exact HD.
Qed.

End AnyReductions.

(** ** The left-to-right loss is one of them *)

Lemma compute_loss_left_to_right
    (original reconstructed : list (list (list f32))) (mask : list (list f32)) :
  compute_loss original reconstructed mask
  = compute_loss_with fmean fsum original reconstructed mask.
Proof.
  unfold compute_loss, compute_loss_with.
  destruct (same_shape3 original reconstructed) eqn:S3; [|reflexivity].
  destruct (same_shape2 original mask); [|reflexivity]. cbn [andb].
  do 6 f_equal. apply map_ext_in. intros [o r] Hin.
  apply map_ext_in. intros [x y] Hin'.
  unfold same_shape3 in S3. apply andb_prop in S3. destruct S3 as [_ S3].
  rewrite forallb_forall in S3. specialize (S3 _ Hin). cbv beta iota in S3.
  apply andb_prop in S3. destruct S3 as [_ S3].
  rewrite forallb_forall in S3. specialize (S3 _ Hin'). cbv beta iota in S3.
  apply Nat.eqb_eq in S3.
  unfold patch_error, patch_error_with, fmean.
  rewrite length_map, length_combine, <- S3, Nat.min_id. reflexivity.
Qed.

(** C4 (amended): whatever the order in which the mean over a patch and
    the sum over the batch add their elements, on an original and a
    reconstruction of shape [B,N,D] and a mask of shape [B,N],
    [compute_loss] is the squared error mean-reduced over [D], times the
    mask, summed over all entries and divided by the sum of the mask.
    When moreover the reconstruction is the original, [D >= 1], every
    entry of the original and of the mask is a finite number and the sum
    of the mask is neither zero nor NaN, the loss is zero. *)
Theorem compute_loss_is_masked_mean (row_mean total : list f32 -> f32)
    (B N D : nat)
    (original reconstructed : list (list (list f32))) (mask : list (list f32)) :
  (forall l, means_to l (row_mean l)) -> (forall l, sums_to l (total l)) ->
  has_shape3 B N D original -> has_shape3 B N D reconstructed ->
  has_shape2 B N mask ->
  compute_loss_with row_mean total original reconstructed mask
  = Ok (masked_loss_spec_with row_mean total B N D
          original reconstructed mask) /\
  (reconstructed = original -> 0 < D ->
   Forall (Forall (Forall (fun x => is_finite x = true))) original ->
   Forall (Forall (fun w => is_finite w = true)) mask ->
   is_zero (total (concat mask)) = false ->
   is_nan (total (concat mask)) = false ->
   is_zero (masked_loss_spec_with row_mean total B N D
              original reconstructed mask) = true).
Proof.
  intros Hmean Htotal Ho Hr Hm.
  pose proof (compute_loss_with_refines row_mean total B N D _ _ _ Ho Hr Hm)
    as Href.
  split; [exact Href|].
  intros -> HD Hfin Hmask Hz Hn.
  destruct (exact_reconstruction_zero_with row_mean total Hmean Htotal
              B N D _ _ Ho Hm HD Hfin Hmask Hz Hn) as (loss & Hl & Hzero).
  rewrite Href in Hl. injection Hl as Hl. now rewrite Hl.
Qed.

(** ** The loss at concrete inputs *)

Lemma five_zeros_shape : has_shape3 1 1 5 five_zeros.
Proof. split; [reflexivity | repeat constructor]. Qed.

Lemma five_values_shape : has_shape3 1 1 5 five_values.
Proof. split; [reflexivity | repeat constructor]. Qed.

Lemma one_mask_shape : has_shape2 1 1 [[F32.one]].
Proof. split; [reflexivity | repeat constructor]. Qed.

(** Five squared errors [1, 2 ** 24, 1, 1, 1] have the mean 3355444.
    Added from left to right every [1] is lost to rounding and the loss
    is 3355443.25; added from right to left the loss is 3355444. *)
Example compute_loss_order_matters :
  compute_loss five_zeros five_values [[F32.one]]
  = Ok (S754_finite false 13421773 (-2)) /\
  compute_loss_with fmean_right fsum_right five_zeros five_values [[F32.one]]
  = Ok (S754_finite false 13421776 (-2)).
Proof. split; vm_compute; reflexivity. Qed.

Lemma compute_loss_is_masked_mean_instance :
  ((forall l, means_to l (fmean_right l)) /\
   (forall l, sums_to l (fsum_right l)) /\
   has_shape3 1 1 5 five_zeros /\ has_shape3 1 1 5 five_values /\
   has_shape2 1 1 [[F32.one]] /\
   has_shape3 1 4 1 sample_patches /\ has_shape2 1 4 sample_mask) /\
  compute_loss_with fmean_right fsum_right five_zeros five_values [[F32.one]]
  = Ok (masked_loss_spec_with fmean_right fsum_right 1 1 5
          five_zeros five_values [[F32.one]]) /\
  masked_loss_spec_with fmean_right fsum_right 1 1 5
    five_zeros five_values [[F32.one]]
  = S754_finite false 13421776 (-2) /\
  is_zero (masked_loss_spec_with fmean_right fsum_right 1 4 1
             sample_patches sample_patches sample_mask) = true.
Proof.
  split; [repeat split;
          auto using fmean_right_means_to, fsum_right_sums_to,
            five_zeros_shape, five_values_shape, one_mask_shape;
          repeat constructor|].
  split; [|split; [vm_compute; reflexivity|]].
  - exact (proj1 (compute_loss_is_masked_mean fmean_right fsum_right 1 1 5
                    five_zeros five_values [[F32.one]]
                    fmean_right_means_to fsum_right_sums_to
                    five_zeros_shape five_values_shape one_mask_shape)).
  - apply (proj2 (compute_loss_is_masked_mean fmean_right fsum_right 1 4 1
                    sample_patches sample_patches sample_mask
                    fmean_right_means_to fsum_right_sums_to
                    sample_patches_shape sample_patches_shape
                    sample_mask_shape)).
    + reflexivity.
    + repeat constructor.
    + repeat constructor.
    + repeat constructor.
    + vm_compute. reflexivity.
    + vm_compute. reflexivity.
Defined.

(** ** Exact reconstruction with a loss that is not zero *)

Lemma means_to_nan (l : list f32) (m : f32) :
  means_to l m -> In S754_nan l -> m = S754_nan.
Proof.
  intros (s & Hs & ->) Hin. now rewrite (sums_to_nan l s Hs Hin).
Qed.

Lemma means_to_nil (m : f32) : means_to [] m -> m = S754_nan.
Proof.
  intros (s & Hs & ->).
  now rewrite (proj1 (sums_to_short [] s Hs) eq_refl).
Qed.

Lemma means_to_pos_zero (m : f32) :
  means_to [S754_zero false] m -> m = S754_zero false.
Proof.
  intros (s & Hs & ->).
  assert (s = S754_zero false) as ->; [|reflexivity].
  apply (sums_to_closed (fun x => x = S754_zero false) [S754_zero false] s);
    [reflexivity | now intros a b -> -> | exact Hs | now constructor].
Qed.

(** An original that holds an infinity, or patches of no element, is
    reconstructed exactly and yet the loss is NaN, whatever the order of
    the sums; so it is with an infinite mask entry.  The sum of the mask
    [[1.0]] is [1.0]. *)
Lemma exact_reconstruction_nan_loss :
  let original := [[[S754_infinity false]]] in
  let empty := [[@nil f32]] in
  let mask := [[F32.one]] in
  (has_shape3 1 1 1 original /\ has_shape3 1 1 0 empty /\
   has_shape3 1 1 1 [[[F32.one]]] /\ has_shape2 1 1 mask /\
   is_zero S754_nan = false) /\
  forall row_mean total : list f32 -> f32,
    (forall l, means_to l (row_mean l)) -> (forall l, sums_to l (total l)) ->
    total (concat mask) = F32.one /\
    compute_loss_with row_mean total original original mask = Ok S754_nan /\
    compute_loss_with row_mean total empty empty mask = Ok S754_nan /\
    compute_loss_with row_mean total [[[F32.one]]] [[[F32.one]]]
      [[S754_infinity false]]
    = Ok S754_nan.
Proof.
  cbv zeta. split; [repeat split; repeat constructor|].
  intros row_mean total Hmean Htotal.
  assert (forall l, In S754_nan l -> total l = S754_nan) as Tnan
    by (intros l Hin; exact (sums_to_nan l _ (Htotal l) Hin)).
  split; [exact (proj2 (sums_to_short _ _ (Htotal [F32.one])) eq_refl)|].
  unfold compute_loss_with, patch_error_with.
  cbn [same_shape3 same_shape2 length combine forallb Nat.eqb andb map concat
       app].
  repeat split.
  - rewrite (means_to_nan _ _ (Hmean _)) by (now left).
    rewrite Tnan by (now left). reflexivity.
  - rewrite (means_to_nil _ (Hmean [])).
    rewrite Tnan by (now left). reflexivity.
  - match goal with
    | |- context [row_mean ?l] =>
        rewrite (means_to_pos_zero (row_mean l) (Hmean l))
    end.
    rewrite Tnan by (now left). reflexivity.
Qed.

(** * From images to the masked panel *)

(** ** The two views of a tensor *)

Lemma length_chunks {A : Type} (n c : nat) (l : list A) :
  length (chunks n c l) = c.
Proof. revert l; induction c as [|c IH]; intros l; simpl; congruence. Qed.

Lemma nth_chunks {A : Type} (n c i : nat) (l : list A) :
  i < c -> nth i (chunks n c l) [] = firstn n (skipn (i * n) l).
Proof.
  revert i l; induction c as [|c IH]; intros i l Hi; [lia|].
  destruct i as [|i]; simpl; [reflexivity|].
  rewrite IH by lia. rewrite skipn_skipn. now rewrite Nat.add_comm.
Qed.

Lemma nth_firstn_skipn {A : Type} (n s j : nat) (l : list A) (d : A) :
  j < n -> nth j (firstn n (skipn s l)) d = nth (s + j) l d.
Proof.
  intros Hj. rewrite nth_firstn.
  rewrite (proj2 (Nat.ltb_lt _ _) Hj). apply nth_skipn.
Qed.

Lemma length_firstn_skipn {A : Type} (n s : nat) (l : list A) :
  s + n <= length l -> length (firstn n (skipn s l)) = n.
Proof. intros H. rewrite length_firstn, length_skipn. lia. Qed.

Lemma nth_concat_uniform {A : Type} (ll : list (list A)) (n i j : nat) (d : A) :
  Forall (fun r => length r = n) ll -> i < length ll -> j < n ->
  nth (i * n + j) (concat ll) d = nth j (nth i ll []) d.
Proof.
  intros Hll. revert i. induction Hll as [|r ll Hr _ IH]; intros i Hi Hj;
    [simpl in Hi; lia|].
  destruct i as [|i]; simpl.
  - apply app_nth1. lia.
  - rewrite app_nth2 by lia. rewrite Hr.
    replace (n + i * n + j - n) with (i * n + j) by lia.
    apply IH; [simpl in Hi; lia | assumption].
Qed.

Lemma length_concat_uniform {A : Type} (ll : list (list A)) (n : nat) :
  Forall (fun r => length r = n) ll -> length (concat ll) = length ll * n.
Proof.
  induction 1 as [|r ll Hr _ IH]; simpl; [reflexivity|].
  rewrite length_app, IH, Hr. reflexivity.
Qed.

(** The entries of [rows_of t] are the elements of [t]. *)
Lemma rows_of_shape {A : Type} (t : tensor A) (B N D : nat) :
  wf_tensor t -> shape t = [B; N; D] -> has_shape3 B N D (rows_of t).
Proof.
  intros Hwf Hs. unfold wf_tensor in Hwf. rewrite Hs in Hwf.
  cbn [numel fold_right] in Hwf. rewrite Nat.mul_1_r in Hwf.
  unfold rows_of. rewrite Hs. split.
  - now rewrite length_map, length_chunks.
  - apply Forall_map, Forall_forall. intros row Hrow.
    apply (In_nth _ _ []) in Hrow. destruct Hrow as (b & Hb & <-).
    rewrite length_chunks in Hb. rewrite nth_chunks by assumption.
    split; [apply length_chunks|].
    apply Forall_forall. intros p Hp.
    apply (In_nth _ _ []) in Hp. destruct Hp as (n & Hn & <-).
    rewrite length_chunks in Hn. rewrite nth_chunks by assumption.
    apply length_firstn_skipn.
    rewrite length_firstn_skipn by nia. nia.
Qed.

Lemma nth_rows_of {A : Type} (t : tensor A) (B N D b n d : nat) (x : A) :
  wf_tensor t -> shape t = [B; N; D] -> b < B -> n < N -> d < D ->
  nth d (nth n (nth b (rows_of t) []) []) x
  = nth (ravel [B; N; D] [b; n; d]) (data t) x.
Proof.
  intros Hwf Hs Hb Hn Hd. unfold rows_of. rewrite Hs.
  rewrite (nth_indep _ [] (chunks D N []))
    by (rewrite length_map, length_chunks; assumption).
  rewrite map_nth. rewrite !nth_chunks by assumption.
  rewrite nth_firstn_skipn by assumption.
  rewrite nth_firstn_skipn by nia.
  f_equal. cbn [ravel numel fold_right]. lia.
Qed.

Lemma num_patches_rows_of {A : Type} (t : tensor A) (B N D : nat) :
  shape t = [B; N; D] -> 0 < B -> num_patches (rows_of t) = N.
Proof.
  intros Hs HB. unfold rows_of. rewrite Hs.
  destruct B as [|B]; [lia|]. simpl. apply length_chunks.
Qed.

Lemma nth_tensor_of_rows {A : Type} (rows : list (list (list A)))
    (s : list nat) (B N D b n d : nat) (x : A) :
  has_shape3 B N D rows -> b < B -> n < N -> d < D ->
  nth (ravel [B; N; D] [b; n; d]) (data (tensor_of_rows s rows)) x
  = nth d (nth n (nth b rows []) []) x.
Proof.
  intros [Hl Hrows] Hb Hn Hd. cbn [tensor_of_rows data].
  replace (ravel [B; N; D] [b; n; d]) with (b * (N * D) + (n * D + d))
    by (cbn [ravel numel fold_right]; lia).
  rewrite Forall_forall in Hrows.
  rewrite (nth_concat_uniform _ (N * D)).
  - rewrite (nth_indep _ [] (concat [])) by (rewrite length_map; lia).
    rewrite (map_nth (@concat A)).
    assert (In (nth b rows []) rows) as Hin by (apply nth_In; lia).
    destruct (Hrows _ Hin) as [HN HD].
    apply nth_concat_uniform; [assumption | lia | assumption].
  - apply Forall_map, Forall_forall. intros row Hrow.
    destruct (Hrows _ Hrow) as [HN HD].
    rewrite (length_concat_uniform _ D) by assumption. now rewrite HN.
  - rewrite length_map. lia.
  - nia.
Qed.

Lemma wf_tensor_of_rows {A : Type} (rows : list (list (list A))) (B N D : nat) :
  has_shape3 B N D rows -> wf_tensor (tensor_of_rows [B; N; D] rows).
Proof.
  intros [Hl Hrows]. unfold wf_tensor. cbn [tensor_of_rows data shape].
  rewrite (length_concat_uniform _ (N * D)).
  - rewrite length_map, Hl. cbn [numel fold_right]. lia.
  - apply Forall_map. revert Hrows. apply Forall_impl. intros row [HN HD].
    rewrite (length_concat_uniform _ D) by assumption. now rewrite HN.
Qed.

Lemma has_shape3_intro {A : Type} (B N D : nat) (t : list (list (list A))) :
  length t = B ->
  (forall b, b < B ->
     length (nth b t []) = N /\
     forall n, n < N -> length (nth n (nth b t []) []) = D) ->
  has_shape3 B N D t.
Proof.
  intros Hl H. split; [assumption|].
  apply Forall_forall. intros row Hrow.
  apply (In_nth _ _ []) in Hrow. destruct Hrow as (b & Hb & <-).
  rewrite Hl in Hb. destruct (H b Hb) as [HN HD]. split; [assumption|].
  apply Forall_forall. intros p Hp.
  apply (In_nth _ _ []) in Hp. destruct Hp as (n & Hn & <-).
  rewrite HN in Hn. now apply HD.
Qed.

Lemma nth_map_const {A C : Type} (c : C) (l : list A) (i : nat) :
  nth i (map (fun _ => c) l) c = c.
Proof. revert i; induction l as [|x l IH]; intros [|i]; simpl; auto. Qed.

Lemma nth_map_default {A C : Type} (f : A -> C) (l : list A) (i : nat)
    (dc : C) (da : A) :
  i < length l -> nth i (map f l) dc = f (nth i l da).
Proof.
  intros Hi. rewrite (nth_indep _ dc (f da)) by (now rewrite length_map).
  apply map_nth.
Qed.

(** The rows [random_masking] returns, read entry by entry. *)
Lemma masking_entries (noise : list (list f32))
    (rows : list (list (list f32))) (mask_ratio : f64) (B N D : nat) (k : Z) :
  has_shape3 B N D rows -> has_shape2 B N noise -> 0 < B ->
  len_keep N mask_ratio = Ok k ->
  exists masked mask,
    random_masking_with noise rows mask_ratio = Ok (masked, mask) /\
    has_shape3 B N D masked /\ has_shape2 B N mask /\
    forall b n, b < B -> n < N ->
      nth n (nth b masked []) []
      = if is_zero (nth n (nth b mask []) F32.one)
        then nth n (nth b rows []) []
        else map (fun _ => F32.zero) (nth n (nth b rows []) []).
Proof.
  intros Hrows Hnoise HB Hk.
  destruct (has_shape3_nth _ _ _ _ Hrows) as [Lr Rr].
  destruct (has_shape2_nth _ _ _ Hnoise) as [Ln Rn].
  assert (num_patches rows = N) as HN.
  { destruct rows as [|row rows]; [simpl in Lr; lia|].
    simpl. exact (proj1 (Rr 0 HB)). }
  rewrite <- HN in Hk.
  rewrite (random_masking_with_rows noise rows mask_ratio k Hk). rewrite HN.
  do 2 eexists. split; [reflexivity|].
  assert (forall b, b < B ->
            nth b (map (fun '(row, nz) => row_masked N k nz row)
                       (combine rows noise)) []
            = row_masked N k (nth b noise []) (nth b rows [])) as Em.
  { intros b Hb.
    now rewrite (nth_map_combine _ rows noise b [] [] []) by lia. }
  assert (forall b, b < B ->
            nth b (map (row_mask N k) noise) [] = row_mask N k (nth b noise []))
    as Ek by (intros b Hb; apply nth_map_default; lia).
  assert (forall b n, b < B -> n < N ->
            nth n (row_masked N k (nth b noise []) (nth b rows [])) []
            = if is_zero (nth n (row_mask N k (nth b noise [])) F32.one)
              then nth n (nth b rows []) []
              else map (fun _ => F32.zero) (nth n (nth b rows []) [])) as En.
  { intros b n Hb Hn. destruct (Rr b Hb) as [HNr _].
    rewrite nth_row_masked by auto.
    rewrite nth_row_mask by (rewrite (Rn b Hb); assumption).
    destruct (_ <? _); reflexivity. }
  split; [|split].
  - apply has_shape3_intro.
    + rewrite length_map, length_combine. lia.
    + intros b Hb. rewrite (Em b Hb). destruct (Rr b Hb) as [HNr HDr].
      split; [now rewrite length_row_masked|].
      intros n Hn. rewrite (En b n Hb Hn).
      destruct (is_zero _); rewrite ?length_map; now apply HDr.
  - split; [now rewrite length_map|].
    apply Forall_map, Forall_forall. intros nz Hnz.
    rewrite length_row_mask.
    destruct Hnoise as [_ Hall]. rewrite Forall_forall in Hall. now apply Hall.
  - intros b n Hb Hn. now rewrite (Em b Hb), (Ek b Hb), (En b n Hb Hn).
Qed.

(** X17: what the Masked panel of [reconstruct_and_visualize] shows.  For
    a batch of square images whose side is a multiple of 4, the image
    batch [unpatchify(masked_patches)] has the shape of the input; its
    pixel [(b, c, y, x)] is the pixel of the input when the patch that
    covers it, number [(y/4)*(H/4) + x/4] of image [b], is visible (mask
    entry 0) and is [0.0] when that patch is hidden. *)
Theorem masked_images_pixels (noise : list (list f32)) (imgs : tensor f32)
    (mask_ratio : f64) (B C H : nat) (k : Z) :
  wf_tensor imgs -> shape imgs = [B; C; H; H] -> 0 < B -> H mod 4 = 0 ->
  has_shape2 B ((H / 4) * (H / 4)) noise ->
  len_keep ((H / 4) * (H / 4)) mask_ratio = Ok k ->
  exists shown mask,
    masked_images noise imgs mask_ratio = Ok (shown, mask) /\
    shape shown = [B; C; H; H] /\
    has_shape2 B ((H / 4) * (H / 4)) mask /\
    forall b c y x, b < B -> c < C -> y < H -> x < H ->
      nth (ravel [B; C; H; H] [b; c; y; x]) (data shown) F32.zero
      = if is_zero (nth ((y / 4) * (H / 4) + x / 4) (nth b mask []) F32.one)
        then nth (ravel [B; C; H; H] [b; c; y; x]) (data imgs) F32.zero
        else F32.zero.
Proof.
  intros Hwf Hs HB HH Hnoise Hk.
  assert (0 < 4) as HP by lia.
  assert (H = (H / 4) * 4) as EH
    by (rewrite Nat.mul_comm; now apply Nat.Div0.div_exact).
  set (h := H / 4) in *.
  assert (length (data imgs) = numel [B; C; h; 4; h; 4]) as Hl.
  { unfold wf_tensor in Hwf. rewrite Hwf, Hs. rewrite EH at 1 2.
    cbn [numel fold_right]. lia. }
  unfold masked_images, patch_size_default.
  rewrite (patchify_Ok imgs B C H H 4 HP Hwf Hs HH HH). fold h.
  cbn [bind shape].
  set (pdata := permute_data [B; C; h; 4; h; 4] [0; 2; 4; 3; 5; 1] (data imgs)).
  set (patches := mkTensor [B; h * h; 4 * 4 * C] pdata).
  assert (wf_tensor patches) as Hwfp
    by (apply wf_permute_data;
        [assumption | cbn [permute_shape map nth numel fold_right]; nia
        | cbn [numel fold_right]; nia]).
  pose proof (rows_of_shape patches B (h * h) (4 * 4 * C) Hwfp eq_refl) as Hrows.
  destruct (masking_entries noise (rows_of patches) mask_ratio
              B (h * h) (4 * 4 * C) k Hrows Hnoise HB Hk)
    as (masked & mask & -> & Hms & Hmk & Hent).
  cbn [bind fst snd].
  pose proof (wf_tensor_of_rows masked B (h * h) (4 * 4 * C) Hms) as Hwfm.
  rewrite (unpatchify_Ok (tensor_of_rows [B; h * h; 4 * 4 * C] masked)
             B C h 4 HP Hwfm eq_refl).
  cbn [bind]. do 2 eexists. split; [reflexivity|].
  split; [cbn [shape]; now rewrite <- EH|]. split; [assumption|].
  intros b c y x Hb Hc Hy Hx. cbn [data]. rewrite EH at 1 2.
  assert (y < h * 4) as Hy' by lia. assert (x < h * 4) as Hx' by lia.
  destruct (div_mod_lt y 4 h HP Hy') as (Hyq & Hyr & _).
  destruct (div_mod_lt x 4 h HP Hx') as (Hxq & Hxr & _).
  set (n := y / 4 * h + x / 4).
  set (off := (y mod 4 * 4 + x mod 4) * C + c).
  assert (n < h * h) as Hn by (unfold n; nia).
  assert (off < 4 * 4 * C) as Hoff by (unfold off; nia).
  rewrite unpatchify_data_at; trivial.
  2:{ unfold wf_tensor in Hwfm. rewrite Hwfm.
      cbn [tensor_of_rows shape numel fold_right]. nia. }
  fold n off.
  rewrite (nth_tensor_of_rows masked _ B (h * h) (4 * 4 * C) b n off F32.zero)
    by assumption.
  rewrite (Hent b n Hb Hn).
  destruct (is_zero (nth n (nth b mask []) F32.one)).
  - rewrite (nth_rows_of patches B (h * h) (4 * 4 * C) b n off F32.zero)
      by (trivial; reflexivity).
    cbn [data patches]. unfold pdata, n, off.
    rewrite patchify_data_at; trivial.
    now rewrite <- EH.
  - apply nth_map_const.
Qed.

(** * One step of the training loop *)

(** X23: a training step on a batch of images whose sides are multiples
    of 4 raises nothing, whatever the images and the noise hold, for any
    forward pass that returns a sequence of the shape of its input: every
    image has [N - N // 4] hidden patches, the sum of the mask is a
    positive number (the division is not by zero), and the loss is NaN or
    not negative. *)
Theorem train_step_loss_defined
    (model : list (list (list f32)) -> list (list (list f32)))
    (noise : list (list f32)) (imgs : tensor f32) (B C H W : nat) :
  wf_tensor imgs -> shape imgs = [B; C; H; W] -> 0 < B ->
  H mod 4 = 0 -> W mod 4 = 0 ->
  let N := (H / 4) * (W / 4) in
  let D := 4 * 4 * C in
  0 < N -> (Z.of_nat N < 2 ^ 53)%Z ->
  has_shape2 B N noise ->
  (forall x, has_shape3 B N D x -> has_shape3 B N D (model x)) ->
  exists patches masked mask loss,
    patchify imgs 4 = Ok patches /\
    random_masking_with noise (rows_of patches) ratio_notebook
    = Ok (masked, mask) /\
    train_step_loss model noise imgs = Ok loss /\
    compute_loss (rows_of patches) (model masked) mask = Ok loss /\
    Forall (fun row => count_hidden row = N - N / 4) mask /\
    is_zero (fsum (concat mask)) = false /\
    is_nan (fsum (concat mask)) = false /\
    sign_is false loss.
Proof.
  intros Hwf Hs HB HH HW N D HN0 HN Hnoise Hmodel.
  assert (0 < 4) as HP by lia.
  unfold train_step_loss, patch_size_default.
  rewrite (patchify_Ok imgs B C H W 4 HP Hwf Hs HH HW). fold N D.
  cbn [bind].
  set (patches := mkTensor [B; N; D] _).
  assert (wf_tensor patches) as Hwfp.
  { assert (H = 4 * (H / 4)) as EH by (now apply Nat.Div0.div_exact).
    assert (W = 4 * (W / 4)) as EW by (now apply Nat.Div0.div_exact).
    unfold wf_tensor in Hwf. rewrite Hs in Hwf.
    cbn [numel fold_right] in Hwf.
    apply wf_permute_data.
    - rewrite Hwf. cbn [numel fold_right]. nia.
    - cbn [permute_shape map nth numel fold_right]. nia.
    - unfold N, D. cbn [numel fold_right]. nia. }
  pose proof (rows_of_shape patches B N D Hwfp eq_refl) as Hrows.
  pose proof (num_patches_rows_of patches B N D eq_refl HB) as HNr.
  destruct (has_shape3_nth _ _ _ _ Hrows) as [Lr _].
  assert (wf_noise (rows_of patches) noise) as Hwn.
  { destruct Hnoise as [Ln Hall]. split; [lia|]. now rewrite HNr. }
  pose proof (len_keep_default N HN) as Hk0.
  assert (len_keep (num_patches (rows_of patches)) ratio_notebook
          = Ok (Z.of_nat (N / 4))) as Hk by (rewrite HNr; exact Hk0).
  pose proof (Nat.Div0.div_lt_upper_bound N 4 N ltac:(lia)) as Hq.
  destruct (hidden_mask_sum noise (rows_of patches) ratio_notebook _ Hwn Hk
              ltac:(rewrite HNr; lia) ltac:(lia))
    as (masked & mask & Hr & Hshape & Hbin & Hcount & Hpos).
  rewrite HNr, Lr in Hshape. rewrite HNr in Hcount.
  destruct (masking_entries noise (rows_of patches) ratio_notebook B N D _
              Hrows Hnoise HB Hk0)
    as (masked' & mask' & Hr' & Hms & _ & _).
  rewrite Hr in Hr'. injection Hr' as <- <-.
  rewrite Hr. cbn [bind fst snd].
  destruct (shapes_go_together B N D (rows_of patches) (model masked) mask
              Hrows (Hmodel _ Hms) Hshape) as [S3 S2].
  assert (Forall (Forall (sign_is false)) mask) as Hsign.
  { revert Hbin. apply Forall_impl. intros row. apply Forall_impl.
    intros w [-> | ->]; reflexivity. }
  rewrite (compute_loss_Ok _ _ _ S3 S2).
  destruct (pos_from_not_zero _ _ Hpos) as (Hz & Hn & Hs').
  exists patches, masked, mask. eexists.
  split; [reflexivity|]. split; [exact Hr|]. split; [reflexivity|].
  split; [exact (compute_loss_Ok _ _ _ S3 S2)|]. split.
  - revert Hcount. apply Forall_impl. intros row ->.
    rewrite Nat2Z.id. reflexivity.
  - split; [assumption|]. split; [assumption|].
    change false with (xorb false false). apply SFdiv_sign; [|assumption].
    apply fold_add_sign; [reflexivity|].
    apply Forall_weighted; try assumption.
    intros b n Hb Hn'. change false with (xorb false false).
    apply SFmul_sign; [apply patch_error_sign|].
    destruct (same_shape2_elim _ _ S2) as [Lm Rm].
    rewrite Forall_forall in Hsign.
    assert (In (nth b mask []) mask) as Hin by (apply nth_In; lia).
    specialize (Hsign _ Hin). rewrite Forall_forall in Hsign.
    apply Hsign, nth_In. rewrite <- (Rm b Hb). assumption.
Qed.

(** * The random source of the masking policy *)

(** From one state of the default generator, two inputs of the same
    shape get the same mask, and the generator is left in the same
    state. *)
Lemma masking_same_state (generator : Type)
    (torch_rand : nat -> nat -> generator -> list (list f32) * generator)
    (patches1 patches2 : list (list (list f32))) (mask_ratio : f64)
    (g : generator) :
  length patches1 = length patches2 ->
  num_patches patches1 = num_patches patches2 ->
  mask_of (fst (random_masking torch_rand patches1 mask_ratio g))
  = mask_of (fst (random_masking torch_rand patches2 mask_ratio g)) /\
  snd (random_masking torch_rand patches1 mask_ratio g)
  = snd (random_masking torch_rand patches2 mask_ratio g).
Proof.
  intros HB HN. unfold random_masking. rewrite <- HB, <- HN.
  destruct (len_keep (num_patches patches1) mask_ratio) as [k|e] eqn:Hk;
    [|split; reflexivity].
  destruct (torch_rand (length patches1) (num_patches patches1) g)
    as [noise g1].
  cbn [fst snd]. split; [|reflexivity].
  rewrite (random_masking_with_rows noise patches1 mask_ratio k Hk).
  rewrite HN in Hk.
  rewrite (random_masking_with_rows noise patches2 mask_ratio k Hk).
  cbn [mask_of]. now rewrite HN.
Qed.

(** From one state of the default generator, the masked sequences of two
    inputs of the same shape agree at every patch at which the inputs
    agree. *)
Lemma masking_same_state_entries (generator : Type)
    (torch_rand : nat -> nat -> generator -> list (list f32) * generator)
    (patches1 patches2 : list (list (list f32))) (mask_ratio : f64)
    (g : generator) (B N D : nat)
    (masked1 masked2 : list (list (list f32))) (mask1 mask2 : list (list f32)) :
  has_shape3 B N D patches1 -> has_shape3 B N D patches2 ->
  has_shape2 B N (fst (torch_rand B N g)) ->
  fst (random_masking torch_rand patches1 mask_ratio g) = Ok (masked1, mask1) ->
  fst (random_masking torch_rand patches2 mask_ratio g) = Ok (masked2, mask2) ->
  forall b n, b < B -> n < N ->
    nth n (nth b patches1 []) [] = nth n (nth b patches2 []) [] ->
    nth n (nth b masked1 []) [] = nth n (nth b masked2 []) [].
Proof.
  intros S1 S2 Sn E1 E2 b n Hb Hn Hsame.
  assert (0 < B) as HB by lia.
  assert (forall rows : list (list (list f32)), has_shape3 B N D rows ->
            length rows = B /\ num_patches rows = N) as Hdim.
  { intros rows Hr. destruct (has_shape3_nth _ _ _ _ Hr) as [Lr Rr].
    split; [assumption|].
    destruct rows as [|row rows]; [simpl in Lr; lia|].
    simpl. exact (proj1 (Rr 0 HB)). }
  destruct (Hdim _ S1) as [L1 N1], (Hdim _ S2) as [L2 N2].
  destruct (len_keep N mask_ratio) as [k|e] eqn:Hk.
  2:{ rewrite (random_masking_raises_before_draw _ torch_rand patches1
                 mask_ratio g e) in E1 by (now rewrite N1).
      discriminate E1. }
  rewrite (random_masking_draws_once _ torch_rand patches1 mask_ratio g k)
    in E1 by (now rewrite N1).
  rewrite (random_masking_draws_once _ torch_rand patches2 mask_ratio g k)
    in E2 by (now rewrite N2).
  rewrite L1, N1 in E1. rewrite L2, N2 in E2. cbn [fst] in E1, E2.
  destruct (masking_entries _ patches1 mask_ratio B N D k S1 Sn HB Hk)
    as (m1 & k1 & R1 & _ & _ & F1).
  destruct (masking_entries _ patches2 mask_ratio B N D k S2 Sn HB Hk)
    as (m2 & k2 & R2 & _ & _ & F2).
  rewrite R1 in E1. rewrite R2 in E2.
  injection E1 as <- <-. injection E2 as <- <-.
  assert (k1 = k2) as ->.
  { assert (num_patches patches1 = num_patches patches2) as HN
      by congruence.
    rewrite (random_masking_with_rows _ patches1 mask_ratio k) in R1
      by (now rewrite N1).
    rewrite (random_masking_with_rows _ patches2 mask_ratio k) in R2
      by (now rewrite N2).
    rewrite N1 in R1. rewrite N2 in R2.
    injection R1 as _ <-. injection R2 as _ <-. reflexivity. }
  rewrite (F1 b n Hb Hn), (F2 b n Hb Hn), Hsame. reflexivity.
Qed.

(** C9 (amended): [random_masking] takes no generator: a call that
    passes one raises [TypeError] and draws nothing.  The noise comes
    from the default generator of the process.  From the same state of
    it, with the same mask ratio and the same input shape, two calls
    return the same mask and leave the generator in the same state, and
    their masked sequences agree at every patch at which the inputs
    agree. *)
Theorem masking_determined_by_generator_state (generator : Type)
    (torch_rand : nat -> nat -> generator -> list (list f32) * generator)
    (patches1 patches2 : list (list (list f32))) (mask_ratio : option f64)
    (g : generator) :
  length patches1 = length patches2 ->
  num_patches patches1 = num_patches patches2 ->
  (forall supplied : generator,
     random_masking_call torch_rand patches1 mask_ratio (Some supplied) g
     = (Raise TypeError, g)) /\
  (mask_of (fst (random_masking_call torch_rand patches1 mask_ratio None g))
   = mask_of (fst (random_masking_call torch_rand patches2 mask_ratio None g)) /\
   snd (random_masking_call torch_rand patches1 mask_ratio None g)
   = snd (random_masking_call torch_rand patches2 mask_ratio None g)) /\
  (forall B N D masked1 mask1 masked2 mask2,
     has_shape3 B N D patches1 -> has_shape3 B N D patches2 ->
     has_shape2 B N (fst (torch_rand B N g)) ->
     fst (random_masking_call torch_rand patches1 mask_ratio None g)
     = Ok (masked1, mask1) ->
     fst (random_masking_call torch_rand patches2 mask_ratio None g)
     = Ok (masked2, mask2) ->
     forall b n, b < B -> n < N ->
       nth n (nth b patches1 []) [] = nth n (nth b patches2 []) [] ->
       nth n (nth b masked1 []) [] = nth n (nth b masked2 []) []).
Proof.
  intros HB HN. split; [reflexivity|]. split.
  - apply masking_same_state; assumption.
  - intros B N D masked1 mask1 masked2 mask2.
    apply masking_same_state_entries.
Qed.

(** ** The random source at concrete inputs *)

Lemma sample_rec1_shape : has_shape3 1 4 1 sample_rec1.
Proof. split; [reflexivity | repeat constructor]. Qed.

Lemma counter_noise_shape : has_shape2 1 4 (fst (counter_rand 1 4 0)).
Proof. split; [reflexivity | repeat constructor]. Qed.

Lemma masking_determined_by_generator_state_instance :
  (length sample_patches = length sample_rec1 /\
   num_patches sample_patches = num_patches sample_rec1) /\
  random_masking_call counter_rand sample_patches (Some ratio_half) (Some 7) 0
  = (Raise TypeError, 0) /\
  (mask_of (fst (random_masking_call counter_rand sample_patches
                   (Some ratio_half) None 0))
   = mask_of (fst (random_masking_call counter_rand sample_rec1
                     (Some ratio_half) None 0)) /\
   snd (random_masking_call counter_rand sample_patches (Some ratio_half) None 0)
   = snd (random_masking_call counter_rand sample_rec1 (Some ratio_half) None 0)) /\
  exists masked1 mask1 masked2 mask2,
    fst (random_masking_call counter_rand sample_patches (Some ratio_half) None 0)
    = Ok (masked1, mask1) /\
    fst (random_masking_call counter_rand sample_rec1 (Some ratio_half) None 0)
    = Ok (masked2, mask2) /\
    nth 1 (nth 0 sample_patches []) [] = nth 1 (nth 0 sample_rec1 []) [] /\
    nth 1 (nth 0 masked1 []) [] = nth 1 (nth 0 masked2 []) [].
Proof.
  split; [split; reflexivity|].
  destruct (masking_determined_by_generator_state nat counter_rand
              sample_patches sample_rec1 (Some ratio_half) 0
              eq_refl eq_refl) as (Hcall & Hmask & Hentries).
  split; [exact (Hcall 7)|]. split; [exact Hmask|].
  do 4 eexists.
  split; [vm_compute; reflexivity|]. split; [vm_compute; reflexivity|].
  split; [reflexivity|].
  apply (Hentries 1 4 1 _ _ _ _ sample_patches_shape sample_rec1_shape
           counter_noise_shape eq_refl eq_refl 0 1);
    [repeat constructor | repeat constructor | reflexivity].
Defined.

(** A call that passes a generator raises, whatever the generator and
    whatever the state of the default one; and two calls with the same
    arguments return different masks when the default generator is in
    different states. *)
Lemma masking_takes_no_generator :
  random_masking_call counter_rand sample_patches (Some ratio_half) (Some 0) 0
  = (Raise TypeError, 0) /\
  random_masking_call counter_rand sample_patches (Some ratio_half) (Some 0) 1
  = (Raise TypeError, 1) /\
  random_masking_call counter_rand sample_patches None (Some 0) 0
  = (Raise TypeError, 0) /\
  mask_of (fst (random_masking_call counter_rand sample_patches
                  (Some ratio_half) None 0))
  <> mask_of (fst (random_masking_call counter_rand sample_patches
                     (Some ratio_half) None 1)).
Proof.
  repeat split. vm_compute. discriminate.
Qed.

(** * Showing an image *)

(** ** Clipping *)

Lemma np_clip_unit (x : f64) :
  is_nan (np_clip x (F64.of_Z 0) (F64.of_Z 1)) = is_nan x /\
  (is_nan x = false ->
   SFleb F64.zero (np_clip x (F64.of_Z 0) (F64.of_Z 1)) = true /\
   SFleb (np_clip x (F64.of_Z 0) (F64.of_Z 1)) F64.one = true).
Proof.
  change (F64.of_Z 0) with F64.zero. change (F64.of_Z 1) with F64.one.
  destruct x as [s|[|]| |[|] m e]; try (split; [reflexivity|]; intros _;
    vm_compute; split; reflexivity).
  - split; [reflexivity|]. discriminate.
  - unfold np_clip.
    change (is_nan (S754_finite false m e)) with false. cbv iota.
    change (SFltb F64.zero (S754_finite false m e)) with true. cbv iota.
    change (is_nan (S754_finite false m e)) with false. cbv iota.
    destruct (SFltb (S754_finite false m e) F64.one) eqn:E.
    + split; [reflexivity|]. intros _. split; [reflexivity|].
      unfold SFltb in E. unfold SFleb.
      destruct (SFcompare (S754_finite false m e) F64.one) as [[| |]|];
        try discriminate E; reflexivity.
    + split; [reflexivity|]. intros _. vm_compute. split; reflexivity.
Qed.

(** ** No NaN of its own *)

Lemma f64_of_f32_nan (x : f32) : is_nan (f64_of_f32 x) = is_nan x.
Proof.
  destruct x as [s|s| |s m e]; try reflexivity.
  unfold f64_of_f32, binary_round.
  destruct (shl_align m e _) as [mz ez]. apply binary_round_aux_not_nan.
Qed.

Lemma mul_finite_not_nan (s : bool) (m : positive) (e : Z) (x : f64) :
  is_nan x = false -> is_nan (F64.mul (S754_finite s m e) x) = false.
Proof.
  destruct x as [b|b| |b mx ex]; try discriminate; intros _; try reflexivity.
  apply binary_round_aux_not_nan.
Qed.

Lemma std_mean_numbers (c : nat) :
  c < 3 ->
  (exists s m e, nth c std S754_nan = S754_finite s m e) /\
  is_finite (nth c mean S754_nan) = true.
Proof.
  intros Hc. destruct c as [|[|[|c]]]; try lia;
    (split; [vm_compute; do 3 eexists; reflexivity | reflexivity]).
Qed.

Lemma unnormalize_value_nan (c : nat) (x : f64) :
  c < 3 -> is_nan x = false -> is_nan (unnormalize_value c x) = false.
Proof.
  intros Hc Hx. destruct (std_mean_numbers c Hc) as [(s & m & e & Es) Hm].
  unfold unnormalize_value. rewrite Es.
  apply SFadd_finite_not_nan; [|assumption].
  now apply mul_finite_not_nan.
Qed.

(** ** The values shown *)

Lemma in_take_at {A : Type} (l : list A) (idxs : list nat) (x : A) :
  In x (take_at l idxs) -> In x l.
Proof.
  unfold take_at. destruct l as [|d l]; [intros []|].
  intros Hin. apply in_map_iff in Hin. destruct Hin as (i & <- & _).
  destruct (Nat.lt_ge_cases i (length (d :: l))) as [Hi|Hi].
  - now apply nth_In.
  - rewrite nth_overflow by assumption. now left.
Qed.

Lemma transpose_inv {A : Type} (a r : tensor A) (axes : list nat) :
  transpose a axes = Ok r ->
  is_perm axes (length (shape a)) = true /\
  r = mkTensor (permute_shape axes (shape a))
               (permute_data (shape a) axes (data a)).
Proof.
  unfold transpose, permute, permute_data.
  destruct (is_perm axes (length (shape a))); [|discriminate].
  intros [= <-]. now split.
Qed.

(** Every value of the array shown comes from a value of the image. *)
Lemma imshow_values (img : tensor f32) (out : tensor f64) :
  imshow img = Ok out ->
  forall v, In v (data out) ->
    exists x c, In x (data img) /\ c < 3 /\
      v = np_clip (unnormalize_value c (f64_of_f32 x)) (F64.of_Z 0) (F64.of_Z 1).
Proof.
  unfold imshow. intros Hout.
  apply bind_Ok in Hout. destruct Hout as (t & Ht & Hout).
  apply bind_Ok in Hout. destruct Hout as (u & Hu & Hout).
  injection Hout as <-. cbn [data].
  apply transpose_inv in Ht. destruct Ht as [_ ->].
  cbn [shape data] in Hu.
  assert (forall y, In y (data u) ->
            exists x c, In x (data img) /\ c < 3 /\
                        y = unnormalize_value c (f64_of_f32 x)) as Hy.
  { unfold unnormalize in Hu. cbn [shape data] in Hu.
    destruct (permute_shape [1; 2; 0] (shape img))
      as [|H [|W [|[|[|[|[|C]]]] [|]]]]; try discriminate;
      injection Hu as <-; cbn [data]; intros y Hin.
    - apply in_flat_map in Hin. destruct Hin as (x' & Hx' & Hin).
      apply in_map_iff in Hx'. destruct Hx' as (x & <- & Hx).
      apply in_take_at in Hx.
      destruct Hin as [<-|[<-|[<-|[]]]];
        [exists x, 0 | exists x, 1 | exists x, 2];
        (split; [assumption|]; split; [lia | reflexivity]).
    - apply in_map_iff in Hin. destruct Hin as ([i x'] & <- & Hin).
      apply in_combine_r in Hin.
      apply in_map_iff in Hin. destruct Hin as (x & <- & Hx).
      apply in_take_at in Hx.
      exists x, (i mod 3). split; [assumption|]. split; [|reflexivity].
      apply Nat.mod_upper_bound. lia. }
  intros v Hv. apply in_map_iff in Hv. destruct Hv as (y & <- & Hin).
  destruct (Hy y Hin) as (x & c & Hx & Hc & ->).
  exists x, c. auto.
Qed.

(** X18: [imshow] never hands [plt.imshow] a value outside the range it
    accepts: every value of the array shown is between 0 and 1, or is NaN;
    and it is NaN only where the image holds a NaN, so an image without
    NaN (infinities allowed) is shown with all values in [0, 1]. *)
Theorem imshow_range (img : tensor f32) (out : tensor f64) :
  imshow img = Ok out ->
  Forall (fun v => is_nan v = true \/
                   (SFleb F64.zero v = true /\ SFleb v F64.one = true))
         (data out) /\
  (Forall (fun x => is_nan x = false) (data img) ->
   Forall (fun v => SFleb F64.zero v = true /\ SFleb v F64.one = true)
          (data out)).
Proof.
  intros Hout. pose proof (imshow_values img out Hout) as Hv. split.
  - apply Forall_forall. intros v Hin.
    destruct (Hv v Hin) as (x & c & _ & _ & ->).
    destruct (np_clip_unit (unnormalize_value c (f64_of_f32 x))) as [En Hr].
    destruct (is_nan (unnormalize_value c (f64_of_f32 x))) eqn:E.
    + left. assumption.
    + right. now apply Hr.
  - intros Hn. rewrite Forall_forall in Hn.
    apply Forall_forall. intros v Hin.
    destruct (Hv v Hin) as (x & c & Hx & Hc & ->).
    apply np_clip_unit. apply unnormalize_value_nan; [assumption|].
    rewrite f64_of_f32_nan. now apply Hn.
Qed.

(** ** Where each value is shown *)

Lemma last_axis_channel (H W y x c : nat) :
  c < 3 -> ravel [H; W; 3] [y; x; c] mod 3 = c.
Proof.
  intros Hc. cbn [ravel numel fold_right].
  replace (y * (W * (3 * 1)) + (x * (3 * 1) + (c * 1 + 0)))
    with (c + (y * W + x) * 3) by lia.
  rewrite Nat.Div0.mod_add. now apply Nat.mod_small.
Qed.

Lemma index3_lt (a b c A B C : nat) :
  a < A -> b < B -> c < C -> Forall2 lt [a; b; c] [A; B; C].
Proof. intros; repeat (apply Forall2_cons; [assumption|]). constructor. Qed.

(** X19: on a [3, H, W] image, [imshow] shows an [H, W, 3] array whose
    value at [(y, x, c)] is [std[c] * img[c, y, x] + mean[c]], computed in
    float64 and clipped to [0, 1]: this is the inverse of the
    normalisation of the data set, channel by channel. *)
Theorem imshow_layout (img : tensor f32) (H W : nat) :
  wf_tensor img -> shape img = [3; H; W] ->
  exists out,
    imshow img = Ok out /\ shape out = [H; W; 3] /\
    forall c y x, c < 3 -> y < H -> x < W ->
      nth (ravel [H; W; 3] [y; x; c]) (data out) S754_nan
      = np_clip (unnormalize_value c
                   (f64_of_f32 (nth (ravel [3; H; W] [c; y; x]) (data img)
                                    F32.zero)))
                (F64.of_Z 0) (F64.of_Z 1).
Proof.
  intros Hwf Hs. unfold wf_tensor in Hwf. rewrite Hs in Hwf.
  unfold imshow, transpose.
  rewrite permute_Ok by (rewrite Hs; reflexivity). rewrite Hs.
  cbn [bind shape data permute_shape map nth].
  unfold unnormalize. cbn [shape data bind].
  eexists. split; [reflexivity|]. split; [reflexivity|].
  intros c y x Hc Hy Hx. cbn [data].
  set (pdata := permute_data [3; H; W] [1; 2; 0] (data img)).
  assert (length pdata = numel [3; H; W]) as Hlp.
  { unfold pdata. rewrite length_permute_data; [assumption | assumption |].
    simpl. lia. }
  assert (Forall2 lt [y; x; c] [H; W; 3]) as Hj by (now apply index3_lt).
  pose proof (ravel_lt Hj) as Hi.
  set (i := ravel [H; W; 3] [y; x; c]) in *.
  assert (numel [H; W; 3] = numel [3; H; W]) as En by (simpl; lia).
  rewrite (nth_map_default _ _ i S754_nan S754_nan)
    by (rewrite length_map, length_combine, length_seq, length_map; lia).
  f_equal.
  rewrite (nth_map_combine _ _ _ i 0 S754_nan S754_nan)
    by (rewrite ?length_seq, ?length_map; lia).
  rewrite seq_nth by (rewrite length_map; lia). cbn [Nat.add].
  unfold i at 1. rewrite last_axis_channel by assumption. f_equal.
  rewrite (nth_map_default _ _ i S754_nan F32.zero) by lia. f_equal.
  unfold pdata, i.
  apply (nth_permute_data [3; H; W] [1; 2; 0] (data img) [y; x; c] F32.zero
           Hwf Hj).
  cbn. now apply index3_lt.
Qed.

(** * The loss of an epoch *)

Lemma of_f32_nan : f64_of_f32 S754_nan = S754_nan.
Proof. reflexivity. Qed.

Lemma fold_total_nan_acc (l : list f32) :
  fold_left (fun t x => SFadd F64.prec F64.emax t (f64_of_f32 x)) l S754_nan
  = S754_nan.
Proof. induction l as [|x l IH]; simpl; [reflexivity | exact IH]. Qed.

Lemma fold_total_nan (l : list f32) (acc : f64) :
  In S754_nan l ->
  fold_left (fun t x => SFadd F64.prec F64.emax t (f64_of_f32 x)) l acc
  = S754_nan.
Proof.
  revert acc. induction l as [|x l IH]; intros acc Hin; [destruct Hin|].
  destruct Hin as [E|Hin]; simpl.
  - subst x. rewrite of_f32_nan.
    replace (SFadd F64.prec F64.emax acc S754_nan) with S754_nan
      by (destruct acc; reflexivity).
    apply fold_total_nan_acc.
  - now apply IH.
Qed.

(** X20: the epoch loss [avg_loss = total_loss / len(train_loader)].  With
    no batch the division raises [ZeroDivisionError]; with at least one
    batch (fewer than [2^53]) it returns a float, and a single NaN batch
    loss, such as the one [compute_loss] returns when no patch is hidden,
    makes the loss of the whole epoch NaN. *)
Theorem avg_loss_nan (losses : list f32) :
  (Z.of_nat (length losses) < 2 ^ 53)%Z ->
  (losses = [] -> avg_loss losses = Raise ZeroDivisionError) /\
  (losses <> [] -> exists v, avg_loss losses = Ok v) /\
  (In S754_nan losses -> avg_loss losses = Ok S754_nan).
Proof.
  intros Hlen.
  assert (losses <> [] ->
          exists n, py_float_of_int (Z.of_nat (length losses)) = Ok n) as Hn.
  { intros Hne. unfold py_float_of_int.
    destruct (Z.of_nat (length losses)) as [|p|p] eqn:E.
    - destruct losses; [contradiction | discriminate E].
    - pose proof (of_Z_upper p Hlen) as Hp.
      destruct (F64.of_Z (Z.pos p)) as [s|s| |s m e]; try contradiction;
        eexists; reflexivity.
    - lia. }
  split; [|split].
  - intros ->. reflexivity.
  - intros Hne. destruct (Hn Hne) as [n En]. unfold avg_loss.
    destruct losses as [|l losses]; [contradiction|].
    rewrite En. cbn [bind]. eexists. reflexivity.
  - intros Hin.
    assert (losses <> []) as Hne by (intros ->; destruct Hin).
    destruct (Hn Hne) as [n En]. unfold avg_loss.
    rewrite (fold_total_nan losses F64.zero Hin).
    destruct losses as [|l losses]; [contradiction|].
    rewrite En. reflexivity.
Qed.

(** * Which patches are kept *)

(** ** The order of the noise *)

Lemma SFleb_key (x y : spec_float) :
  is_nan x = false -> is_nan y = false ->
  (SFleb x y = true <-> key_le (float_key x) (float_key y)).
Proof.
  intros Hx Hy. unfold SFleb, SFcompare, key_le, float_key.
  destruct x as [sx|sx| |sx mx ex]; try discriminate;
    destruct y as [sy|sy| |sy my ey]; try discriminate;
    try destruct sx; try destruct sy;
    try (split; [intros _; lia | reflexivity]);
    try (split; [discriminate | lia]).
  - rewrite Pos.compare_cont_spec. cbn [Pos.switch_Eq].
    destruct (Z.compare_spec ex ey) as [E|E|E];
      [destruct (Pos.compare_spec mx my) as [E'|E'|E']|..]; cbn [CompOpp];
      split; try discriminate; try reflexivity; intros; lia.
  - rewrite Pos.compare_cont_spec. cbn [Pos.switch_Eq].
    destruct (Z.compare_spec ex ey) as [E|E|E];
      [destruct (Pos.compare_spec mx my) as [E'|E'|E']|..];
      split; try discriminate; try reflexivity; intros; lia.
Qed.

Lemma key_le_total (a b : Z * Z * Z) : key_le a b \/ key_le b a.
Proof. destruct a as [[a1 a2] a3], b as [[b1 b2] b3]. unfold key_le. lia. Qed.

Lemma key_le_trans (a b c : Z * Z * Z) :
  key_le a b -> key_le b c -> key_le a c.
Proof.
  destruct a as [[a1 a2] a3], b as [[b1 b2] b3], c as [[c1 c2] c3].
  unfold key_le. lia.
Qed.

Lemma F32_leb_total (x y : f32) :
  is_nan x = false -> is_nan y = false ->
  F32.leb x y = true \/ F32.leb y x = true.
Proof.
  intros Hx Hy. unfold F32.leb.
  destruct (key_le_total (float_key x) (float_key y)) as [H|H];
    [left | right]; now apply SFleb_key.
Qed.

Lemma F32_leb_trans (x y z : f32) :
  is_nan x = false -> is_nan y = false -> is_nan z = false ->
  F32.leb x y = true -> F32.leb y z = true -> F32.leb x z = true.
Proof.
  unfold F32.leb. intros Hx Hy Hz H1 H2.
  apply SFleb_key in H1, H2; try assumption.
  apply SFleb_key; try assumption. eapply key_le_trans; eassumption.
Qed.

(** ** Sorting by insertion *)

Section SortedKeys.
Variable K : Type.
Variable leb : K -> K -> bool.
Variable good : K -> Prop.
Hypothesis leb_total :
  forall x y, good x -> good y -> leb x y = true \/ leb y x = true.
Hypothesis leb_trans :
  forall x y z, good x -> good y -> good z ->
    leb x y = true -> leb y z = true -> leb x z = true.

Lemma insert_key_strongly_sorted (x : K * nat) (l : list (K * nat)) :
  good (fst x) -> Forall (fun y => good (fst y)) l ->
  StronglySorted (fun a b => leb (fst a) (fst b) = true) l ->
  StronglySorted (fun a b => leb (fst a) (fst b) = true) (insert_key leb x l).
Proof.
  intros Hx Hl Hs. induction Hs as [|y l Hs IH Hy]; simpl.
  - constructor; constructor.
  - inversion Hl as [|y' l' Gy Gl]; subst.
    destruct (leb (fst x) (fst y)) eqn:E.
    + constructor; [now constructor|]. constructor; [assumption|].
      rewrite Forall_forall in Hy, Gl. apply Forall_forall. intros z Hz.
      apply (leb_trans (fst x) (fst y) (fst z)); auto.
    + constructor; [now apply IH|].
      apply (Permutation_Forall (Permutation_sym (insert_key_perm K leb x l))).
      constructor; [|assumption].
      destruct (leb_total (fst x) (fst y) Hx Gy) as [H|H]; [congruence|assumption].
Qed.

Lemma sort_keys_strongly_sorted (l : list (K * nat)) :
  Forall (fun y => good (fst y)) l ->
  StronglySorted (fun a b => leb (fst a) (fst b) = true) (sort_keys leb l).
Proof.
  induction 1 as [|x l Hx Hl IH]; simpl; [constructor|].
  apply insert_key_strongly_sorted; try assumption.
  apply (Permutation_Forall (Permutation_sym (sort_keys_perm K leb l))).
  assumption.
Qed.
End SortedKeys.

Lemma strongly_sorted_nth {A : Type} (R : A -> A -> Prop) (l : list A)
    (i j : nat) (d : A) :
  StronglySorted R l -> i < j -> j < length l -> R (nth i l d) (nth j l d).
Proof.
  intros Hs. revert i j. induction Hs as [|x l Hs IH Hx]; intros i j Hij Hj;
    [simpl in Hj; lia|].
  destruct j as [|j]; [lia|]. simpl in Hj.
  destruct i as [|i]; simpl.
  - rewrite Forall_forall in Hx. apply Hx, nth_In. lia.
  - apply IH; lia.
Qed.

Lemma in_combine_positions {A : Type} (l : list A) (x : A) (j : nat) (d : A) :
  In (x, j) (combine l (seq 0 (length l))) -> j < length l /\ nth j l d = x.
Proof.
  intros Hin. apply (In_nth _ _ (d, 0)) in Hin.
  destruct Hin as (i & Hi & E).
  rewrite length_combine, length_seq, Nat.min_id in Hi.
  rewrite combine_nth in E by (now rewrite length_seq).
  rewrite seq_nth in E by assumption. injection E as E1 E2. subst. auto.
Qed.

(** The noise of the patches, read in the order of [ids_shuffle], is in
    ascending order. *)
Lemma shuffle_ascending (nz : list f32) (i j : nat) :
  Forall (fun x => is_nan x = false) nz ->
  i < j -> j < length nz ->
  F32.leb (nth (nth i (argsort F32.leb nz) 0) nz F32.zero)
          (nth (nth j (argsort F32.leb nz) 0) nz F32.zero) = true.
Proof.
  intros Hn Hij Hj. unfold argsort.
  set (sorted := sort_keys F32.leb (combine nz (seq 0 (length nz)))).
  assert (Permutation sorted (combine nz (seq 0 (length nz)))) as Hp
    by apply sort_keys_perm.
  assert (length sorted = length nz) as Hl.
  { rewrite (Permutation_length Hp), length_combine, length_seq. lia. }
  assert (forall p, In p sorted ->
            snd p < length nz /\ nth (snd p) nz F32.zero = fst p) as Hel.
  { intros [x q] Hin. apply (Permutation_in _ Hp) in Hin.
    now apply in_combine_positions. }
  assert (StronglySorted (fun a b => F32.leb (fst a) (fst b) = true) sorted)
    as Hs.
  { apply (sort_keys_strongly_sorted f32 F32.leb (fun x => is_nan x = false)).
    - exact F32_leb_total.
    - exact F32_leb_trans.
    - apply Forall_forall. intros [x q] Hin. apply in_combine_l in Hin.
      rewrite Forall_forall in Hn. now apply Hn. }
  pose proof (strongly_sorted_nth _ sorted i j (F32.zero, 0) Hs Hij
                ltac:(lia)) as Hle.
  cbv beta in Hle.
  rewrite !(nth_map_default snd sorted _ 0 (F32.zero, 0)) by lia.
  destruct (Hel (nth i sorted (F32.zero, 0)) ltac:(apply nth_In; lia)) as [_ ->].
  destruct (Hel (nth j sorted (F32.zero, 0)) ltac:(apply nth_In; lia)) as [_ ->].
  exact Hle.
Qed.

(** X21: [random_masking] keeps, in every image, the patches with the
    smallest noise: whenever patch [n] is visible (mask entry 0) and patch
    [n'] of the same image is hidden (mask entry 1), the noise drawn for
    [n] is at most the noise drawn for [n'].  (The noise of [torch.rand]
    holds no NaN.) *)
Theorem kept_patches_have_smallest_noise (noise : list (list f32))
    (patches : list (list (list f32))) (mask_ratio : f64) (k : Z) :
  wf_noise patches noise ->
  Forall (Forall (fun x => is_nan x = false)) noise ->
  len_keep (num_patches patches) mask_ratio = Ok k ->
  exists masked mask,
    random_masking_with noise patches mask_ratio = Ok (masked, mask) /\
    forall b n n',
      b < length patches ->
      n < num_patches patches -> n' < num_patches patches ->
      nth n (nth b mask []) F32.one = F32.zero ->
      nth n' (nth b mask []) F32.one = F32.one ->
      F32.leb (nth n (nth b noise []) F32.zero)
              (nth n' (nth b noise []) F32.zero) = true.
Proof.
  intros [Hnl Hnz] Hnan Hk.
  rewrite (random_masking_with_rows noise patches mask_ratio k Hk).
  do 2 eexists. split; [reflexivity|].
  intros b n n' Hb Hn Hn'.
  set (N := num_patches patches) in *.
  rewrite (nth_map_default (row_mask N k) noise b [] []) by lia.
  set (nz := nth b noise []).
  assert (In nz noise) as Hin by (apply nth_In; lia).
  rewrite Forall_forall in Hnz, Hnan.
  pose proof (Hnz _ Hin) as Hlen. pose proof (Hnan _ Hin) as Hnn.
  rewrite !nth_row_mask by lia.
  set (ids_shuffle := argsort F32.leb nz).
  pose proof (argsort_perm F32.leb nz) as Hp. fold ids_shuffle in Hp.
  rewrite Hlen in Hp.
  pose proof (argsort_inverse ids_shuffle N n Hp Hn) as E1.
  pose proof (argsort_inverse ids_shuffle N n' Hp Hn') as E2.
  set (r := nth n (argsort Nat.leb ids_shuffle) 0) in *.
  set (r' := nth n' (argsort Nat.leb ids_shuffle) 0) in *.
  assert (length ids_shuffle = N) as Hls
    by (unfold ids_shuffle; rewrite length_argsort; exact Hlen).
  assert (r' < N) as Hr'.
  { rewrite <- Hls. apply (argsort_lt Nat.leb), nth_In.
    rewrite length_argsort. lia. }
  destruct (Nat.ltb_spec r (slice_stop k N)) as [Hr|Hr];
    [|intros E; discriminate E].
  destruct (Nat.ltb_spec r' (slice_stop k N)) as [Hq|Hq];
    [intros _ E; discriminate E|].
  intros _ _.
  rewrite <- E1, <- E2. apply shuffle_ascending; [assumption | lia | lia].
Qed.

(** * The further properties at concrete inputs *)

Lemma patchify_pixel_instance :
  let imgs := mkTensor [1; 2; 4; 4] (seq 0 32) in
  (0 < 2 /\ wf_tensor imgs /\ shape imgs = [1; 2; 4; 4] /\ 4 mod 2 = 0) /\
  exists patches,
    patchify imgs 2 = Ok patches /\
    forall b c y x, b < 1 -> c < 2 -> y < 4 -> x < 4 ->
      nth (ravel [1; (4 / 2) * (4 / 2); 2 * 2 * 2]
                 [b; (y / 2) * (4 / 2) + x / 2;
                  ((y mod 2) * 2 + x mod 2) * 2 + c])
          (data patches) 0
      = nth (ravel [1; 2; 4; 4] [b; c; y; x]) (data imgs) 0.
Proof.
  cbv zeta.
  assert (0 < 2) as HP by (repeat constructor).
  split; [repeat split; assumption|].
  exact (patchify_pixel (mkTensor [1; 2; 4; 4] (seq 0 32)) 1 2 4 4 2 0
           HP eq_refl eq_refl eq_refl eq_refl).
Defined.

Lemma unpatchify_pixel_instance :
  let patches := mkTensor [1; 4; 8] (seq 0 32) in
  (0 < 2 /\ wf_tensor patches /\ shape patches = [1; 2 * 2; 2 * 2 * 2]) /\
  exists imgs,
    unpatchify patches 2 = Ok imgs /\
    shape imgs = [1; 2; 2 * 2; 2 * 2] /\
    forall b c y x, b < 1 -> c < 2 -> y < 2 * 2 -> x < 2 * 2 ->
      nth (ravel [1; 2; 2 * 2; 2 * 2] [b; c; y; x]) (data imgs) 0
      = nth (ravel [1; 2 * 2; 2 * 2 * 2]
                   [b; (y / 2) * 2 + x / 2;
                    ((y mod 2) * 2 + x mod 2) * 2 + c])
            (data patches) 0.
Proof.
  cbv zeta.
  assert (0 < 2) as HP by (repeat constructor).
  split; [repeat split; assumption|].
  exact (unpatchify_pixel (mkTensor [1; 4; 8] (seq 0 32)) 1 2 2 2 0
           HP eq_refl eq_refl).
Defined.

Lemma unpatchify_patchify_instance :
  let patches := mkTensor [1; 4; 8] (seq 0 32) in
  (0 < 2 /\ wf_tensor patches /\ shape patches = [1; 2 * 2; 2 * 2 * 2]) /\
  exists imgs,
    unpatchify patches 2 = Ok imgs /\ patchify imgs 2 = Ok patches.
Proof.
  cbv zeta.
  assert (0 < 2) as HP by (repeat constructor).
  split; [repeat split; assumption|].
  exact (unpatchify_patchify (mkTensor [1; 4; 8] (seq 0 32)) 1 2 2 2
           HP eq_refl eq_refl).
Defined.

Lemma roundtrip_iff_square_instance :
  let imgs := mkTensor [1; 1; 4; 8] (seq 0 32) in
  (0 < 4 /\ wf_tensor imgs /\ shape imgs = [1; 1; 4; 8] /\
   4 mod 4 = 0 /\ 8 mod 4 = 0) /\
  ((exists patches,
      patchify imgs 4 = Ok patches /\ unpatchify patches 4 = Ok imgs)
   <-> 4 = 8).
Proof.
  cbv zeta.
  assert (0 < 4) as HP by (repeat constructor).
  split; [repeat split; assumption|].
  exact (roundtrip_iff_square (mkTensor [1; 1; 4; 8] (seq 0 32)) 1 1 4 8 4
           HP eq_refl eq_refl eq_refl eq_refl).
Defined.

Lemma six_mod_four : 6 mod (2 * 2) <> 0.
Proof. intros H; vm_compute in H; discriminate H. Qed.

Lemma unpatchify_partial_patch_instance :
  let patches := mkTensor [1; 4; 6] (seq 0 24) in
  (0 < 2 /\ wf_tensor patches /\ shape patches = [1; 4; 6] /\
   0 < 1 /\ 0 < 4 /\ 6 mod (2 * 2) <> 0) /\
  unpatchify patches 2 = Raise RuntimeError.
Proof.
  cbv zeta.
  assert (0 < 2) as HP by (repeat constructor).
  assert (0 < 1) as HB by (repeat constructor).
  assert (0 < 4) as HN by (repeat constructor).
  split; [repeat split; try assumption; apply six_mod_four|].
  exact (unpatchify_partial_patch (mkTensor [1; 4; 6] (seq 0 24)) 1 4 6 2
           HP eq_refl eq_refl HB HN six_mod_four).
Defined.

Lemma codec_rearranges_instance :
  let imgs := mkTensor [1; 1; 4; 4] (seq 0 16) in
  let patches :=
    mkTensor [1; 4; 4] [0; 1; 4; 5; 2; 3; 6; 7; 8; 9; 12; 13; 10; 11; 14; 15] in
  patchify imgs 2 = Ok patches /\
  Permutation (data patches) (data imgs).
Proof.
  cbv zeta. split; [reflexivity|].
  exact (codec_rearranges (mkTensor [1; 1; 4; 4] (seq 0 16)) _ 2
           (or_introl eq_refl)).
Defined.

Lemma ids_restore_inverts_shuffle_instance :
  let noise_row := nth 0 sample_noise [] in
  let ids_shuffle := argsort F32.leb noise_row in
  let ids_restore := argsort Nat.leb ids_shuffle in
  1 < length noise_row /\
  nth (nth 1 ids_restore 0) ids_shuffle 0 = 1 /\
  nth (nth 1 ids_shuffle 0) ids_restore 0 = 1 /\
  nth 1 ids_shuffle 0 < length noise_row /\
  nth 1 ids_restore 0 < length noise_row.
Proof.
  cbv zeta.
  assert (1 < length (nth 0 sample_noise [])) as Hi
    by (vm_compute; repeat constructor).
  split; [assumption|].
  exact (ids_restore_inverts_shuffle (nth 0 sample_noise []) 1 Hi).
Defined.

Lemma mask_cardinality_any_count_instance :
  (wf_noise sample_patches sample_noise /\
   len_keep (num_patches sample_patches) ratio_above_one = Ok (-2)%Z) /\
  exists masked mask,
    random_masking_with sample_noise sample_patches ratio_above_one
    = Ok (masked, mask) /\
    length mask = 1 /\
    Forall (fun row => length row = 4 /\ count_hidden row = 2) mask.
Proof.
  assert (len_keep (num_patches sample_patches) ratio_above_one = Ok (-2)%Z)
    as Hk by (vm_compute; reflexivity).
  split; [split; [apply sample_noise_wf | assumption]|].
  exact (mask_cardinality_any_count sample_noise sample_patches
           ratio_above_one (-2) sample_noise_wf Hk).
Defined.

Lemma len_keep_at_the_ends_instance :
  (Z.of_nat 64 < 2 ^ 53)%Z /\
  len_keep 64 F64.one = Ok 0%Z /\ len_keep 64 F64.zero = Ok 64%Z.
Proof.
  assert (Z.of_nat 64 < 2 ^ 53)%Z as HN by (vm_compute; reflexivity).
  split; [assumption|].
  exact (len_keep_at_the_ends 64 HN).
Defined.

Lemma random_masking_at_the_ends_instance :
  (wf_patches 1 sample_patches /\ wf_noise sample_patches sample_noise /\
   (Z.of_nat (num_patches sample_patches) < 2 ^ 53)%Z) /\
  random_masking_with sample_noise sample_patches F64.one
  = Ok (zeros_like sample_patches, repeat (repeat F32.one 4) 1) /\
  random_masking_with sample_noise sample_patches F64.zero
  = Ok (sample_patches, repeat (repeat F32.zero 4) 1) /\
  forall reconstructed,
    same_shape3 sample_patches reconstructed = true ->
    compute_loss sample_patches reconstructed (repeat (repeat F32.zero 4) 1)
    = Ok S754_nan.
Proof.
  assert (Z.of_nat (num_patches sample_patches) < 2 ^ 53)%Z as HN
    by (vm_compute; reflexivity).
  split; [repeat split;
          auto using sample_patches_wf; apply sample_noise_wf|].
  exact (random_masking_at_the_ends sample_noise sample_patches 1
           sample_patches_wf sample_noise_wf HN).
Defined.

Lemma random_masking_ratio_not_a_number_instance :
  ((Z.of_nat (num_patches sample_patches) < 2 ^ 53)%Z /\
   0 < num_patches sample_patches) /\
  random_masking counter_rand sample_patches S754_nan 0
  = (Raise ValueError, 0) /\
  random_masking counter_rand sample_patches (S754_infinity false) 0
  = (Raise OverflowError, 0).
Proof.
  assert (Z.of_nat (num_patches sample_patches) < 2 ^ 53)%Z as HN
    by (vm_compute; reflexivity).
  assert (0 < num_patches sample_patches) as H0
    by (vm_compute; repeat constructor).
  split; [split; assumption|].
  destruct (random_masking_ratio_not_a_number nat counter_rand sample_patches
              0 HN) as [Hnan Hinf].
  split; [exact Hnan | exact (Hinf H0 false)].
Defined.

Lemma sample_mask_signs : Forall (Forall (sign_is false)) sample_mask.
Proof. repeat constructor. Qed.

Lemma compute_loss_not_negative_instance :
  (same_shape3 sample_patches sample_rec1 = true /\
   same_shape2 sample_patches sample_mask = true /\
   Forall (Forall (sign_is false)) sample_mask) /\
  exists loss,
    compute_loss sample_patches sample_rec1 sample_mask = Ok loss /\
    sign_is false loss /\ SFltb loss F32.zero = false.
Proof.
  split; [repeat split; apply sample_mask_signs|].
  exact (compute_loss_not_negative sample_patches sample_rec1 sample_mask
           eq_refl eq_refl sample_mask_signs).
Defined.

Lemma compute_loss_symmetric_instance :
  (same_shape3 sample_patches sample_rec1 = true /\
   same_shape2 sample_patches sample_mask = true) /\
  compute_loss sample_patches sample_rec1 sample_mask
  = compute_loss sample_rec1 sample_patches sample_mask.
Proof.
  split; [split; reflexivity|].
  exact (compute_loss_symmetric sample_patches sample_rec1 sample_mask
           eq_refl eq_refl).
Defined.

Lemma compute_loss_nan_anywhere_instance :
  (same_shape3 sample_patches sample_rec_nan = true /\
   same_shape2 sample_patches sample_mask = true /\
   0 < length sample_patches /\ 0 < length (nth 0 sample_patches []) /\
   0 < length (nth 0 (nth 0 sample_patches []) []) /\
   nth 0 (nth 0 sample_mask []) F32.one = F32.zero /\
   is_nan (nth 0 (nth 0 (nth 0 sample_rec_nan []) []) F32.zero) = true) /\
  compute_loss sample_patches sample_rec_nan sample_mask = Ok S754_nan.
Proof.
  assert (0 < length sample_patches) as Hb by (vm_compute; repeat constructor).
  assert (0 < length (nth 0 sample_patches [])) as Hn
    by (vm_compute; repeat constructor).
  assert (0 < length (nth 0 (nth 0 sample_patches []) [])) as Hd
    by (vm_compute; repeat constructor).
  split; [repeat split; assumption|].
  exact (compute_loss_nan_anywhere sample_patches sample_rec_nan sample_mask
           0 0 0 eq_refl eq_refl Hb Hn Hd (or_intror eq_refl)).
Defined.

Lemma sample_mask_binary :
  Forall (Forall (fun w => w = F32.zero \/ w = F32.one)) sample_mask.
Proof.
  apply Forall_cons; [|apply Forall_nil].
  repeat (apply Forall_cons;
          [first [left; reflexivity | right; reflexivity]|]).
  apply Forall_nil.
Qed.

Lemma sample_mask_hides : In F32.one (concat sample_mask).
Proof. simpl. auto. Qed.

Lemma sample_rec_hidden_exact (b n : nat) :
  b < length sample_patches -> n < length (nth b sample_patches []) ->
  let o := nth n (nth b sample_patches []) [] in
  let r := nth n (nth b sample_rec_hidden []) [] in
  if is_zero (nth n (nth b sample_mask []) F32.zero)
  then is_finite (patch_error o r) = true
  else r = o /\ 0 < length o /\ Forall (fun x => is_finite x = true) o.
Proof.
  intros Hb Hn.
  change (length sample_patches) with 1 in Hb.
  destruct b as [|b]; [|lia].
  change (length (nth 0 sample_patches [])) with 4 in Hn.
  destruct n as [|[|[|[|n]]]]; [| | | |lia];
    vm_compute; repeat split; repeat constructor.
Qed.

Lemma hidden_exact_zero_loss_instance :
  (same_shape3 sample_patches sample_rec_hidden = true /\
   same_shape2 sample_patches sample_mask = true /\
   Forall (Forall (fun w => w = F32.zero \/ w = F32.one)) sample_mask /\
   In F32.one (concat sample_mask) /\
   sample_rec_hidden <> sample_patches) /\
  exists loss,
    compute_loss sample_patches sample_rec_hidden sample_mask = Ok loss /\
    is_zero loss = true.
Proof.
  split.
  - repeat split; try apply sample_mask_binary; try apply sample_mask_hides.
    vm_compute. discriminate.
  - exact (hidden_exact_zero_loss sample_patches sample_rec_hidden sample_mask
             eq_refl eq_refl sample_mask_binary sample_mask_hides
             sample_rec_hidden_exact).
Defined.

Lemma sample_patches_finite :
  Forall (Forall (Forall (fun x => is_finite x = true))) sample_patches.
Proof. repeat constructor. Qed.

Lemma masking_then_loss_instance :
  (wf_patches 1 sample_patches /\ wf_noise sample_patches sample_noise /\
   len_keep (num_patches sample_patches) ratio_half = Ok 2%Z /\
   (0 <= 2 < Z.of_nat (num_patches sample_patches))%Z /\
   0 < length sample_patches /\ 0 < 1 /\
   Forall (Forall (Forall (fun x => is_finite x = true))) sample_patches) /\
  exists masked mask,
    random_masking_with sample_noise sample_patches ratio_half
    = Ok (masked, mask) /\
    is_zero (fsum (concat mask)) = false /\
    is_nan (fsum (concat mask)) = false /\
    exists loss,
      compute_loss sample_patches sample_patches mask = Ok loss /\
      is_zero loss = true.
Proof.
  assert (len_keep (num_patches sample_patches) ratio_half = Ok 2%Z) as Hk
    by (vm_compute; reflexivity).
  assert (0 <= 2 < Z.of_nat (num_patches sample_patches))%Z as Hr
    by (vm_compute; split; [discriminate | reflexivity]).
  assert (0 < length sample_patches) as HB by (vm_compute; repeat constructor).
  assert (0 < 1) as HD by (repeat constructor).
  split; [repeat split; try assumption;
          auto using sample_patches_wf, sample_patches_finite;
          try apply sample_noise_wf; apply Hr|].
  destruct (masking_then_loss sample_noise sample_patches ratio_half 1 2
              sample_patches_wf sample_noise_wf Hk Hr HB)
    as (masked & mask & Hm & Hz & Hn & Hloss).
  exists masked, mask. split; [exact Hm|]. split; [exact Hz|].
  split; [exact Hn|]. exact (Hloss HD sample_patches_finite).
Defined.

Lemma sample_noise_shape : has_shape2 1 ((8 / 4) * (8 / 4)) sample_noise.
Proof. split; [reflexivity | repeat constructor]. Qed.

Lemma masked_images_pixels_instance :
  (wf_tensor sample_image /\ shape sample_image = [1; 1; 8; 8] /\ 0 < 1 /\
   8 mod 4 = 0 /\ has_shape2 1 ((8 / 4) * (8 / 4)) sample_noise /\
   len_keep ((8 / 4) * (8 / 4)) ratio_half = Ok 2%Z) /\
  exists shown mask,
    masked_images sample_noise sample_image ratio_half = Ok (shown, mask) /\
    shape shown = [1; 1; 8; 8] /\
    has_shape2 1 ((8 / 4) * (8 / 4)) mask /\
    forall b c y x, b < 1 -> c < 1 -> y < 8 -> x < 8 ->
      nth (ravel [1; 1; 8; 8] [b; c; y; x]) (data shown) F32.zero
      = if is_zero (nth ((y / 4) * (8 / 4) + x / 4) (nth b mask []) F32.one)
        then nth (ravel [1; 1; 8; 8] [b; c; y; x]) (data sample_image) F32.zero
        else F32.zero.
Proof.
  assert (0 < 1) as HB by (repeat constructor).
  assert (len_keep ((8 / 4) * (8 / 4)) ratio_half = Ok 2%Z) as Hk
    by (vm_compute; reflexivity).
  split; [repeat split; try assumption; apply sample_noise_shape|].
  exact (masked_images_pixels sample_noise sample_image ratio_half 1 1 8 2
           eq_refl eq_refl HB eq_refl sample_noise_shape Hk).
Defined.

Lemma sample_rgb_no_nan : Forall (fun x => is_nan x = false) (data sample_rgb).
Proof. repeat constructor. Qed.

Lemma imshow_range_instance :
  exists out,
    imshow sample_rgb = Ok out /\
    Forall (fun x => is_nan x = false) (data sample_rgb) /\
    Forall (fun v => is_nan v = true \/
                     (SFleb F64.zero v = true /\ SFleb v F64.one = true))
           (data out) /\
    Forall (fun v => SFleb F64.zero v = true /\ SFleb v F64.one = true)
           (data out).
Proof.
  destruct (imshow sample_rgb) as [out|e] eqn:E.
  - exists out. split; [reflexivity|]. split; [apply sample_rgb_no_nan|].
    destruct (imshow_range sample_rgb out E) as [H1 H2].
    split; [exact H1 | exact (H2 sample_rgb_no_nan)].
  - exfalso. vm_compute in E. discriminate E.
Defined.

Lemma imshow_layout_instance :
  (wf_tensor sample_rgb /\ shape sample_rgb = [3; 1; 2]) /\
  exists out,
    imshow sample_rgb = Ok out /\ shape out = [1; 2; 3] /\
    forall c y x, c < 3 -> y < 1 -> x < 2 ->
      nth (ravel [1; 2; 3] [y; x; c]) (data out) S754_nan
      = np_clip (unnormalize_value c
                   (f64_of_f32 (nth (ravel [3; 1; 2] [c; y; x])
                                    (data sample_rgb) F32.zero)))
                (F64.of_Z 0) (F64.of_Z 1).
Proof.
  split; [split; reflexivity|].
  exact (imshow_layout sample_rgb 1 2 eq_refl eq_refl).
Defined.

Lemma avg_loss_nan_instance :
  let losses := [F32.of_nat 1; S754_nan; F32.of_nat 2] in
  ((Z.of_nat (length losses) < 2 ^ 53)%Z /\ losses <> [] /\
   In S754_nan losses) /\
  (exists v, avg_loss losses = Ok v) /\
  avg_loss losses = Ok S754_nan.
Proof.
  cbv zeta.
  assert (Z.of_nat (length [F32.of_nat 1; S754_nan; F32.of_nat 2]) < 2 ^ 53)%Z
    as HN by (vm_compute; reflexivity).
  assert ([F32.of_nat 1; S754_nan; F32.of_nat 2] <> []) as Hne
    by discriminate.
  assert (In S754_nan [F32.of_nat 1; S754_nan; F32.of_nat 2]) as Hin
    by (right; left; reflexivity).
  split; [repeat split; assumption|].
  destruct (avg_loss_nan [F32.of_nat 1; S754_nan; F32.of_nat 2] HN)
    as (_ & Hok & Hnan).
  split; [exact (Hok Hne) | exact (Hnan Hin)].
Defined.

Lemma sample_noise_no_nan :
  Forall (Forall (fun x => is_nan x = false)) sample_noise.
Proof. vm_compute. repeat constructor. Qed.

Lemma kept_patches_have_smallest_noise_instance :
  (wf_noise sample_patches sample_noise /\
   Forall (Forall (fun x => is_nan x = false)) sample_noise /\
   len_keep (num_patches sample_patches) ratio_half = Ok 2%Z) /\
  exists masked mask,
    random_masking_with sample_noise sample_patches ratio_half
    = Ok (masked, mask) /\
    forall b n n',
      b < 1 -> n < 4 -> n' < 4 ->
      nth n (nth b mask []) F32.one = F32.zero ->
      nth n' (nth b mask []) F32.one = F32.one ->
      F32.leb (nth n (nth b sample_noise []) F32.zero)
              (nth n' (nth b sample_noise []) F32.zero) = true.
Proof.
  assert (len_keep (num_patches sample_patches) ratio_half = Ok 2%Z) as Hk
    by (vm_compute; reflexivity).
  split; [repeat split; try assumption;
          try apply sample_noise_wf; apply sample_noise_no_nan|].
  exact (kept_patches_have_smallest_noise sample_noise sample_patches
           ratio_half 2 sample_noise_wf sample_noise_no_nan Hk).
Defined.

Lemma default_ratio_keeps_a_quarter_instance :
  (wf_noise sample_patches sample_noise /\
   (Z.of_nat (num_patches sample_patches) < 2 ^ 53)%Z) /\
  len_keep 4 ratio_notebook = Ok 1%Z /\
  exists masked mask,
    random_masking_with sample_noise sample_patches ratio_notebook
    = Ok (masked, mask) /\
    length mask = 1 /\
    Forall (fun row => length row = 4 /\ count_hidden row = 3) mask.
Proof.
  assert (Z.of_nat (num_patches sample_patches) < 2 ^ 53)%Z as HN
    by (vm_compute; reflexivity).
  split; [split; [apply sample_noise_wf | assumption]|].
  exact (default_ratio_keeps_a_quarter sample_noise sample_patches
           sample_noise_wf HN).
Defined.

Lemma identity_keeps_shape (B N D : nat) (x : list (list (list f32))) :
  has_shape3 B N D x -> has_shape3 B N D ((fun y => y) x).
Proof. exact (fun H => H). Qed.

Lemma train_step_loss_defined_instance :
  (wf_tensor sample_image /\ shape sample_image = [1; 1; 8; 8] /\ 0 < 1 /\
   8 mod 4 = 0 /\ 0 < (8 / 4) * (8 / 4) /\
   (Z.of_nat ((8 / 4) * (8 / 4)) < 2 ^ 53)%Z /\
   has_shape2 1 ((8 / 4) * (8 / 4)) sample_noise) /\
  exists patches masked mask loss,
    patchify sample_image 4 = Ok patches /\
    random_masking_with sample_noise (rows_of patches) ratio_notebook
    = Ok (masked, mask) /\
    train_step_loss (fun y => y) sample_noise sample_image = Ok loss /\
    compute_loss (rows_of patches) masked mask = Ok loss /\
    Forall (fun row => count_hidden row = 3) mask /\
    is_zero (fsum (concat mask)) = false /\
    is_nan (fsum (concat mask)) = false /\
    sign_is false loss.
Proof.
  assert (0 < 1) as HB by (repeat constructor).
  assert (0 < (8 / 4) * (8 / 4)) as HN0 by (vm_compute; repeat constructor).
  assert (Z.of_nat ((8 / 4) * (8 / 4)) < 2 ^ 53)%Z as HN
    by (vm_compute; reflexivity).
  split; [repeat split; try assumption; apply sample_noise_shape|].
  exact (train_step_loss_defined (fun y => y) sample_noise sample_image
           1 1 8 8 eq_refl eq_refl HB eq_refl eq_refl HN0 HN
           sample_noise_shape (identity_keeps_shape 1 _ _)).
Defined.
